(** * Path resolution and wikilink graph of the Obsidian vault server

    A shallow embedding of [vault.py], [links.py], [notes.py] and the
    full-text search of [search.py], followed by the properties that the
    specification states about them and by further properties of the
    code.

    Conventions of the embedding.
    - A Python [str] is a [text], the list of its characters.  The
      characters are the code points below 256; on them case folding
      ([str.lower], the [re.IGNORECASE] flag), white space and line
      boundaries are those of Python.
    - A [pathlib.Path] is the list of its components ([path]); an absolute
      path lists the components below [/], after an empty component when
      its root is [//].
    - The file system is a finite tree of directories and regular files.
      Symbolic links are not part of the model, so [Path.resolve] is the
      resolution of [..] components that [realpath] performs when no
      component is a link.
    - A function that raises returns an explicit error value. *)

From Stdlib Require Import Ascii String.
From Stdlib Require Import List Bool Arith ZArith Lia.
From Stdlib Require Decimal DecimalNat DecimalString.
From Stdlib Require Import Sorting.Sorted Sorting.Permutation.
Import ListNotations.

Set Implicit Arguments.
Local Open Scope list_scope.
Local Open Scope bool_scope.

(* ================================================================= *)
(** ** Text *)

Module Text.

Definition text := list ascii.

(** A literal: [T "abc"] is the text a-b-c. *)
Definition T (s : string) : text := list_ascii_of_string s.

Fixpoint eqb (a b : text) : bool :=
  match a, b with
  | [], [] => true
  | x :: a', y :: b' => Ascii.eqb x y && eqb a' b'
  | _, _ => false
  end.

(** [s.startswith(p)] *)
Fixpoint startswith (s p : text) {struct p} : bool :=
  match p, s with
  | [], _ => true
  | y :: p', x :: s' => Ascii.eqb x y && startswith s' p'
  | _ :: _, [] => false
  end.

(** [s.endswith(p)] *)
Definition endswith (s p : text) : bool :=
  startswith (rev s) (rev p).

(** [p in s] for strings. *)
Fixpoint contains (s p : text) : bool :=
  startswith s p ||
  match s with
  | [] => false
  | _ :: s' => contains s' p
  end.

(** [s.find(c)]: the first index of [c], when there is one. *)
Fixpoint index_of (c : ascii) (s : text) : option nat :=
  match s with
  | [] => None
  | x :: s' =>
      if Ascii.eqb x c then Some 0
      else match index_of c s' with
           | Some i => Some (S i)
           | None => None
           end
  end.

(** The cased capitals below 256: A to Z, and U+00C0 to U+00DE without
    the multiplication sign U+00D7. *)
Definition is_upper (c : ascii) : bool :=
  let n := nat_of_ascii c in
  ((65 <=? n) && (n <=? 90)) ||
  ((192 <=? n) && (n <=? 222) && negb (n =? 215)).

Definition lower_char (c : ascii) : ascii :=
  if is_upper c then ascii_of_nat (nat_of_ascii c + 32) else c.

(** [s.lower()] *)
Definition lower (s : text) : text := map lower_char s.

Fixpoint lstrip_char (c : ascii) (s : text) : text :=
  match s with
  | x :: s' => if Ascii.eqb x c then lstrip_char c s' else s
  | [] => []
  end.

(** [s.strip(c)] for a one-character argument. *)
Definition strip_char (c : ascii) (s : text) : text :=
  rev (lstrip_char c (rev (lstrip_char c s))).

(** [s.split(c)]: the pieces between the occurrences of [c]. *)
Fixpoint split (c : ascii) (s : text) : list text :=
  match s with
  | [] => [[]]
  | x :: s' =>
      if Ascii.eqb x c then [] :: split c s'
      else match split c s' with
           | w :: ws => (x :: w) :: ws
           | [] => [[x]]
           end
  end.

(** [sep.join(parts)] *)
Fixpoint join (sep : text) (parts : list text) : text :=
  match parts with
  | [] => []
  | [w] => w
  | w :: ws => w ++ sep ++ join sep ws
  end.

(** Python compares strings by code point. *)
Fixpoint compare (a b : text) : comparison :=
  match a, b with
  | [], [] => Eq
  | [], _ :: _ => Lt
  | _ :: _, [] => Gt
  | x :: a', y :: b' =>
      match Nat.compare (nat_of_ascii x) (nat_of_ascii y) with
      | Eq => compare a' b'
      | c => c
      end
  end.

(** [c.isspace()]: TAB to CR, FS to the blank, NEL and the no-break
    space. *)
Definition is_space (c : ascii) : bool :=
  let n := nat_of_ascii c in
  ((9 <=? n) && (n <=? 13)) || ((28 <=? n) && (n <=? 32)) ||
  (n =? 133) || (n =? 160).

Fixpoint lstrip_space (s : text) : text :=
  match s with
  | x :: s' => if is_space x then lstrip_space s' else s
  | [] => []
  end.

(** [s.strip()] *)
Definition strip (s : text) : text :=
  rev (lstrip_space (rev (lstrip_space s))).

(** The line boundaries of [str.splitlines]: LF, VT, FF, CR, FS, GS, RS
    and NEL. *)
Definition is_linebreak (c : ascii) : bool :=
  let n := nat_of_ascii c in
  ((10 <=? n) && (n <=? 13)) || ((28 <=? n) && (n <=? 30)) || (n =? 133).

(** [s.splitlines()]: CR LF counts as one boundary and a final
    boundary opens no empty line. *)
Fixpoint splitlines_from (cur : text) (s : text) : list text :=
  match s with
  | [] => match cur with [] => [] | _ => [rev cur] end
  | x :: s' =>
      if is_linebreak x then
        rev cur ::
        match s' with
        | y :: s'' =>
            if Ascii.eqb x "013" && Ascii.eqb y "010"
            then splitlines_from [] s''
            else splitlines_from [] s'
        | [] => []
        end
      else splitlines_from (x :: cur) s'
  end.

Definition splitlines (s : text) : list text := splitlines_from [] s.



(** [s.replace(old, new, 1)]: the leftmost occurrence of [old] gives
    way to [new]; the empty [old] occurs at the very start. *)
Fixpoint replace_first (old new s : text) : text :=
  if startswith s old then new ++ skipn (List.length old) s
  else match s with
       | [] => []
       | c :: s' => c :: replace_first old new s'
       end.

(** [str(n)] for a natural number: its decimal digits. *)
Definition str_of_nat (n : nat) : text :=
  T (DecimalString.NilEmpty.string_of_uint (Nat.to_uint n)).

End Text.

Import Text.

(* ================================================================= *)
(** ** Paths *)

Module PurePath.

(** The components of a path; the root [/] of an absolute path is left
    implicit.  The root [//], which POSIX keeps apart and which a string
    with exactly two leading slashes names, shows as an empty first
    component. *)
Definition path := list text.

Definition anchored (p : path) : bool :=
  match p with
  | [] :: _ => true
  | _ => false
  end.

Definition slash : ascii := "/"%char.
Definition dotdot : text := T "..".
Definition dot : text := T ".".
Definition md : text := T ".md".

(** How [pathlib] reads a string: the pieces between slashes, the empty
    ones and the single dots dropped, [..] kept; exactly two leading
    slashes give the root [//]. *)
Definition parts (s : text) : list text :=
  let pieces := filter (fun w => negb (Text.eqb w []) && negb (Text.eqb w dot))
                       (Text.split slash s) in
  if startswith s [slash; slash] && negb (startswith s [slash; slash; slash])
  then [] :: pieces
  else pieces.

(** [base / s]: an absolute [s] replaces [base]. *)
Definition joinpath (base : path) (s : text) : path :=
  if startswith s [slash] then parts s else base ++ parts s.

(** [Path(s).name] and [p.name]: the last component, empty when none. *)
Definition name (p : path) : text := last p [].

(** [p.parent], for a path that has a component. *)
Definition parent (p : path) : path := removelast p.

(** [str(p)] of an absolute path, other than the bare root [//]. *)
Definition str (p : path) : text := slash :: Text.join [slash] p.

(** [str(p)] of a relative path. *)
Definition str_rel (p : path) : text :=
  match p with
  | [] => dot
  | _ :: _ => Text.join [slash] p
  end.

(** [name.rfind(".")]: index of the last dot, when there is one. *)
Fixpoint rfind_dot (s : text) : option nat :=
  match s with
  | [] => None
  | c :: s' =>
      match rfind_dot s' with
      | Some i => Some (S i)
      | None => if Ascii.eqb c "."%char then Some 0 else None
      end
  end.

(** [p.suffix]: from the last dot on, unless that dot is the first or
    the last character of the name. *)
Definition suffix_of_name (nm : text) : text :=
  match rfind_dot nm with
  | Some i => if (0 <? i) && (i <? length nm - 1) then skipn i nm else []
  | None => []
  end.

(** [p.stem] *)
Definition stem_of_name (nm : text) : text :=
  match rfind_dot nm with
  | Some i => if (0 <? i) && (i <? length nm - 1) then firstn i nm else nm
  | None => nm
  end.

Definition suffix (p : path) : text := suffix_of_name (name p).
Definition stem (p : path) : text := stem_of_name (name p).

(** [p.relative_to(base)]: purely lexical, the roots compared like the
    components; [None] is the [ValueError]. *)
Fixpoint relative_to (p base : path) {struct base} : option path :=
  match base, p with
  | [], _ => if anchored p then None else Some p
  | b :: base', x :: p' =>
      if Text.eqb x b then relative_to p' base' else None
  | _ :: _, [] => None
  end.

Fixpoint eqb (p q : path) : bool :=
  match p, q with
  | [], [] => true
  | x :: p', y :: q' => Text.eqb x y && eqb p' q'
  | _, _ => false
  end.

(** The order of paths with the same root: component by component. *)
Fixpoint compare (p q : path) : comparison :=
  match p, q with
  | [], [] => Eq
  | [], _ :: _ => Lt
  | _ :: _, [] => Gt
  | x :: p', y :: q' =>
      match Text.compare x y with
      | Eq => compare p' q'
      | c => c
      end
  end.

Definition leb (p q : path) : bool :=
  match compare p q with Gt => false | _ => true end.

Definition ltb (p q : path) : bool :=
  match compare p q with Lt => true | _ => false end.

Fixpoint insert (p : path) (l : list path) : list path :=
  match l with
  | [] => [p]
  | q :: l' => if leb p q then p :: l else q :: insert p l'
  end.

(** [sorted(paths)] *)
Definition sorted (l : list path) : list path := fold_right insert [] l.

(** [Path.resolve] without links: [..] drops the component before it
    and is absorbed at the root, and the root [//] becomes [/]. *)
Definition resolve_step (acc : path) (c : text) : path :=
  if Text.eqb c [] then acc
  else if Text.eqb c dotdot then removelast acc
  else acc ++ [c].

Definition resolve (p : path) : path := fold_left resolve_step p [].

End PurePath.

Import PurePath.

(* ================================================================= *)
(** ** The file system *)

Module Fs.

(** A regular file holds its text, or [None] when reading it as UTF-8
    text fails; a directory lists its entries in the order in which the
    operating system enumerates them. *)
#[local] Unset Elimination Schemes.
Inductive node : Type :=
| File (data : option text)
| Dir (entries : list (text * node)).
#[local] Set Elimination Schemes.

Inductive oserror : Type := ENOENT | ENOTDIR | EEXIST | EISDIR | EINVAL.

Fixpoint find_entry (nm : text) (es : list (text * node)) : option node :=
  match es with
  | [] => None
  | (k, n) :: es' => if Text.eqb k nm then Some n else find_entry nm es'
  end.

(** The node at a path without [..]. *)
Fixpoint lookup (n : node) (p : path) : option node :=
  match p with
  | [] => Some n
  | c :: p' =>
      match n with
      | Dir es =>
          match find_entry c es with
          | Some ch => lookup ch p'
          | None => None
          end
      | File _ => None
      end
  end.

(** Path resolution by the operating system, from the directory [cur]:
    every component is looked up in an existing directory, [..] steps to
    the parent, and the root [//] is the root [/].  The result is the
    [..]-free location reached. *)
Fixpoint walk (fs : node) (cur : path) (p : path) : oserror + path :=
  match p with
  | [] => inr cur
  | c :: p' =>
      match lookup fs cur with
      | Some (Dir _) =>
          if Text.eqb c [] then walk fs cur p'
          else if Text.eqb c dotdot then walk fs (removelast cur) p'
          else match lookup fs (cur ++ [c]) with
               | Some _ => walk fs (cur ++ [c]) p'
               | None => inl ENOENT
               end
      | Some (File _) => inl ENOTDIR
      | None => inl ENOENT
      end
  end.

Definition stat (fs : node) (p : path) : option node :=
  match walk fs [] p with
  | inr c => lookup fs c
  | inl _ => None
  end.

Definition exists_ (fs : node) (p : path) : bool :=
  match stat fs p with Some _ => true | None => false end.

Definition is_file (fs : node) (p : path) : bool :=
  match stat fs p with Some (File _) => true | _ => false end.

Definition is_dir (fs : node) (p : path) : bool :=
  match stat fs p with Some (Dir _) => true | _ => false end.

(** [p.read_text(encoding="utf-8")]; [None] stands for the [OSError] or
    the [UnicodeDecodeError] that it raises. *)
Definition read_text (fs : node) (p : path) : option text :=
  match stat fs p with
  | Some (File (Some c)) => Some c
  | _ => None
  end.

Fixpoint set_entry (nm : text) (v : node) (es : list (text * node))
  : list (text * node) :=
  match es with
  | [] => [(nm, v)]
  | (k, x) :: es' =>
      if Text.eqb k nm then (k, v) :: es' else (k, x) :: set_entry nm v es'
  end.

Fixpoint remove_entry (nm : text) (es : list (text * node))
  : list (text * node) :=
  match es with
  | [] => []
  | (k, x) :: es' =>
      if Text.eqb k nm then es' else (k, x) :: remove_entry nm es'
  end.

(** Store [v] at the [..]-free path [p], whose parent is a directory. *)
Fixpoint put (p : path) (v : node) (n : node) : node :=
  match p with
  | [] => v
  | c :: p' =>
      match n with
      | Dir es =>
          match p' with
          | [] => Dir (set_entry c v es)
          | _ :: _ =>
              match find_entry c es with
              | Some ch => Dir (set_entry c (put p' v ch) es)
              | None => n
              end
          end
      | File _ => n
      end
  end.

(** Drop the entry at the [..]-free path [p]. *)
Fixpoint remove (p : path) (n : node) : node :=
  match p with
  | [] => n
  | c :: p' =>
      match n with
      | Dir es =>
          match p' with
          | [] => Dir (remove_entry c es)
          | _ :: _ =>
              match find_entry c es with
              | Some ch => Dir (set_entry c (remove p' ch) es)
              | None => n
              end
          end
      | File _ => n
      end
  end.

(** Where a path whose last component may be missing would be created:
    the parent is resolved by [walk] and must be a directory. *)
Definition locate_new (fs : node) (p : path) : oserror + path :=
  match p with
  | [] => inl EEXIST
  | _ :: _ =>
      match walk fs [] (removelast p) with
      | inl e => inl e
      | inr d =>
          match lookup fs d with
          | Some (Dir _) =>
              if Text.eqb (last p []) dotdot then inl EEXIST
              else inr (d ++ [last p []])
          | Some (File _) => inl ENOTDIR
          | None => inl ENOENT
          end
      end
  end.

(** [p.write_text(c, encoding="utf-8")]; [None] is the [OSError]. *)
Definition write_text (fs : node) (p : path) (c : text) : option node :=
  match locate_new fs p with
  | inr q =>
      match lookup fs q with
      | Some (Dir _) => None
      | _ => Some (put q (File (Some c)) fs)
      end
  | inl _ => None
  end.

(** [os.mkdir(p)] *)
Definition os_mkdir (fs : node) (p : path) : oserror + node :=
  match locate_new fs p with
  | inr q =>
      match lookup fs q with
      | Some _ => inl EEXIST
      | None => inr (put q (Dir []) fs)
      end
  | inl e => inl e
  end.

(** [p.mkdir(parents=False, exist_ok=True)]: the file system left
    behind and the error raised, if any. *)
Definition mkdir_exist_ok (fs : node) (p : path) : node * option oserror :=
  match os_mkdir fs p with
  | inr fs' => (fs', None)
  | inl ENOENT => (fs, Some ENOENT)
  | inl e => if is_dir fs p then (fs, None) else (fs, Some e)
  end.

(** [p.mkdir(parents=True, exist_ok=True)], by recursion on the reversed
    path: a missing parent is created first, then the directory. *)
Fixpoint mkdir_parents_rev (fs : node) (rp : path) : node * option oserror :=
  match os_mkdir fs (rev rp) with
  | inr fs' => (fs', None)
  | inl ENOENT =>
      match rp with
      | [] => (fs, Some ENOENT)
      | _ :: rparent =>
          match mkdir_parents_rev fs rparent with
          | (fs1, None) => mkdir_exist_ok fs1 (rev rp)
          | (fs1, Some e) => (fs1, Some e)
          end
      end
  | inl e => if is_dir fs (rev rp) then (fs, None) else (fs, Some e)
  end.

Definition mkdir_parents (fs : node) (p : path) : node * option oserror :=
  mkdir_parents_rev fs (rev p).

(** [shutil.move(src, dst)] towards a destination that does not exist:
    the node at [src] is renamed to [dst]. *)
Definition move (fs : node) (src dst : path) : option node :=
  match walk fs [] src, locate_new fs dst with
  | inr s, inr d =>
      match s, lookup fs s, lookup fs d with
      | _ :: _, Some n, None =>
          if PurePath.eqb (firstn (List.length s) d) s then None
          else Some (put d n (remove s fs))
      | _, _, _ => None
      end
  | _, _ => None
  end.

(** [p.unlink()]: the entry of a regular file is dropped; [None] is the
    [OSError] for a missing path or a directory. *)
Definition unlink (fs : node) (p : path) : option node :=
  match locate_new fs p with
  | inr q =>
      match lookup fs q with
      | Some (File _) => Some (remove q fs)
      | _ => None
      end
  | inl _ => None
  end.

(** *** Shell patterns

    [pathlib] matches a file name against one component of a pattern
    with the regular expression that [fnmatch.translate] builds, here in
    its CPython 3.11 form: [*] stands for any run of characters, [?] for
    one character, a bracket expression for one character of a set, and
    every other character for itself.  Hidden names are matched like the
    others, and case counts. *)
Inductive gitem : Type :=
| GStar
| GAny
| GLit (c : ascii)
| GSet (negated : bool) (chunks : list text).

(** Where the bracket expression closes, counted from the character
    after the opening bracket: an exclamation mark and then a closing
    bracket at the front do not close it. *)
Definition close_index (s : text) : option nat :=
  let a := match s with
           | c :: _ => if Ascii.eqb c "!"%char then 1 else 0
           | [] => 0
           end in
  let b := match skipn a s with
           | c :: _ => if Ascii.eqb c "]"%char then 1 else 0
           | [] => 0
           end in
  match index_of "]"%char (skipn (a + b) s) with
  | Some k => Some (a + b + k)
  | None => None
  end.

(** The chunks of a bracket expression, cut at the hyphens that stand
    for ranges: a hyphen counts once [protect] characters have gone by
    since the start or since the hyphen before, and a hyphen at the very
    end stays in its chunk. *)
Fixpoint range_chunks (protect : nat) (cur : text) (stuff : text)
  : list text :=
  match stuff with
  | [] => [rev cur]
  | c :: stuff' =>
      match protect with
      | S k => range_chunks k (c :: cur) stuff'
      | 0 =>
          if Ascii.eqb c "-"%char then
            match stuff' with
            | [] => [rev (c :: cur)]
            | _ :: _ => rev cur :: range_chunks 2 [] stuff'
            end
          else range_chunks 0 (c :: cur) stuff'
      end
  end.

(** Ranges that run backwards are taken out with both their ends, from
    the last to the first. *)
Fixpoint drop_empty_ranges (chunks : list text) : list text :=
  match chunks with
  | [] => []
  | c :: rest =>
      match drop_empty_ranges rest with
      | [] => [c]
      | d :: rest' =>
          match rev c, d with
          | x :: rc, y :: d' =>
              if nat_of_ascii y <? nat_of_ascii x
              then (rev rc ++ d') :: rest'
              else c :: d :: rest'
          | _, _ => c :: d :: rest'
          end
      end
  end.

(** The text between the brackets, as a set: a leading exclamation mark
    left after the step before negates it. *)
Definition bracket (stuff : text) : gitem :=
  let protect := match stuff with
                 | c :: _ => if Ascii.eqb c "!"%char then 2 else 1
                 | [] => 1
                 end in
  let chunks := drop_empty_ranges (range_chunks protect [] stuff) in
  match chunks with
  | (c :: first) :: rest =>
      if Ascii.eqb c "!"%char then GSet true (first :: rest)
      else GSet false chunks
  | _ => GSet false chunks
  end.

(** [fnmatch.translate], item by item; [skip] characters were read by a
    bracket expression before. *)
Fixpoint translate_from (skip : nat) (pat : text) : list gitem :=
  match pat with
  | [] => []
  | c :: pat' =>
      match skip with
      | S k => translate_from k pat'
      | 0 =>
          if Ascii.eqb c "*"%char then GStar :: translate_from 0 pat'
          else if Ascii.eqb c "?"%char then GAny :: translate_from 0 pat'
          else if Ascii.eqb c "["%char then
            match close_index pat' with
            | Some j => bracket (firstn j pat') :: translate_from (S j) pat'
            | None => GLit c :: translate_from 0 pat'
            end
          else GLit c :: translate_from 0 pat'
      end
  end.

Definition translate (pat : text) : list gitem := translate_from 0 pat.

(** A character is in the set when a chunk holds it or when it lies
    between the last character of a chunk and the first of the next. *)
Fixpoint in_ranges (chunks : list text) (d : ascii) : bool :=
  match chunks with
  | a :: ((b :: _) as rest) =>
      match rev a, b with
      | x :: _, y :: _ =>
          (nat_of_ascii x <=? nat_of_ascii d) &&
          (nat_of_ascii d <=? nat_of_ascii y)
      | _, _ => false
      end || in_ranges rest d
  | _ => false
  end.

Definition in_set (chunks : list text) (d : ascii) : bool :=
  existsb (existsb (Ascii.eqb d)) chunks || in_ranges chunks d.

Definition item_ok (it : gitem) (d : ascii) : bool :=
  match it with
  | GStar | GAny => true
  | GLit c => Ascii.eqb c d
  | GSet negated chunks => xorb negated (in_set chunks d)
  end.

(** The whole name against the items. *)
Fixpoint items_match (its : list gitem) (s : text) : bool :=
  match its with
  | [] => match s with [] => true | _ :: _ => false end
  | GStar :: its' =>
      (fix star (s : text) : bool :=
         items_match its' s ||
         match s with
         | [] => false
         | _ :: s' => star s'
         end) s
  | it :: its' =>
      match s with
      | [] => false
      | d :: s' => item_ok it d && items_match its' s'
      end
  end.

Definition glob_match (pat s : text) : bool := items_match (translate pat) s.

(** [base.iterdir()] on a directory node. *)
Definition children (base : path) (es : list (text * node)) : list path :=
  map (fun e => base ++ [fst e]) es.

(** The selection below a node: the matching entries of a directory,
    then the same for each of its subdirectories, in enumeration
    order. *)
Fixpoint rglob_node (pat : text) (here : path) (n : node) : list path :=
  match n with
  | File _ => []
  | Dir es =>
      children here (filter (fun e => glob_match pat (fst e)) es) ++
      (fix sub (es : list (text * node)) : list path :=
         match es with
         | [] => []
         | (k, ch) :: es' => rglob_node pat (here ++ [k]) ch ++ sub es'
         end) es
  end.

(** What the selector of [rglob] yields from [base]. *)
Definition select_from (fs : node) (base : path) (pat : text) : list path :=
  match stat fs base with
  | Some n => rglob_node pat base n
  | None => []
  end.

(** [list(base.rglob(pat))] for a pattern that is one file name, as the
    patterns of this program are.  [None] is the [ValueError] with which
    [pathlib] (CPython 3.11) turns down a name that holds two stars in
    a row. *)
Definition rglob (fs : node) (base : path) (pat : text)
  : option (list path) :=
  if contains pat (T "**") then None
  else Some (select_from fs base pat).

(** [base.iterdir()], for a [base] that is a directory. *)
Definition iterdir (fs : node) (base : path) : list path :=
  match stat fs base with
  | Some (Dir es) => children base es
  | _ => []
  end.

Definition nul : ascii := "000"%char.

(** Names a directory entry can have. *)
Definition valid_name (nm : text) : bool :=
  negb (Text.eqb nm []) && negb (Text.eqb nm dot) &&
  negb (Text.eqb nm dotdot) && negb (existsb (Ascii.eqb slash) nm) &&
  negb (existsb (Ascii.eqb nul) nm).

Fixpoint fresh (nm : text) (es : list (text * node)) : bool :=
  match es with
  | [] => true
  | (k, _) :: es' => negb (Text.eqb k nm) && fresh nm es'
  end.

(** A well-formed tree: entry names are valid and distinct within each
    directory. *)
Fixpoint wf (n : node) : bool :=
  match n with
  | File _ => true
  | Dir es =>
      (fix all (es : list (text * node)) : bool :=
         match es with
         | [] => true
         | (k, ch) :: es' => valid_name k && fresh k es' && wf ch && all es'
         end) es
  end.

End Fs.

Import Fs.

(* ================================================================= *)
(** ** Outcomes of the operations *)

Inductive exn : Type :=
| OSError
| ValueError
| UnicodeDecodeError
| IndexError
| ReError.           (* re.error *)

Inductive result (A : Type) : Type :=
| Ok (a : A)
| Raise (e : exn).

Arguments Ok {A} a.
Arguments Raise {A} e.

(** What [p.read_text(encoding="utf-8")] raises when [read_text] has no
    text to give: [UnicodeDecodeError] for a file that does not decode,
    [OSError] for a directory or a missing file. *)
Definition read_failure (fs : node) (p : path) : exn :=
  match stat fs p with
  | Some (File None) => UnicodeDecodeError
  | _ => OSError
  end.

(* ================================================================= *)
(** ** vault.py *)

Module Vault.

Record t : Type := { root : path }.

(** [EXCLUDED_DIRS] *)
Definition EXCLUDED_DIRS : list text :=
  [T ".obsidian"; T ".trash"; T ".git"; T ".venv"; T "node_modules"].

Definition excluded (part : text) : bool :=
  existsb (Text.eqb part) EXCLUDED_DIRS.

(** [Vault(vault_path)] for an absolute [vault_path]; [None] is the
    [ValueError] of a path that is no directory. *)
Definition init (fs : node) (vault_path : text) : option t :=
  let r := PurePath.resolve (parts vault_path) in
  if is_dir fs r then Some {| root := r |} else None.

(** What [__init__] leaves: a root without [..] that is a directory. *)
Definition ok (fs : node) (v : t) : bool :=
  forallb valid_name (root v) && wf fs && is_dir fs (root v).

(** [_is_within_vault]: the resolved path, as a string, starts with the
    root, as a string.  Without links [resolve] raises for one reason
    only, the [ValueError] of a NUL character in the path, which the
    handler turns into [False]. *)
Definition _is_within_vault (v : t) (p : path) : bool :=
  if existsb (existsb (Ascii.eqb nul)) p then false
  else
    let resolved := PurePath.resolve p in
    startswith (str resolved) (str (root v)).

(** The first stage of [resolve_path], on the stripped reference:
    the exact path, then the path with [.md] appended. *)
Definition exact_match (fs : node) (v : t) (name_or_path : text)
  : option path :=
  (* 1. Exact match *)
  let candidate := joinpath (root v) name_or_path in
  if is_file fs candidate && _is_within_vault v candidate then Some candidate
  else
    (* Try with .md appended *)
    let candidate := joinpath (root v) (name_or_path ++ md) in
    if negb (endswith name_or_path md) &&
       (is_file fs candidate && _is_within_vault v candidate)
    then Some candidate
    else None.

(** The base name that the later stages look for. *)
Definition basename_of (name_or_path : text) : text :=
  let basename := name (parts name_or_path) in
  if endswith basename md then basename else basename ++ md.

(** The list [matches] of the second stage, after its filter; [None]
    when [rglob] turns the base name down. *)
Definition filename_matches (fs : node) (v : t) (name_or_path : text)
  : option (list path) :=
  match rglob fs (root v) (basename_of name_or_path) with
  | Some matches =>
      Some (filter (fun m => _is_within_vault v m && is_file fs m) matches)
  | None => None
  end.

(** The loop of the third stage. *)
Definition case_insensitive_match (fs : node) (v : t) (name_or_path : text)
  : result (option path) :=
  let basename_lower := lower (basename_of name_or_path) in
  match rglob fs (root v) (T "*.md") with
  | Some found =>
      Ok (find (fun p => Text.eqb (lower (name p)) basename_lower &&
                         _is_within_vault v p)
               found)
  | None => Raise ValueError
  end.

(** [resolve_path]; [Ok None] is Python's [None]. *)
Definition resolve_path (fs : node) (v : t) (name_or_path : text)
  : result (option path) :=
  let name_or_path := strip_char slash name_or_path in
  match exact_match fs v name_or_path with
  | Some candidate => Ok (Some candidate)
  | None =>
      (* 2. Filename match anywhere in vault *)
      match filename_matches fs v name_or_path with
      | None => Raise ValueError
      | Some matches =>
          match matches with
          | [m] => Ok (Some m)
          | _ :: _ :: _ => Ok (hd_error (sorted matches))
          | [] =>
              (* 3. Case-insensitive filename match *)
              case_insensitive_match fs v name_or_path
          end
      end
  end.

Inductive ensure_error : Type :=
| PathEscape (vault_relative : text)   (* ValueError("Path escapes vault") *)
| MkdirFailed (e : oserror).           (* OSError out of [mkdir] *)

(** [ensure_path]: the file system with the parent directories made,
    and the path or the exception. *)
Definition ensure_path (fs : node) (v : t) (vault_relative : text)
  : node * (ensure_error + path) :=
  let vault_relative := strip_char slash vault_relative in
  let vault_relative := if endswith vault_relative md then vault_relative
                        else vault_relative ++ md in
  let full := joinpath (root v) vault_relative in
  if negb (_is_within_vault v full)
  then (fs, inl (PathEscape vault_relative))
  else
    match mkdir_parents fs (parent full) with
    | (fs', None) => (fs', inr full)
    | (fs', Some e) => (fs', inl (MkdirFailed e))
    end.

(** [_should_include]; [None] is the [ValueError] of [relative_to]. *)
Definition _should_include (v : t) (p : path) : option bool :=
  match relative_to p (root v) with
  | Some rel => Some (negb (existsb excluded rel))
  | None => None
  end.

(** [_within_depth] *)
Definition _within_depth (p base : path) (max_depth : Z) : option bool :=
  match relative_to p base with
  | Some rel => Some (Z.of_nat (List.length rel) <=? max_depth)%Z
  | None => None
  end.

(** The loop [for p in ps: if cond(p): yield p], where [cond] may
    raise: the items yielded, or [None] when the condition raised. *)
Fixpoint yield_if (cond : path -> option bool) (ps : list path)
  : option (list path) :=
  match ps with
  | [] => Some []
  | p :: ps' =>
      match cond p with
      | None => None
      | Some b =>
          match yield_if cond ps' with
          | None => None
          | Some r => Some (if b then p :: r else r)
          end
      end
  end.

Definition and_then (a : option bool) (b : option bool) : option bool :=
  match a with
  | Some true => b
  | other => other
  end.

Definition base_of (v : t) (folder : text) : path :=
  match folder with
  | [] => root v
  | _ :: _ => joinpath (root v) folder
  end.

(** [iter_notes], consumed to the end. *)
Definition iter_notes (fs : node) (v : t) (folder : text)
           (recursive : bool) (max_depth : Z) : option (list path) :=
  let base := base_of v folder in
  if negb (is_dir fs base) then Some []
  else if recursive then
    match rglob fs base (T "*.md") with
    | Some found =>
        yield_if (fun p => and_then (_should_include v p)
                                    (_within_depth p base max_depth))
                 (sorted found)
    | None => None
    end
  else
    yield_if (fun p => if is_file fs p && Text.eqb (suffix p) md
                       then _should_include v p else Some false)
             (sorted (iterdir fs base)).

(** [iter_entries], consumed to the end. *)
Definition iter_entries (fs : node) (v : t) (folder : text)
           (recursive : bool) (max_depth : Z) : option (list path) :=
  let base := base_of v folder in
  if negb (is_dir fs base) then Some []
  else if recursive then
    match rglob fs base (T "*") with
    | Some found =>
        yield_if (fun p => and_then (_should_include v p)
                                    (_within_depth p base max_depth))
                 (sorted found)
    | None => None
    end
  else
    yield_if (fun p => _should_include v p) (sorted (iterdir fs base)).

(** [note_count] *)
Definition note_count (fs : node) (v : t) : option nat :=
  option_map (@List.length path) (iter_notes fs v [] true 100).

(** [folder_count]: the loop runs over [rglob] as it comes, unsorted and
    without a depth bound. *)
Definition folder_count (fs : node) (v : t) : option nat :=
  match rglob fs (root v) (T "*") with
  | Some found =>
      option_map (@List.length path)
        (yield_if (fun p => if is_dir fs p then _should_include v p
                            else Some false)
                  found)
  | None => None
  end.

End Vault.

Import Vault.

(* ================================================================= *)
(** ** Regular expressions

    The fragment of Python's [re] that [links.py] and [notes.py] use, with
    the semantics of its backtracking matcher: a repetition takes as much
    as it can and gives back on failure, an alternation tries its branches
    from left to right, a search reports the leftmost match. *)

Module Re.

Inductive regex : Type :=
| Eps
| Chr (ok : ascii -> bool)        (* one character of a class *)
| Seq (r1 r2 : regex)
| Alt (r1 r2 : regex)             (* r1|r2 *)
| Opt (r : regex)                 (* r? *)
| Star (r : regex)                (* r* *)
| Group (n : nat) (r : regex).    (* the n-th capturing group *)

(** [r+] *)
Definition Plus (r : regex) : regex := Seq r (Star r).

Fixpoint seq (rs : list regex) : regex :=
  match rs with
  | [] => Eps
  | [r] => r
  | r :: rs' => Seq r (seq rs')
  end.

(** A literal character, a literal string, a negated class [[^...]]. *)
Definition chr (c : ascii) : regex := Chr (Ascii.eqb c).
Definition lit (s : text) : regex := seq (map chr s).
Definition none_of (cs : text) : regex :=
  Chr (fun c => negb (existsb (Ascii.eqb c) cs)).

(** The same under [re.IGNORECASE]. *)
Definition chr_i (c : ascii) : regex :=
  Chr (fun d => Ascii.eqb (lower_char d) (lower_char c)).
Definition lit_i (s : text) : regex := seq (map chr_i s).

(** What the groups captured. *)
Definition captures := list (nat * text).

Fixpoint group (n : nat) (caps : captures) : text :=
  match caps with
  | [] => []
  | (k, w) :: caps' => if Nat.eqb k n then w else group n caps'
  end.

Section Matcher.
Variable R : Type.

(** [run r s caps k]: match [r] at the front of [s], then hand the
    rest of the input to the continuation [k]; when [k] fails the
    matcher backtracks into [r].  An iteration of [Star] that consumes
    nothing is not repeated. *)
Fixpoint run (r : regex) (s : text) (caps : captures)
         (k : text -> captures -> option R) {struct r} : option R :=
  match r with
  | Eps => k s caps
  | Chr ok =>
      match s with
      | c :: s' => if ok c then k s' caps else None
      | [] => None
      end
  | Seq r1 r2 => run r1 s caps (fun s1 c1 => run r2 s1 c1 k)
  | Alt r1 r2 =>
      match run r1 s caps k with
      | Some x => Some x
      | None => run r2 s caps k
      end
  | Opt r1 =>
      match run r1 s caps k with
      | Some x => Some x
      | None => k s caps
      end
  | Star r1 =>
      (fix star (fuel : nat) (s : text) (caps : captures) {struct fuel}
         : option R :=
         match fuel with
         | 0 => k s caps
         | S fuel' =>
             match run r1 s caps
                       (fun s1 c1 =>
                          if List.length s1 <? List.length s
                          then star fuel' s1 c1 else None) with
             | Some x => Some x
             | None => k s caps
             end
         end) (List.length s) s caps
  | Group n r1 =>
      run r1 s caps
          (fun s1 c1 =>
             k s1 ((n, firstn (List.length s - List.length s1) s) :: c1))
  end.
End Matcher.

(** [pattern.match(s)]: the length of the match at the front of [s] and
    its groups. *)
Definition match_at (r : regex) (s : text) : option (nat * captures) :=
  run r s [] (fun rest caps =>
                Some (List.length s - List.length rest, caps)).

(** The scan shared by [findall] and [sub]: matches are sought from left
    to right and do not overlap.  [skip] counts the characters of the
    current match still to pass; after a match of length zero the scan
    moves on by one character. *)
Fixpoint findall_from (r : regex) (skip : nat) (s : text) : list captures :=
  match skip with
  | S k =>
      match s with
      | [] => []
      | _ :: s' => findall_from r k s'
      end
  | 0 =>
      match match_at r s with
      | Some (n, caps) =>
          caps :: match s with
                  | [] => []
                  | _ :: s' => findall_from r (pred n) s'
                  end
      | None =>
          match s with
          | [] => []
          | _ :: s' => findall_from r 0 s'
          end
      end
  end.

(** [pattern.findall(s)] for a pattern with exactly one group. *)
Definition findall (r : regex) (s : text) : list text :=
  map (group 1) (findall_from r 0 s).

(** *** Replacement templates

    A template is parsed into literal characters and references to
    groups, group 0 being the whole match ([sre_parse.parse_template]). *)
Inductive titem : Type :=
| TLit (c : ascii)
| TGroup (n : nat).

Definition backslash : ascii := "\"%char.

Definition is_digit (c : ascii) : bool :=
  let n := nat_of_ascii c in (48 <=? n) && (n <=? 57).

Definition is_octal (c : ascii) : bool :=
  let n := nat_of_ascii c in (48 <=? n) && (n <=? 55).

Definition is_ascii_letter (c : ascii) : bool :=
  let n := nat_of_ascii c in
  ((65 <=? n) && (n <=? 90)) || ((97 <=? n) && (n <=? 122)).

Definition digit_val (c : ascii) : nat := nat_of_ascii c - 48.

(** The characters that may start an identifier and those that may
    follow, among the code points below 256. *)
Definition id_start (c : ascii) : bool :=
  let n := nat_of_ascii c in
  is_ascii_letter c || (n =? 95) || (n =? 170) || (n =? 181) || (n =? 186) ||
  ((192 <=? n) && (n <=? 214)) || ((216 <=? n) && (n <=? 246)) ||
  (248 <=? n).

Definition id_continue (c : ascii) : bool :=
  id_start c || is_digit c || (nat_of_ascii c =? 183).

(** [name.isidentifier()] *)
Definition isidentifier (name : text) : bool :=
  match name with
  | [] => false
  | c :: rest => id_start c && forallb id_continue rest
  end.

(** The white space that [int] strips: TAB to CR, the blank, NEL and the
    no-break space. *)
Definition int_space (c : ascii) : bool :=
  let n := nat_of_ascii c in
  ((9 <=? n) && (n <=? 13)) || (n =? 32) || (n =? 133) || (n =? 160).

Fixpoint lstrip_int (s : text) : text :=
  match s with
  | c :: s' => if int_space c then lstrip_int s' else s
  | [] => []
  end.

(** Decimal digits, with single underscores between them. *)
Fixpoint int_digits (acc : N) (after_digit : bool) (s : text) : option N :=
  match s with
  | [] => if after_digit then Some acc else None
  | c :: s' =>
      if is_digit c
      then int_digits (10 * acc + N.of_nat (digit_val c)) true s'
      else if Ascii.eqb c "_"%char && after_digit
      then int_digits acc false s'
      else None
  end.

(** [int(name)]: whether a minus sign leads, and the magnitude; [None]
    is the [ValueError]. *)
Definition python_int (name : text) : option (bool * N) :=
  let body := rev (lstrip_int (rev (lstrip_int name))) in
  match body with
  | c :: digits =>
      if Ascii.eqb c "-"%char
      then option_map (pair true) (int_digits 0 false digits)
      else if Ascii.eqb c "+"%char
      then option_map (pair false) (int_digits 0 false digits)
      else option_map (pair false) (int_digits 0 false body)
  | [] => None
  end.

(** The group that the name between the angle brackets of [\g<...>]
    stands for, in a pattern of [groups] groups none of which is named. *)
Definition group_index (groups : nat) (name : text) : result nat :=
  match name with
  | [] => Raise ReError
  | _ :: _ =>
      if isidentifier name then Raise IndexError
      else
        match python_int name with
        | Some (negative, v) =>
            if (negative && (0 <? v)%N) || (N.of_nat groups <? v)%N
            then Raise ReError
            else Ok (N.to_nat v)
        | None => Raise ReError
        end
  end.

(** [\1] to [\99] *)
Definition group_ref (groups : nat) (n : nat) : result (list titem) :=
  if groups <? n then Raise ReError else Ok [TGroup n].

(** The escape that starts after a backslash: the items it stands for
    and the number of characters it takes. *)
Definition escape (groups : nat) (s : text)
  : result (list titem) * nat :=
  match s with
  | [] => (Raise ReError, 0)
  | d :: s' =>
      if Ascii.eqb d "g"%char then
        match s' with
        | open :: s'' =>
            if Ascii.eqb open "<"%char then
              match index_of ">"%char s'' with
              | Some j =>
                  (match group_index groups (firstn j s'') with
                   | Ok n => Ok [TGroup n]
                   | Raise e => Raise e
                   end, j + 3)
              | None => (Raise ReError, 0)
              end
            else (Raise ReError, 0)
        | [] => (Raise ReError, 0)
        end
      else if Ascii.eqb d "0"%char then
        match s' with
        | o1 :: s'' =>
            if is_octal o1 then
              match s'' with
              | o2 :: _ =>
                  if is_octal o2
                  then (Ok [TLit (ascii_of_nat
                                    ((8 * digit_val o1 + digit_val o2)
                                     mod 256))], 3)
                  else (Ok [TLit (ascii_of_nat (digit_val o1))], 2)
              | [] => (Ok [TLit (ascii_of_nat (digit_val o1))], 2)
              end
            else (Ok [TLit (ascii_of_nat 0)], 1)
        | [] => (Ok [TLit (ascii_of_nat 0)], 1)
        end
      else if is_digit d then
        match s' with
        | e :: s'' =>
            if is_digit e then
              if is_octal d && is_octal e &&
                 match s'' with
                 | f :: _ => is_octal f
                 | [] => false
                 end
              then
                let v := 64 * digit_val d + 8 * digit_val e +
                         match s'' with
                         | f :: _ => digit_val f
                         | [] => 0
                         end in
                (if 255 <? v then Raise ReError
                 else Ok [TLit (ascii_of_nat v)], 3)
              else (group_ref groups (10 * digit_val d + digit_val e), 2)
            else (group_ref groups (digit_val d), 1)
        | [] => (group_ref groups (digit_val d), 1)
        end
      else if Ascii.eqb d "a"%char then (Ok [TLit (ascii_of_nat 7)], 1)
      else if Ascii.eqb d "b"%char then (Ok [TLit (ascii_of_nat 8)], 1)
      else if Ascii.eqb d "f"%char then (Ok [TLit (ascii_of_nat 12)], 1)
      else if Ascii.eqb d "n"%char then (Ok [TLit (ascii_of_nat 10)], 1)
      else if Ascii.eqb d "r"%char then (Ok [TLit (ascii_of_nat 13)], 1)
      else if Ascii.eqb d "t"%char then (Ok [TLit (ascii_of_nat 9)], 1)
      else if Ascii.eqb d "v"%char then (Ok [TLit (ascii_of_nat 11)], 1)
      else if Ascii.eqb d backslash then (Ok [TLit backslash], 1)
      else if is_ascii_letter d then (Raise ReError, 0)
      else (Ok [TLit backslash; TLit d], 1)
  end.

(** The items read first, then the rest; the first error wins. *)
Definition items_then (items rest : result (list titem))
  : result (list titem) :=
  match items, rest with
  | Raise e, _ => Raise e
  | Ok _, Raise e => Raise e
  | Ok a, Ok b => Ok (a ++ b)
  end.

(** [parse_template], from left to right; [skip] characters belong to
    the escape read before. *)
Fixpoint parse_from (groups : nat) (skip : nat) (s : text)
  : result (list titem) :=
  match s with
  | [] => Ok []
  | c :: s' =>
      match skip with
      | S k => parse_from groups k s'
      | 0 =>
          if Ascii.eqb c backslash then
            let (items, taken) := escape groups s' in
            items_then items (parse_from groups taken s')
          else items_then (Ok [TLit c]) (parse_from groups 0 s')
      end
  end.

Definition parse_template (groups : nat) (template : text)
  : result (list titem) :=
  parse_from groups 0 template.

(** [match.expand], for the match [whole] and its groups. *)
Definition expand (tpl : list titem) (whole : text) (caps : captures)
  : text :=
  flat_map (fun i => match i with
                     | TLit c => [c]
                     | TGroup 0 => whole
                     | TGroup n => group n caps
                     end) tpl.

Fixpoint sub_from (r : regex) (tpl : list titem) (skip : nat) (s : text)
  : text :=
  match skip with
  | S k =>
      match s with
      | [] => []
      | _ :: s' => sub_from r tpl k s'
      end
  | 0 =>
      match match_at r s with
      | Some (n, caps) =>
          expand tpl (firstn n s) caps ++
          match s with
          | [] => []
          | c :: s' =>
              (if Nat.eqb n 0 then [c] else []) ++ sub_from r tpl (pred n) s'
          end
      | None =>
          match s with
          | [] => []
          | c :: s' => c :: sub_from r tpl 0 s'
          end
      end
  end.

(** [pattern.sub(template, s)] *)
Definition sub (r : regex) (tpl : list titem) (s : text) : text :=
  sub_from r tpl 0 s.

End Re.

Import Re.

(* ================================================================= *)
(** ** links.py *)

Module Links.

(** [WIKILINK_PATTERN], piece by piece (blanks added):
    - [!?]                 an optional embed mark,
    - [\[\[]               the opening brackets,
    - [( [^\]|#^]+ )]      group 1, the target,
    - [(?: # [^\]|]* ) ?]  an optional heading or block reference,
    - [(?: \| [^\]]+ ) ?]  an optional alias,
    - [\]\]]               the closing brackets. *)
Definition WIKILINK_PATTERN : regex :=
  seq [ Opt (chr "!");
        lit (T "[[");
        Group 1 (Plus (none_of (T "]|#^")));
        Opt (Seq (chr "#") (Star (none_of (T "]|"))));
        Opt (Seq (chr "|") (Plus (none_of (T "]"))));
        lit (T "]]") ].

Definition parse_wikilinks (content : text) : list text :=
  findall WIKILINK_PATTERN content.

(** The first of [targets] under each lower-cased spelling, in order. *)
Fixpoint dedup_from (seen : list text) (targets : list text) : list text :=
  match targets with
  | [] => []
  | t :: ts =>
      if existsb (Text.eqb (lower t)) seen then dedup_from seen ts
      else t :: dedup_from (lower t :: seen) ts
  end.

Definition dedup (targets : list text) : list text := dedup_from [] targets.

Inductive outgoing : Type :=
| OutNotFound (p : text)
| OutNone (vault_rel : path)
| OutLinks (vault_rel : path) (links : list (text * option path)).

Fixpoint resolve_targets (fs : node) (v : Vault.t) (unique : list text)
  : result (list (text * option path)) :=
  match unique with
  | [] => Ok []
  | target :: rest =>
      match resolve_path fs v target with
      | Raise e => Raise e
      | Ok (Some target_path) =>
          match relative_to target_path (root v), resolve_targets fs v rest with
          | Some target_rel, Ok ls => Ok ((target, Some target_rel) :: ls)
          | None, _ => Raise ValueError
          | _, Raise e => Raise e
          end
      | Ok None =>
          match resolve_targets fs v rest with
          | Ok ls => Ok ((target, None) :: ls)
          | Raise e => Raise e
          end
      end
  end.

(** [get_outgoing_links], before the result is laid out as a string. *)
Definition get_outgoing_links (fs : node) (v : Vault.t) (p : text)
  : result outgoing :=
  match resolve_path fs v p with
  | Raise e => Raise e
  | Ok None => Ok (OutNotFound p)
  | Ok (Some resolved) =>
      match read_text fs resolved with
      | None => Raise (read_failure fs resolved)
      | Some content =>
          let targets := parse_wikilinks content in
          match relative_to resolved (root v) with
          | None => Raise ValueError
          | Some vault_rel =>
              match targets with
              | [] => Ok (OutNone vault_rel)
              | _ :: _ =>
                  match resolve_targets fs v (dedup targets) with
                  | Ok ls => Ok (OutLinks vault_rel ls)
                  | Raise e => Raise e
                  end
              end
          end
      end
  end.

(** One line of the backlink report: the linking note and, when a line
    of it shows the link, that line. *)
Record backlink : Type :=
  { note_rel : path; context : option text }.

Inductive backlinks : Type :=
| BackNotFound (p : text)
| BackNone (target_rel : path)
| BackLinks (target_rel : path) (results : list backlink).

(** The test of the inner loop of [get_backlinks]. *)
Definition links_to (target_name : text) (t : text) : bool :=
  Text.eqb (lower t) (lower target_name) ||
  endswith (lower t) (slash :: lower target_name).

(** The line reported for the link [t]: the first that contains
    [[[t], stripped. *)
Definition context_line (content t : text) : option text :=
  option_map strip
    (find (fun line => contains line (T "[[" ++ t)) (splitlines content)).

(** What one note adds to the results: the inner [for t in targets]
    stops at the first target that passes the test. *)
Definition backlink_of (v : Vault.t) (target_name : text) (note : path)
           (content : text) : result (option backlink) :=
  match find (links_to target_name) (parse_wikilinks content) with
  | Some t =>
      match relative_to note (root v) with
      | Some rel =>
          Ok (Some {| note_rel := rel; context := context_line content t |})
      | None => Raise ValueError
      end
  | None => Ok None
  end.

Fixpoint scan_backlinks (fs : node) (v : Vault.t) (resolved : path)
         (target_name : text) (notes : list path)
  : result (list backlink) :=
  match notes with
  | [] => Ok []
  | note :: rest =>
      if PurePath.eqb note resolved
      then scan_backlinks fs v resolved target_name rest
      else
        match read_text fs note with
        | None => scan_backlinks fs v resolved target_name rest
        | Some content =>
            match backlink_of v target_name note content with
            | Raise e => Raise e
            | Ok found =>
                match scan_backlinks fs v resolved target_name rest with
                | Raise e => Raise e
                | Ok results =>
                    Ok (match found with
                        | Some b => b :: results
                        | None => results
                        end)
                end
            end
        end
  end.

(** [get_backlinks], before the result is laid out as a string. *)
Definition get_backlinks (fs : node) (v : Vault.t) (p : text)
  : result backlinks :=
  match resolve_path fs v p with
  | Raise e => Raise e
  | Ok None => Ok (BackNotFound p)
  | Ok (Some resolved) =>
      let target_name := stem resolved in
      match relative_to resolved (root v) with
      | None => Raise ValueError
      | Some target_rel =>
          match iter_notes fs v [] true 100 with
          | None => Raise ValueError
          | Some notes =>
              match scan_backlinks fs v resolved target_name notes with
              | Raise e => Raise e
              | Ok [] => Ok (BackNone target_rel)
              | Ok results => Ok (BackLinks target_rel results)
              end
          end
      end
  end.

(** [r"(\[\[)" + re.escape(old_name) + r"(\]\]|\||\#)"], compiled with
    [re.IGNORECASE]. *)
Definition link_pattern (old_name : text) : regex :=
  seq [ Group 1 (lit_i (T "[["));
        lit_i old_name;
        Group 2 (Alt (lit_i (T "]]")) (Alt (chr_i "|") (chr_i "#"))) ].

(** [r"\g<1>" + new_name + r"\2"], parsed for a pattern of two
    groups. *)
Definition link_template (new_name : text) : result (list titem) :=
  parse_template 2 (T "\g<1>" ++ new_name ++ T "\2").

(** [pattern.sub(r"\g<1>" + new_name + r"\2", content)] *)
Definition rewrite_links (old_name new_name content : text) : result text :=
  match link_template new_name with
  | Ok tpl => Ok (sub (link_pattern old_name) tpl content)
  | Raise e => Raise e
  end.

(** The loop of [update_wikilinks] over the notes listed. *)
Fixpoint update_loop (old_name new_name : text) (notes : list path)
         (fs : node) (updated : nat) : node * result nat :=
  match notes with
  | [] => (fs, Ok updated)
  | note :: rest =>
      match read_text fs note with
      | None => update_loop old_name new_name rest fs updated
      | Some content =>
          match rewrite_links old_name new_name content with
          | Raise e => (fs, Raise e)
          | Ok new_content =>
              if Text.eqb new_content content
              then update_loop old_name new_name rest fs updated
              else
                match write_text fs note new_content with
                | Some fs' =>
                    update_loop old_name new_name rest fs' (S updated)
                | None => (fs, Raise OSError)
                end
          end
      end
  end.

(** [update_wikilinks]: the file system it leaves and the count it
    returns.  The listing of the whole vault raises in no well-formed
    tree, so that no note is rewritten before it could. *)
Definition update_wikilinks (fs : node) (v : Vault.t)
           (old_name new_name : text) : node * result nat :=
  match iter_notes fs v [] true 100 with
  | None => (fs, Raise ValueError)
  | Some notes => update_loop old_name new_name notes fs 0
  end.

End Links.

Import Links.

(* ================================================================= *)
(** ** notes.py *)

Module Notes.

Inductive moved : Type :=
| SourceNotFound (source : text)
| EscapesVault (vault_relative : text)
| DestinationExists (destination : text)
| Moved (src_rel dst_rel : path) (updated_count : nat).

(** The loop of [move_note] over the notes listed: the moved note is
    passed over, and reading has no exception handler around it. *)
Fixpoint move_loop (old_name new_name : text) (resolved_dst : path)
         (notes : list path) (fs : node) (updated_count : nat)
  : node * result nat :=
  match notes with
  | [] => (fs, Ok updated_count)
  | note :: rest =>
      if PurePath.eqb note resolved_dst
      then move_loop old_name new_name resolved_dst rest fs updated_count
      else
        match read_text fs note with
        | None => (fs, Raise (read_failure fs note))
        | Some content =>
            match rewrite_links old_name new_name content with
            | Raise e => (fs, Raise e)
            | Ok new_content =>
                if Text.eqb new_content content
                then move_loop old_name new_name resolved_dst rest fs
                               updated_count
                else
                  match write_text fs note new_content with
                  | Some fs' =>
                      move_loop old_name new_name resolved_dst rest fs'
                                (S updated_count)
                  | None => (fs, Raise OSError)
                  end
            end
        end
  end.

(** The wikilink pass of [move_note], on the file system in which the
    note is already at its destination. *)
Definition move_rewrite (fs : node) (v : Vault.t) (old_name new_name : text)
           (resolved_dst : path) : node * result nat :=
  if Text.eqb old_name new_name then (fs, Ok 0)
  else
    match iter_notes fs v [] true 100 with
    | None => (fs, Raise ValueError)
    | Some notes => move_loop old_name new_name resolved_dst notes fs 0
    end.

(** [move_note]: the file system it leaves, and what it returns or
    raises. *)
Definition move_note (fs : node) (v : Vault.t) (source destination : text)
  : node * result moved :=
  match resolve_path fs v source with
  | Raise e => (fs, Raise e)
  | Ok None => (fs, Ok (SourceNotFound source))
  | Ok (Some resolved_src) =>
      match ensure_path fs v destination with
      | (fs1, inl (PathEscape rel)) => (fs1, Ok (EscapesVault rel))
      | (fs1, inl (MkdirFailed _)) => (fs1, Raise OSError)
      | (fs1, inr resolved_dst) =>
          if exists_ fs1 resolved_dst
          then (fs1, Ok (DestinationExists destination))
          else
            let old_name := stem resolved_src in
            let new_name := stem resolved_dst in
            match move fs1 resolved_src resolved_dst with
            | None => (fs1, Raise OSError)
            | Some fs2 =>
                match move_rewrite fs2 v old_name new_name resolved_dst with
                | (fs3, Raise e) => (fs3, Raise e)
                | (fs3, Ok updated_count) =>
                    match relative_to resolved_src (root v),
                          relative_to resolved_dst (root v) with
                    | Some src_rel, Some dst_rel =>
                        (fs3, Ok (Moved src_rel dst_rel updated_count))
                    | _, _ => (fs3, Raise ValueError)
                    end
                end
            end
      end
  end.

(** *** Writing a note *)

Inductive written : Type :=
| WriteEscapes (vault_relative : text)   (* "Error: Path escapes vault: ..." *)
| Wrote (vault_rel : path).

(** [write_note]: the handler catches the [ValueError] of
    [ensure_path]; what [mkdir] or [write_text] raise goes through. *)
Definition write_note (fs : node) (v : Vault.t) (p content : text)
  : node * result written :=
  match ensure_path fs v p with
  | (fs1, inl (PathEscape rel)) => (fs1, Ok (WriteEscapes rel))
  | (fs1, inl (MkdirFailed _)) => (fs1, Raise OSError)
  | (fs1, inr full) =>
      match write_text fs1 full content with
      | None => (fs1, Raise OSError)
      | Some fs2 =>
          match relative_to full (root v) with
          | Some vault_rel => (fs2, Ok (Wrote vault_rel))
          | None => (fs2, Raise ValueError)
          end
      end
  end.

(** *** Editing a note *)







(** *** Appending to a note *)

Definition hash : ascii := "#"%char.


(** The number of [#] that a stripped line starts with. *)
Fixpoint level (stripped : text) : nat :=
  match stripped with
  | ch :: rest => if Ascii.eqb ch hash then S (level rest) else 0
  | [] => 0
  end.

(** The test that finds the heading line. *)
Definition is_heading (heading stripped : text) : bool :=
  let heading_pattern := strip heading in
  Text.eqb stripped heading_pattern ||
  Text.eqb stripped (T "## " ++ heading) ||
  Text.eqb stripped (T "# " ++ heading) ||
  Text.eqb stripped (T "### " ++ heading).

(** The walk forward from line [j], where [rest] is [lines[j:]]: the
    index of the first heading of level [h_level] or above, or the
    number of lines. *)
Fixpoint section_end (h_level : nat) (j : nat) (rest : list text) : nat :=
  match rest with
  | [] => j
  | line :: rest' =>
      let sj := strip line in
      if startswith sj [hash] && (level sj <=? h_level) then j
      else section_end h_level (S j) rest'
  end.

(** The loop over the lines from line [i] on: [insert_idx], if the
    heading is found. *)
Fixpoint find_section (heading : text) (i : nat) (lines : list text)
  : option nat :=
  match lines with
  | [] => None
  | line :: rest =>
      let stripped := strip line in
      if is_heading heading stripped
      then Some (section_end (level stripped) (S i) rest)
      else find_section heading (S i) rest
  end.


Inductive appended : Type :=
| AppendNotFound (path : text)
| AppendEscapes (vault_relative : text)
| Appended (vault_rel : path)
| AppendedUnder (heading : text) (vault_rel : path).



(** *** Deleting a note *)

Inductive deleted : Type :=
| NotConfirmed
| DeleteNotFound (path : text)
| Trashed (vault_rel : path)             (* "Moved ... to .trash/" *)
| Deleted (vault_rel : path).

(** The name tried in the trash at the count [counter]. *)
Definition numbered (resolved : path) (counter : nat) : text :=
  stem resolved ++ T "_" ++ str_of_nat counter ++ suffix resolved.

(** The loop [while dest.exists()], run for at most [fuel] tests. *)
Fixpoint trash_dest (fs : node) (trash resolved : path) (dest : path)
         (counter : nat) (fuel : nat) : option path :=
  match fuel with
  | 0 => None
  | S fuel' =>
      if exists_ fs dest
      then trash_dest fs trash resolved
                      (joinpath trash (numbered resolved counter))
                      (S counter) fuel'
      else Some dest
  end.

(** The tests that the loop can need: one more than the trash has
    entries, since the names tried differ from one another. *)
Definition trash_fuel (fs : node) (trash : path) : nat :=
  match stat fs trash with
  | Some (Dir es) => S (List.length es)
  | _ => 0
  end.

(** [delete_note] *)
Definition delete_note (fs : node) (v : Vault.t) (p : text) (confirm : bool)
  : node * result deleted :=
  if negb confirm then (fs, Ok NotConfirmed)
  else
    match resolve_path fs v p with
    | Raise e => (fs, Raise e)
    | Ok None => (fs, Ok (DeleteNotFound p))
    | Ok (Some resolved) =>
        match relative_to resolved (root v) with
        | None => (fs, Raise ValueError)
        | Some vault_rel =>
            let trash := joinpath (root v) (T ".trash") in
            if is_dir fs trash then
              let dest := joinpath trash (name resolved) in
              (* Avoid overwriting in trash *)
              match trash_dest fs trash resolved dest 1
                               (trash_fuel fs trash) with
              | Some dest =>
                  match move fs resolved dest with
                  | Some fs' => (fs', Ok (Trashed vault_rel))
                  | None => (fs, Raise OSError)
                  end
              | None => (fs, Raise OSError)
              end
            else
              match unlink fs resolved with
              | Some fs' => (fs', Ok (Deleted vault_rel))
              | None => (fs, Raise OSError)
              end
        end
    end.

End Notes.

Import Notes.

(* ================================================================= *)
(** ** search.py: full-text search *)

Module Search.

(** The list [matches] of one note: the lines, numbered from [i], that
    contain the lower-cased query, each one stripped. *)
Fixpoint matching_lines (query_lower : text) (i : nat) (lines : list text)
  : list (nat * text) :=
  match lines with
  | [] => []
  | line :: rest =>
      if contains (lower line) query_lower
      then (i, strip line) :: matching_lines query_lower (S i) rest
      else matching_lines query_lower (S i) rest
  end.

(** One entry of [results]: the note and at most three of its
    matches. *)
Definition result_entry : Type := (path * list (nat * text))%type.

(** The loop over the generator [iter_notes(folder, recursive=True,
    max_depth=100)], whose tests run as the loop asks for the next note;
    [candidates] is the sorted selection it draws from. *)
Fixpoint search_loop (fs : node) (v : Vault.t) (query_lower : text)
         (base : path) (max_results : Z) (candidates : list path)
         (results : list result_entry) : result (list result_entry) :=
  match candidates with
  | [] => Ok results
  | note :: rest =>
      match and_then (_should_include v note) (_within_depth note base 100) with
      | None => Raise ValueError
      | Some false =>
          search_loop fs v query_lower base max_results rest results
      | Some true =>
          match read_text fs note with
          | None => search_loop fs v query_lower base max_results rest results
          | Some content =>
              let matches :=
                matching_lines query_lower 1 (splitlines content) in
              let appended :=
                match matches with
                | [] => Ok results
                | _ :: _ =>
                    match relative_to note (root v) with
                    | Some vault_rel =>
                        (* max 3 matches per file *)
                        Ok (results ++ [(vault_rel, firstn 3 matches)])
                    | None => Raise ValueError
                    end
                end in
              match appended with
              | Raise e => Raise e
              | Ok results =>
                  if (Z.of_nat (List.length results) >=? max_results)%Z
                  then Ok results
                  else search_loop fs v query_lower base max_results rest
                                   results
              end
          end
      end
  end.

Inductive found : Type :=
| EmptyQuery                             (* "Error: Query cannot be empty." *)
| NoResults (query : text)
| Results (query : text) (results : list result_entry).

(** [search_notes], before the result is laid out as a string. *)
Definition search_notes (fs : node) (v : Vault.t) (query folder : text)
           (max_results : Z) : result found :=
  match query with
  | [] => Ok EmptyQuery
  | _ :: _ =>
      let query_lower := lower query in
      let base := base_of v folder in
      let outcome :=
        if negb (is_dir fs base) then Ok []
        else
          match rglob fs base (T "*.md") with
          | Some selection =>
              search_loop fs v query_lower base max_results
                          (sorted selection) []
          | None => Raise ValueError
          end in
      match outcome with
      | Raise e => Raise e
      | Ok [] => Ok (NoResults query)
      | Ok results => Ok (Results query results)
      end
  end.

End Search.

Import Search.

(* ================================================================= *)
(** ** Sample vaults *)

Module Samples.

Definition file (s : string) : node := File (Some (T s)).

(** The texts of the notes of the test suite ([conftest.py]). *)
Definition spec_md : text := T "---
title: Project Spec
tags:
  - project
  - active
---
# Spec

This is a project spec.

See also [[ideas]].
".

Definition ideas_md : text := T "# Ideas

Some ideas for the project.

- [[spec]] is the main doc
- Check [[Archive/old-stuff]] too
".

Definition old_stuff_md : text := T "---
tags:
  - archived
---
# Old Stuff

This is archived. #legacy
".

Definition readme_md : text := T "# My Vault

Welcome to my vault.
".

Definition daily_note_md : text := T "---
date: '{{date}}'
---
# {{title}}

## Notes

## Tasks
".

(** The vault of the test suite, below [/vault] and beside a directory
    [/etc].  The two configuration files, which none of the operations
    here reads, are left empty. *)
Definition tmp_vault : node :=
  Dir [ (T "vault",
         Dir [ (T ".obsidian",
                Dir [ (T "daily-notes.json", file "{}");
                      (T "templates.json", file "{}") ]);
               (T "Projects",
                Dir [ (T "spec.md", File (Some spec_md));
                      (T "ideas.md", File (Some ideas_md)) ]);
               (T "Archive",
                Dir [ (T "old-stuff.md", File (Some old_stuff_md)) ]);
               (T "Daily Notes", Dir []);
               (T "Templates",
                Dir [ (T "Daily Note.md", File (Some daily_note_md)) ]);
               (T "README.md", File (Some readme_md));
               (T ".trash", Dir []) ]);
        (T "etc", Dir [ (T "passwd", file "root:x:0:0") ]) ].

Definition vault : Vault.t := {| root := [T "vault"] |}.

(** A vault at [/srv/vault] beside a directory [/srv/vault-backup]. *)
Definition fs_sibling : node :=
  Dir [ (T "srv",
         Dir [ (T "vault", Dir [ (T "README.md", file "# My Vault") ]);
               (T "vault-backup", Dir [ (T "secret.md", file "secret") ]) ]) ].

Definition vault_srv : Vault.t := {| root := [T "srv"; T "vault"] |}.



(** A file without extension beside the note of the same name. *)
Definition fs_plain : node :=
  Dir [ (T "vault",
         Dir [ (T "notes", file "plain file");
               (T "notes.md", file "the note") ]) ].


(** A vault with a note that does not decode as UTF-8. *)
Definition fs_undecodable : node :=
  Dir [ (T "vault",
         Dir [ (T "a.md", file "See [[ideas]].");
               (T "broken.md", File None);
               (T "ideas.md", file "# Ideas");
               (T "z.md", file "Also [[ideas|the ideas]].") ]) ].



(** A note that links to the same note three times, in two spellings,
    and to one that does not exist. *)
Definition fs_repeat : node :=
  Dir [ (T "vault",
         Dir [ (T "hub.md",
                file "[[Ideas]], [[ideas|again]], [[missing]], [[IDEAS#top]]");
               (T "ideas.md", file "# Ideas") ]) ].

End Samples.

(* ================================================================= *)
(** ** Notions used in the statements *)

(** The order of [sorted], non-strict and strict. *)
Definition le_path (p q : path) : Prop := leb p q = true.
Definition lt_path (p q : path) : Prop := ltb p q = true.

(** A path below the root [/] without [..] components. *)
Definition plain (p : path) : Prop :=
  Forall (fun c => c <> dotdot /\ c <> []) p.

(** [wf] on the entries of a directory. *)
Fixpoint wf_entries (es : list (text * node)) : bool :=
  match es with
  | [] => true
  | (k, ch) :: es' => valid_name k && fresh k es' && wf ch && wf_entries es'
  end.

(** The recursion of [rglob_node] over the entries of a directory. *)
Fixpoint rglob_entries (pat : text) (here : path) (es : list (text * node))
  : list path :=
  match es with
  | [] => []
  | (k, ch) :: es' => rglob_node pat (here ++ [k]) ch ++ rglob_entries pat here es'
  end.

(** An entry below [base]: the path [p] is [base] followed by the names
    [rel] of nested directory entries, and it exists. *)
Definition entry_below (fs : node) (base rel p : path) : Prop :=
  rel <> [] /\ p = base ++ rel /\ forallb valid_name rel = true /\
  exists_ fs p = true.

(** No component of [p], taken relative to the root, is an excluded
    directory name. *)
Definition included (v : Vault.t) (p : path) : Prop :=
  exists r, relative_to p (root v) = Some r /\
            forall part, In part r -> excluded part = false.


(** The entries of a shallow listing: the children of the base. *)
Definition shallow_entry (fs : node) (v : Vault.t) (base : path)
           (p : path) : Prop :=
  exists rel, entry_below fs base rel p /\ included v p /\
              List.length rel = 1.


(** What the report of outgoing links shows beside a target: the path
    it resolves to, relative to the root, or nothing for a broken link. *)
Definition resolve_path_rel (fs : node) (v : Vault.t) (target : text)
  : option path :=
  match resolve_path fs v target with
  | Ok (Some q) => relative_to q (root v)
  | _ => None
  end.

(* ================================================================= *)
(** ** Wikilink tokens, as the specification describes them *)


Fixpoint drop_while (f : ascii -> bool) (s : text) : text :=
  match s with
  | c :: s' => if f c then drop_while f s' else s
  | [] => []
  end.

Definition alias_char (c : ascii) : bool :=
  negb (existsb (Ascii.eqb c) (T "]")).





(** *** A direct reader of one token, used to relate the pattern to the
    description above *)


(** After the closing brackets. *)
Definition read_close (s : text) : option text :=
  match s with
  | c1 :: c2 :: rest =>
      if Ascii.eqb "]" c1 && Ascii.eqb "]" c2 then Some rest else None
  | _ => None
  end.

(** After an optional alias and the closing brackets. *)
Definition read_alias (s : text) : option text :=
  match s with
  | c :: s1 =>
      if Ascii.eqb "|" c then
        match s1 with
        | a :: s2 =>
            if alias_char a then read_close (drop_while alias_char s2)
            else None
        | [] => None
        end
      else read_close s
  | [] => None
  end.





(* ================================================================= *)
(** ** Links to a renamed note *)

(** [s] without a prefix that spells [p] when case is ignored. *)
Fixpoint strip_prefix_i (p s : text) : option text :=
  match p with
  | [] => Some s
  | y :: p' =>
      match s with
      | x :: s' =>
          if Ascii.eqb (lower_char x) (lower_char y) then strip_prefix_i p' s'
          else None
      | [] => None
      end
  end.

(** The delimiter at the front of [s]: closing brackets, a bar or a
    hash; with it, what follows. *)
Definition read_delim (s : text) : option (text * text) :=
  match s with
  | c :: s' =>
      if Ascii.eqb (lower_char c) (lower_char "]") then
        match s' with
        | c2 :: s'' =>
            if Ascii.eqb (lower_char c2) (lower_char "]")
            then Some ([c; c2], s'') else None
        | [] => None
        end
      else if Ascii.eqb (lower_char c) (lower_char "|") then Some ([c], s')
      else if Ascii.eqb (lower_char c) (lower_char "#") then Some ([c], s')
      else None
  | [] => None
  end.

(** A link to [old_name] at the front of [s]: its delimiter and what
    follows it. *)
Definition read_link (old_name s : text) : option (text * text) :=
  match strip_prefix_i (T "[[") s with
  | Some s1 =>
      match strip_prefix_i old_name s1 with
      | Some s2 => read_delim s2
      | None => None
      end
  | None => None
  end.


(** [o] spells [old_name] when case is ignored. *)
Definition spells (old_name o : text) : Prop := lower o = lower old_name.








(** The text held at a node, when it is a readable file. *)
Definition file_text (o : option node) : option text :=
  match o with
  | Some (File (Some c)) => Some c
  | _ => None
  end.

(* ================================================================= *)
(** ** Notions used in the further properties *)

Definition is_Dir (n : node) : bool :=
  match n with
  | Dir _ => true
  | File _ => false
  end.

(** Every path of [fs] is a path of [fs'], to a node of the same kind. *)
Definition extends (fs fs' : node) : Prop :=
  forall x n, lookup fs x = Some n ->
              exists n', lookup fs' x = Some n' /\ is_Dir n' = is_Dir n.




(** The matches that [search_notes] shows for a note: the first three
    lines that contain the query, case ignored. *)
Definition note_matches (query content : text) : list (nat * text) :=
  firstn 3 (matching_lines (lower query) 1 (splitlines content)).

(** The entries of [results] in what [search_notes] returns. *)
Definition results_of (out : found) : list result_entry :=
  match out with
  | Results _ results => results
  | _ => []
  end.

(** The test of the generator [iter_notes(folder, recursive=True,
    max_depth=100)] on a selected path. *)
Definition listed (v : Vault.t) (base note : path) : Prop :=
  and_then (_should_include v note) (_within_depth note base 100) = Some true.

(** A file system that differs from another by directories that were
    made: the paths stay, and the files are the same, with their texts. *)
Definition dirs_added (fs fs' : node) : Prop :=
  extends fs fs' /\
  forall x d, lookup fs' x = Some (File d) <-> lookup fs x = Some (File d).



(* ================================================================= *)
(** * Properties *)

Unset Implicit Arguments.
Arguments Ascii.eqb : simpl never.

(** ** Text and paths *)

Lemma text_eqb_eq (a b : text) : Text.eqb a b = true <-> a = b.
Proof.
  revert b; induction a as [|x a IH]; intros [|y b]; simpl; split;
    try congruence; try reflexivity.
  - rewrite andb_true_iff, Ascii.eqb_eq, IH. intros [-> ->]; reflexivity.
  - intros [= -> ->]. rewrite Ascii.eqb_refl. now apply IH.
Qed.

Lemma text_eqb_refl (a : text) : Text.eqb a a = true.
Proof. now apply text_eqb_eq. Qed.

Lemma text_eqb_neq (a b : text) : Text.eqb a b = false <-> a <> b.
Proof.
  rewrite <- text_eqb_eq. destruct (Text.eqb a b); split; congruence.
Qed.

Lemma path_eqb_eq (p q : path) : PurePath.eqb p q = true <-> p = q.
Proof.
  revert q; induction p as [|x p IH]; intros [|y q]; simpl; split;
    try congruence; try reflexivity.
  - rewrite andb_true_iff, text_eqb_eq, IH. intros [-> ->]; reflexivity.
  - intros [= -> ->]. rewrite text_eqb_refl. now apply IH.
Qed.

Lemma path_eqb_neq (p q : path) : PurePath.eqb p q = false <-> p <> q.
Proof.
  rewrite <- path_eqb_eq. destruct (PurePath.eqb p q); split; congruence.
Qed.

Lemma startswith_iff (s p : text) :
  startswith s p = true <-> exists r, s = p ++ r.
Proof.
  revert s; induction p as [|y p IH]; intros s; simpl.
  - split; [intros _; now exists s | reflexivity].
  - destruct s as [|x s].
    + split; [discriminate | intros [r H]; discriminate].
    + rewrite andb_true_iff, Ascii.eqb_eq, IH. split.
      * intros [-> [r ->]]. now exists r.
      * intros [r [= -> ->]]. split; [reflexivity | now exists r].
Qed.

Lemma startswith_app (p r : text) : startswith (p ++ r) p = true.
Proof. apply startswith_iff. now exists r. Qed.

Lemma endswith_iff (s p : text) :
  endswith s p = true <-> exists r, s = r ++ p.
Proof.
  unfold endswith. rewrite startswith_iff. split.
  - intros [r H]. exists (rev r).
    rewrite <- (rev_involutive s), H, rev_app_distr, rev_involutive.
    reflexivity.
  - intros [r ->]. exists (rev r). now rewrite rev_app_distr.
Qed.

Lemma lower_app (a b : text) : lower (a ++ b) = lower a ++ lower b.
Proof. apply map_app. Qed.

Lemma lower_length (a : text) : List.length (lower a) = List.length a.
Proof. apply length_map. Qed.

Lemma lower_char_idem (c : ascii) : lower_char (lower_char c) = lower_char c.
Proof.
  destruct c as [[] [] [] [] [] [] [] []]; vm_compute; reflexivity.
Qed.

Lemma lower_idem (a : text) : lower (lower a) = lower a.
Proof.
  unfold lower. rewrite map_map. apply map_ext. apply lower_char_idem.
Qed.

(** *** The order of texts and of paths *)

Lemma nat_of_ascii_inj (x y : ascii) : nat_of_ascii x = nat_of_ascii y -> x = y.
Proof.
  intros H. rewrite <- (ascii_nat_embedding x), <- (ascii_nat_embedding y).
  now rewrite H.
Qed.

Lemma text_compare_eq (a b : text) : Text.compare a b = Eq <-> a = b.
Proof.
  revert b; induction a as [|x a IH]; intros [|y b]; simpl; split;
    try congruence; try reflexivity.
  - destruct (Nat.compare_spec (nat_of_ascii x) (nat_of_ascii y)) as [E|E|E];
      try discriminate.
    intros H. apply IH in H. apply nat_of_ascii_inj in E. congruence.
  - intros [= -> ->]. rewrite Nat.compare_refl. now apply IH.
Qed.

Lemma text_compare_antisym (a b : text) :
  Text.compare b a = CompOpp (Text.compare a b).
Proof.
  revert b; induction a as [|x a IH]; intros [|y b]; simpl; try reflexivity.
  rewrite (Nat.compare_antisym (nat_of_ascii x) (nat_of_ascii y)).
  destruct (Nat.compare (nat_of_ascii x) (nat_of_ascii y)); simpl;
    auto.
Qed.

Lemma text_compare_trans (c : comparison) (a b d : text) :
  Text.compare a b = c -> Text.compare b d = c -> Text.compare a d = c.
Proof.
  revert b d; induction a as [|x a IH]; intros [|y b] [|z d]; simpl;
    try congruence.
  destruct (Nat.compare_spec (nat_of_ascii x) (nat_of_ascii y)) as [E1|E1|E1];
    destruct (Nat.compare_spec (nat_of_ascii y) (nat_of_ascii z)) as [E2|E2|E2];
    destruct (Nat.compare_spec (nat_of_ascii x) (nat_of_ascii z)) as [E3|E3|E3];
    try lia; try congruence; eauto.
Qed.

Lemma path_compare_eq (p q : path) : PurePath.compare p q = Eq <-> p = q.
Proof.
  revert q; induction p as [|x p IH]; intros [|y q]; simpl; split;
    try congruence; try reflexivity.
  - destruct (Text.compare x y) eqn:E; try discriminate.
    apply text_compare_eq in E. intros H. apply IH in H. congruence.
  - intros [= -> ->].
    replace (Text.compare y y) with Eq
      by (symmetry; now apply text_compare_eq).
    now apply IH.
Qed.

Lemma path_compare_antisym (p q : path) :
  PurePath.compare q p = CompOpp (PurePath.compare p q).
Proof.
  revert q; induction p as [|x p IH]; intros [|y q]; simpl; try reflexivity.
  rewrite (text_compare_antisym x y).
  destruct (Text.compare x y); simpl; auto.
Qed.

Lemma path_compare_trans (c : comparison) (p q r : path) :
  PurePath.compare p q = c -> PurePath.compare q r = c ->
  PurePath.compare p r = c.
Proof.
  revert q r; induction p as [|x p IH]; intros [|y q] [|z r]; simpl;
    try congruence.
  destruct (Text.compare x y) eqn:E1; destruct (Text.compare y z) eqn:E2;
    try congruence.
  - apply text_compare_eq in E1, E2; subst.
    replace (Text.compare z z) with Eq
      by (symmetry; now apply text_compare_eq). apply IH.
  - apply text_compare_eq in E1; subst. rewrite E2. congruence.
  - apply text_compare_eq in E1; subst. rewrite E2. congruence.
  - apply text_compare_eq in E2; subst. rewrite E1. congruence.
  - rewrite (text_compare_trans _ _ _ _ E1 E2). congruence.
  - apply text_compare_eq in E2; subst. rewrite E1. congruence.
  - rewrite (text_compare_trans _ _ _ _ E1 E2). congruence.
Qed.

Lemma leb_total (p q : path) : leb p q = true \/ leb q p = true.
Proof.
  unfold leb. rewrite (path_compare_antisym p q).
  destruct (PurePath.compare p q); simpl; auto.
Qed.


Lemma leb_trans (p q r : path) :
  leb p q = true -> leb q r = true -> leb p r = true.
Proof.
  unfold leb.
  destruct (PurePath.compare p q) eqn:E1; try discriminate;
    destruct (PurePath.compare q r) eqn:E2; try discriminate; intros _ _.
  - apply path_compare_eq in E1, E2; subst.
    replace (PurePath.compare r r) with Eq; [reflexivity|].
    symmetry. now apply path_compare_eq.
  - apply path_compare_eq in E1; subst. now rewrite E2.
  - apply path_compare_eq in E2; subst. now rewrite E1.
  - now rewrite (path_compare_trans _ _ _ _ E1 E2).
Qed.


Lemma ltb_leb (p q : path) : ltb p q = true <-> leb p q = true /\ p <> q.
Proof.
  unfold ltb, leb. destruct (PurePath.compare p q) eqn:E; split;
    try discriminate; try (intros [? ?]; discriminate).
  - intros [_ H]. apply path_compare_eq in E. contradiction.
  - intros _. split; [reflexivity|]. intros ->.
    assert (PurePath.compare q q = Eq) by now apply path_compare_eq.
    congruence.
  - reflexivity.
Qed.

(** *** [sorted] *)

Lemma insert_In (p x : path) (l : list path) :
  In x (PurePath.insert p l) <-> x = p \/ In x l.
Proof.
  induction l as [|q l IH]; simpl.
  - intuition.
  - destruct (leb p q); simpl; rewrite ?IH; intuition.
Qed.

Lemma sorted_In (x : path) (l : list path) : In x (sorted l) <-> In x l.
Proof.
  induction l as [|p l IH]; simpl; [reflexivity|].
  unfold sorted in *. simpl. rewrite insert_In, IH. intuition.
Qed.

Lemma insert_perm (p : path) (l : list path) :
  Permutation (p :: l) (PurePath.insert p l).
Proof.
  induction l as [|q l IH]; simpl; [apply Permutation_refl|].
  destruct (leb p q); [apply Permutation_refl|].
  eapply perm_trans; [apply perm_swap|]. now apply perm_skip.
Qed.

Lemma sorted_perm (l : list path) : Permutation l (sorted l).
Proof.
  induction l as [|p l IH]; simpl; [constructor|].
  unfold sorted in *; simpl.
  eapply perm_trans; [apply perm_skip, IH | apply insert_perm].
Qed.

Lemma insert_sorted (p : path) (l : list path) :
  StronglySorted le_path l -> StronglySorted le_path (PurePath.insert p l).
Proof.
  induction 1 as [|q l Hs IH Hall]; simpl.
  - repeat constructor.
  - destruct (leb p q) eqn:E.
    + constructor; [now constructor|]. constructor; [exact E|].
      eapply Forall_impl; [|exact Hall]. intros r Hr.
      eapply leb_trans; eauto.
    + constructor; [exact IH|].
      apply Forall_forall. intros r Hr. apply insert_In in Hr.
      destruct Hr as [->|Hr].
      * destruct (leb_total p q) as [H|H]; [congruence | exact H].
      * rewrite Forall_forall in Hall. now apply Hall.
Qed.

Lemma sorted_sorted (l : list path) : StronglySorted le_path (sorted l).
Proof.
  induction l as [|p l IH]; simpl; [constructor|].
  unfold sorted in *; simpl. now apply insert_sorted.
Qed.

Lemma sorted_NoDup (l : list path) : NoDup l -> NoDup (sorted l).
Proof.
  intros H. eapply Permutation_NoDup; [apply sorted_perm | exact H].
Qed.

Lemma sorted_strict (l : list path) :
  NoDup l -> StronglySorted lt_path (sorted l).
Proof.
  intros Hnd. apply sorted_NoDup in Hnd.
  pose proof (sorted_sorted l) as Hs.
  induction Hs as [|q l' Hs IH Hall]; [constructor|].
  inversion Hnd; subst. constructor; [now apply IH|].
  rewrite Forall_forall in *. intros r Hr. apply ltb_leb. split.
  - now apply Hall.
  - intros ->. contradiction.
Qed.


(** ** The file system *)

Lemma node_induction (P : node -> Prop) :
  (forall d, P (File d)) ->
  (forall es, Forall (fun e => P (snd e)) es -> P (Dir es)) ->
  forall n, P n.
Proof.
  intros Hf Hd. fix IH 1. intros [d|es]; [apply Hf|].
  apply Hd. induction es as [|[k ch] es IHes]; constructor.
  - simpl. apply IH.
  - exact IHes.
Qed.

Lemma plain_app (p q : path) : plain (p ++ q) <-> plain p /\ plain q.
Proof. apply Forall_app. Qed.

Lemma valid_name_plain (k : text) :
  valid_name k = true -> k <> dotdot /\ k <> [].
Proof.
  unfold valid_name. intros H.
  split; intros ->; vm_compute in H; discriminate.
Qed.

Lemma valid_names_plain (p : path) : forallb valid_name p = true -> plain p.
Proof.
  rewrite forallb_forall. intros H. apply Forall_forall. intros c Hc.
  apply valid_name_plain. now apply H.
Qed.

Lemma lookup_app (n : node) (p q : path) :
  lookup n (p ++ q) =
  match lookup n p with Some m => lookup m q | None => None end.
Proof.
  revert n; induction p as [|c p IH]; intros n; simpl; [reflexivity|].
  destruct n as [d|es]; [reflexivity|].
  destruct (find_entry c es); [apply IH | reflexivity].
Qed.

Lemma lookup_file_below (n : node) (p q : path) (d : option text) :
  lookup n p = Some (File d) -> q <> [] -> lookup n (p ++ q) = None.
Proof.
  intros H Hq. rewrite lookup_app, H. destruct q; [congruence | reflexivity].
Qed.

Lemma walk_app (fs : node) (cur p q : path) :
  walk fs cur (p ++ q) =
  match walk fs cur p with inr c => walk fs c q | inl e => inl e end.
Proof.
  revert cur; induction p as [|c p IH]; intros cur; simpl; [reflexivity|].
  destruct (lookup fs cur) as [[d|es]|]; try reflexivity.
  destruct (Text.eqb c []); [apply IH|].
  destruct (Text.eqb c dotdot); [apply IH|].
  destruct (lookup fs (cur ++ [c])); [apply IH | reflexivity].
Qed.

Lemma walk_plain (fs : node) (p : path) :
  plain p ->
  forall cur,
    match walk fs cur p with inr c => lookup fs c | inl _ => None end
    = lookup fs (cur ++ p).
Proof.
  induction 1 as [|c p Hc Hp IH]; intros cur; simpl.
  - now rewrite app_nil_r.
  - replace (cur ++ c :: p) with ((cur ++ [c]) ++ p)
      by now rewrite <- app_assoc.
    destruct (lookup fs cur) as [[d|es]|] eqn:E.
    + rewrite <- app_assoc. symmetry.
      eapply lookup_file_below; [exact E | discriminate].
    + destruct Hc as [Hc Hc'].
      apply text_eqb_neq in Hc, Hc'. rewrite Hc, Hc'.
      destruct (lookup fs (cur ++ [c])) eqn:E2; [apply IH|].
      now rewrite lookup_app, E2.
    + now rewrite <- app_assoc, lookup_app, E.
Qed.

Lemma walk_plain_inr (fs : node) (p : path) :
  plain p ->
  forall cur c, walk fs cur p = inr c -> c = cur ++ p.
Proof.
  induction 1 as [|c p Hc Hp IH]; intros cur c'; simpl.
  - intros [= <-]. now rewrite app_nil_r.
  - destruct (lookup fs cur) as [[d|es]|]; try discriminate.
    destruct Hc as [Hc Hc'].
    apply text_eqb_neq in Hc, Hc'. rewrite Hc, Hc'.
    destruct (lookup fs (cur ++ [c])); try discriminate.
    intros H. apply IH in H. now rewrite <- app_assoc in H.
Qed.

Lemma stat_plain (fs : node) (p : path) : plain p -> stat fs p = lookup fs p.
Proof. intros H. unfold stat. exact (walk_plain fs p H []). Qed.

(** A path below a base that the system resolves to the node [n]. *)
Lemma stat_below (fs : node) (base rel : path) (n : node) :
  stat fs base = Some n -> plain rel -> stat fs (base ++ rel) = lookup n rel.
Proof.
  unfold stat. intros H Hrel. rewrite walk_app.
  destruct (walk fs [] base) as [e|c]; [discriminate|].
  rewrite (walk_plain fs rel Hrel c), lookup_app, H. reflexivity.
Qed.

(** *** Entries of a well-formed directory *)

Lemma wf_Dir (es : list (text * node)) : wf (Dir es) = wf_entries es.
Proof.
  simpl. induction es as [|[k ch] es IH]; simpl; [reflexivity|].
  now rewrite IH.
Qed.

Lemma fresh_find (k : text) (es : list (text * node)) :
  fresh k es = true <-> find_entry k es = None.
Proof.
  induction es as [|[k' ch] es IH]; simpl; [tauto|].
  destruct (Text.eqb k' k); simpl; [split; discriminate | exact IH].
Qed.

Lemma find_entry_In (k : text) (es : list (text * node)) (ch : node) :
  find_entry k es = Some ch -> In (k, ch) es.
Proof.
  induction es as [|[k' ch'] es IH]; simpl; [discriminate|].
  destruct (Text.eqb k' k) eqn:E.
  - apply text_eqb_eq in E. intros [= ->]. left. congruence.
  - intros H. right. auto.
Qed.

Lemma In_find_entry (k : text) (es : list (text * node)) (ch : node) :
  wf_entries es = true -> In (k, ch) es -> find_entry k es = Some ch.
Proof.
  induction es as [|[k' ch'] es IH]; simpl; [contradiction|].
  rewrite !andb_true_iff. intros [[[Hv Hf] Hw] Hes] [[= -> ->]|Hin].
  - now rewrite text_eqb_refl.
  - destruct (Text.eqb k' k) eqn:E; [|auto].
    apply text_eqb_eq in E; subst.
    apply fresh_find in Hf. rewrite (IH Hes Hin) in Hf. discriminate.
Qed.

Lemma wf_entries_In (k : text) (es : list (text * node)) (ch : node) :
  wf_entries es = true -> In (k, ch) es -> valid_name k = true /\ wf ch = true.
Proof.
  induction es as [|[k' ch'] es IH]; simpl; [contradiction|].
  rewrite !andb_true_iff. intros [[[Hv Hf] Hw] Hes] [[= -> ->]|Hin]; auto.
Qed.

Lemma wf_lookup (n : node) (p : path) (m : node) :
  wf n = true -> lookup n p = Some m ->
  wf m = true /\ forallb valid_name p = true.
Proof.
  revert n; induction p as [|c p IH]; intros n Hw; simpl.
  - intros [= <-]. auto.
  - destruct n as [d|es]; [discriminate|].
    destruct (find_entry c es) as [ch|] eqn:E; [|discriminate].
    rewrite wf_Dir in Hw. apply find_entry_In in E.
    destruct (wf_entries_In _ _ _ Hw E) as [Hv Hch].
    intros H. destruct (IH _ Hch H) as [Hm Hp]. now rewrite Hv, Hp.
Qed.

(** *** Recursive globbing *)

Lemma rglob_node_Dir (pat : text) (here : path) (es : list (text * node)) :
  rglob_node pat here (Dir es) =
  children here (filter (fun e => glob_match pat (fst e)) es) ++
  rglob_entries pat here es.
Proof.
  simpl. f_equal. induction es as [|[k ch] es IH]; simpl; [reflexivity|].
  now rewrite IH.
Qed.

Lemma rglob_entries_In (pat : text) (here : path) (es : list (text * node))
      (p : path) :
  In p (rglob_entries pat here es) <->
  exists k ch, In (k, ch) es /\ In p (rglob_node pat (here ++ [k]) ch).
Proof.
  induction es as [|[k ch] es IH]; simpl.
  - split; [contradiction | intros (? & ? & [] & _)].
  - rewrite in_app_iff, IH. split.
    + intros [Hp|(k' & ch' & Hin & Hp)].
      * exists k, ch. auto.
      * exists k', ch'. auto.
    + intros (k' & ch' & [E|Hin] & Hp).
      * injection E as -> ->. now left.
      * right. now exists k', ch'.
Qed.

Lemma children_In (here : path) (es : list (text * node)) (p : path) :
  In p (children here es) <-> exists k ch, In (k, ch) es /\ p = here ++ [k].
Proof.
  unfold children. rewrite in_map_iff. split.
  - intros ([k ch] & <- & Hin). now exists k, ch.
  - intros (k & ch & Hin & ->). now exists (k, ch).
Qed.

Lemma name_cons (k : text) (rel : path) :
  name (k :: rel) = match rel with [] => k | _ :: _ => name rel end.
Proof. destruct rel; reflexivity. Qed.

(** The paths that [rglob] yields below a well-formed node: the entries
    that exist and whose name matches the pattern. *)
Lemma rglob_node_In (pat : text) (n : node) :
  wf n = true ->
  forall here p,
    In p (rglob_node pat here n) <->
    exists rel, rel <> [] /\ p = here ++ rel /\ lookup n rel <> None /\
                glob_match pat (name rel) = true.
Proof.
  induction n as [d|es IH] using node_induction; intros Hw here p.
  - simpl. split; [contradiction|].
    intros ([|c rel] & Hne & _ & Hl & _); [congruence | now simpl in Hl].
  - rewrite wf_Dir in Hw. rewrite rglob_node_Dir, in_app_iff.
    rewrite children_In, rglob_entries_In. split.
    + intros [(k & ch & Hin & ->)|(k & ch & Hin & Hp)].
      * apply filter_In in Hin. destruct Hin as [Hin Hm]. simpl in Hm.
        exists [k]. repeat split; [discriminate | | exact Hm].
        simpl. now rewrite (In_find_entry _ _ _ Hw Hin).
      * rewrite Forall_forall in IH.
        destruct (wf_entries_In _ _ _ Hw Hin) as [_ Hch].
        apply (IH (k, ch) Hin Hch) in Hp.
        destruct Hp as (rel & Hne & -> & Hl & Hm).
        exists (k :: rel). repeat split.
        -- discriminate.
        -- now rewrite <- app_assoc.
        -- simpl. now rewrite (In_find_entry _ _ _ Hw Hin).
        -- rewrite name_cons. destruct rel; [congruence | exact Hm].
    + intros ([|k rel] & Hne & -> & Hl & Hm); [congruence|].
      simpl in Hl. destruct (find_entry k es) as [ch|] eqn:E; [|congruence].
      apply find_entry_In in E. destruct rel as [|c rel].
      * left. exists k, ch. split; [|reflexivity].
        apply filter_In. split; [exact E | exact Hm].
      * right. exists k, ch. split; [exact E|].
        rewrite Forall_forall in IH.
        destruct (wf_entries_In _ _ _ Hw E) as [_ Hch].
        apply (IH (k, ch) E Hch). exists (c :: rel).
        repeat split; [discriminate | now rewrite <- app_assoc | exact Hl |].
        now rewrite name_cons in Hm.
Qed.

Lemma fresh_not_In (k : text) (es : list (text * node)) (ch : node) :
  fresh k es = true -> ~ In (k, ch) es.
Proof.
  induction es as [|[k' ch'] es IH]; simpl; [tauto|].
  rewrite andb_true_iff, negb_true_iff. intros [Hk Hf] [[= -> ->]|Hin].
  - now rewrite text_eqb_refl in Hk.
  - now apply IH.
Qed.

Lemma children_NoDup (here : path) (es : list (text * node)) :
  wf_entries es = true -> NoDup (children here es).
Proof.
  induction es as [|[k ch] es IH]; simpl; [constructor|].
  rewrite !andb_true_iff. intros [[[Hv Hf] Hw] Hes]. constructor; [|auto].
  intros Hin. apply children_In in Hin. destruct Hin as (k' & ch' & Hin & E).
  apply app_inv_head in E. injection E as <-.
  exact (fresh_not_In _ _ _ Hf Hin).
Qed.

Lemma wf_entries_filter (f : text * node -> bool) (es : list (text * node)) :
  wf_entries es = true -> wf_entries (filter f es) = true.
Proof.
  induction es as [|[k ch] es IH]; simpl; [reflexivity|].
  rewrite !andb_true_iff. intros [[[Hv Hf] Hw] Hes].
  destruct (f (k, ch)); simpl; [|auto].
  rewrite Hv, Hw, (IH Hes), !andb_true_r. simpl.
  clear - Hf. induction es as [|[k' ch'] es IH]; simpl in *; [reflexivity|].
  apply andb_true_iff in Hf. destruct Hf as [Hk Hf].
  destruct (f (k', ch')); simpl; [rewrite Hk|]; auto.
Qed.

Lemma rglob_node_prefix (pat : text) (n : node) :
  forall here p, In p (rglob_node pat here n) ->
                 exists rel, rel <> [] /\ p = here ++ rel.
Proof.
  induction n as [d|es IH] using node_induction; intros here p.
  - simpl. contradiction.
  - rewrite rglob_node_Dir, in_app_iff, children_In, rglob_entries_In.
    intros [(k & ch & _ & ->)|(k & ch & Hin & Hp)].
    + exists [k]. split; [discriminate | reflexivity].
    + rewrite Forall_forall in IH. apply (IH (k, ch) Hin) in Hp.
      destruct Hp as (rel & _ & ->). exists (k :: rel).
      split; [discriminate | now rewrite <- app_assoc].
Qed.

Lemma rglob_entries_NoDup (pat : text) (here : path) (es : list (text * node)) :
  Forall (fun e => forall here', NoDup (rglob_node pat here' (snd e))) es ->
  wf_entries es = true ->
  NoDup (rglob_entries pat here es).
Proof.
  induction es as [|[k ch] es IHes]; simpl; [constructor|].
  intros Hall. inversion Hall as [|? ? Hk Hrest]; subst. simpl in Hk.
  rewrite !andb_true_iff. intros [[[Hv Hf] Hw] Hes].
  apply NoDup_app; [apply Hk | now apply IHes |].
  intros p Hp Hq. apply rglob_entries_In in Hq.
  destruct Hq as (k' & ch' & Hin & Hq).
  apply rglob_node_prefix in Hp. apply rglob_node_prefix in Hq.
  destruct Hp as (rel & _ & ->). destruct Hq as (rel' & _ & E).
  rewrite <- !app_assoc in E. apply app_inv_head in E. injection E as -> _.
  exact (fresh_not_In _ _ _ Hf Hin).
Qed.

Lemma rglob_node_NoDup (pat : text) (n : node) :
  wf n = true -> forall here, NoDup (rglob_node pat here n).
Proof.
  induction n as [d|es IH] using node_induction; intros Hw here.
  - constructor.
  - rewrite wf_Dir in Hw. rewrite rglob_node_Dir.
    apply NoDup_app.
    + apply children_NoDup. now apply wf_entries_filter.
    + apply rglob_entries_NoDup; [|exact Hw].
      rewrite Forall_forall in *. intros [k ch] Hin here'.
      destruct (wf_entries_In _ _ _ Hw Hin) as [_ Hch].
      now apply (IH (k, ch) Hin).
    + intros p Hp Hq. apply children_In in Hp.
      destruct Hp as (k & ch & _ & ->).
      apply rglob_entries_In in Hq. destruct Hq as (k' & ch' & _ & Hq).
      apply rglob_node_prefix in Hq. destruct Hq as (rel & Hne & E).
      rewrite <- app_assoc in E. apply app_inv_head in E.
      injection E as _ E. symmetry in E. now destruct rel.
Qed.

(** ** The vault *)

Lemma valid_names_unanchored (rel : path) :
  forallb valid_name rel = true -> anchored rel = false.
Proof.
  destruct rel as [|[|c k] rel]; try reflexivity.
  simpl. discriminate.
Qed.

Lemma relative_to_app (base rel : path) :
  anchored rel = false -> relative_to (base ++ rel) base = Some rel.
Proof.
  intros Hrel. induction base as [|b base IH]; simpl.
  - now rewrite Hrel.
  - now rewrite text_eqb_refl.
Qed.

Lemma relative_to_Some (p base rel : path) :
  relative_to p base = Some rel -> p = base ++ rel.
Proof.
  revert p; induction base as [|b base IH]; intros p; simpl.
  - destruct (anchored p); [discriminate|]. now intros [= ->].
  - destruct p as [|x p]; [discriminate|].
    destruct (Text.eqb x b) eqn:E; [|discriminate].
    apply text_eqb_eq in E; subst. intros H. now rewrite (IH _ H).
Qed.

Lemma resolve_plain_from (p acc : path) :
  plain p -> fold_left resolve_step p acc = acc ++ p.
Proof.
  intros Hp. revert acc. induction Hp as [|c p Hc Hp IH]; intros acc; simpl.
  - now rewrite app_nil_r.
  - unfold resolve_step at 2. destruct Hc as [Hc Hc'].
    apply text_eqb_neq in Hc, Hc'. rewrite Hc, Hc'.
    now rewrite IH, <- app_assoc.
Qed.

Lemma resolve_plain (p : path) : plain p -> PurePath.resolve p = p.
Proof. intros H. unfold PurePath.resolve. now rewrite resolve_plain_from. Qed.

Lemma join_app_startswith (sep : text) (a b : path) :
  startswith (Text.join sep (a ++ b)) (Text.join sep a) = true.
Proof.
  induction a as [|x a IH]; [reflexivity|].
  destruct a as [|y a].
  - simpl. destruct b.
    + apply startswith_iff. exists []. now rewrite app_nil_r.
    + apply startswith_app.
  - change (startswith (x ++ sep ++ Text.join sep ((y :: a) ++ b))
                       (x ++ sep ++ Text.join sep (y :: a)) = true).
    apply startswith_iff. apply startswith_iff in IH. destruct IH as [r E].
    exists r. rewrite E, <- !app_assoc. reflexivity.
Qed.

Lemma valid_names_no_nul (p : path) :
  forallb valid_name p = true -> existsb (existsb (Ascii.eqb nul)) p = false.
Proof.
  induction p as [|c p IH]; simpl; [reflexivity|].
  rewrite andb_true_iff. intros [Hc Hp]. rewrite (IH Hp), orb_false_r.
  unfold valid_name in Hc. rewrite !andb_true_iff in Hc.
  destruct Hc as [_ Hc]. now apply negb_true_iff in Hc.
Qed.

Lemma within_vault_plain (v : Vault.t) (rel : path) :
  forallb valid_name (root v ++ rel) = true ->
  _is_within_vault v (root v ++ rel) = true.
Proof.
  intros H. unfold _is_within_vault. rewrite (valid_names_no_nul _ H).
  rewrite (resolve_plain _ (valid_names_plain _ H)).
  unfold str. cbn [startswith]. rewrite Ascii.eqb_refl.
  apply join_app_startswith.
Qed.

Lemma ok_root_valid (fs : node) (v : Vault.t) :
  Vault.ok fs v = true -> forallb valid_name (root v) = true.
Proof. unfold Vault.ok. rewrite !andb_true_iff. tauto. Qed.

Lemma ok_root_plain (fs : node) (v : Vault.t) :
  Vault.ok fs v = true -> plain (root v).
Proof. intros H. apply valid_names_plain. exact (ok_root_valid fs v H). Qed.

Lemma ok_wf (fs : node) (v : Vault.t) : Vault.ok fs v = true -> wf fs = true.
Proof. unfold Vault.ok. rewrite !andb_true_iff. tauto. Qed.

Lemma ok_is_dir (fs : node) (v : Vault.t) :
  Vault.ok fs v = true -> is_dir fs (root v) = true.
Proof. unfold Vault.ok. rewrite !andb_true_iff. tauto. Qed.

Lemma wf_stat (fs : node) (p : path) (n : node) :
  wf fs = true -> stat fs p = Some n -> wf n = true.
Proof.
  unfold stat. intros Hw. destruct (walk fs [] p); [discriminate|].
  intros H. now destruct (wf_lookup _ _ _ Hw H).
Qed.

Lemma last_app_ne {A : Type} (a b : list A) (d : A) :
  b <> [] -> last (a ++ b) d = last b d.
Proof.
  intros Hb. induction a as [|x a IH]; [reflexivity|].
  simpl. rewrite IH. destruct (a ++ b) eqn:E; [|reflexivity].
  apply app_eq_nil in E. destruct E. contradiction.
Qed.

(** What [base.rglob(pat)] yields in a well-formed tree. *)
Lemma select_from_In (fs : node) (base : path) (pat : text) (p : path) :
  wf fs = true ->
  (In p (select_from fs base pat) <->
   exists rel, entry_below fs base rel p /\ glob_match pat (name p) = true).
Proof.
  intros Hw. unfold select_from, entry_below.
  destruct (stat fs base) as [n|] eqn:Hs.
  - pose proof (wf_stat fs base n Hw Hs) as Hn.
    rewrite (rglob_node_In pat n Hn). split.
    + intros (rel & Hne & -> & Hl & Hm).
      destruct (lookup n rel) as [m|] eqn:E; [|congruence].
      destruct (wf_lookup _ _ _ Hn E) as [_ Hv].
      exists rel. repeat split; auto.
      * unfold exists_.
        rewrite (stat_below fs base rel n Hs (valid_names_plain _ Hv)), E. reflexivity.
      * unfold name in *. rewrite last_app_ne; [exact Hm | exact Hne].
    + intros (rel & (Hne & -> & Hv & He) & Hm).
      exists rel. repeat split; auto.
      * unfold exists_ in He.
        rewrite (stat_below fs base rel n Hs (valid_names_plain _ Hv)) in He.
        intros E. now rewrite E in He.
      * unfold name in *. rewrite last_app_ne in Hm; [exact Hm | exact Hne].
  - split; [contradiction|].
    intros (rel & (Hne & -> & Hv & He) & _). unfold exists_, stat in *.
    rewrite walk_app in He. destruct (walk fs [] base) as [e|c]; [discriminate|].
    rewrite (walk_plain fs rel (valid_names_plain _ Hv) c), lookup_app in He.
    destruct (lookup fs c); [discriminate Hs | discriminate He].
Qed.

Lemma select_from_NoDup (fs : node) (base : path) (pat : text) :
  wf fs = true -> NoDup (select_from fs base pat).
Proof.
  intros Hw. unfold select_from. destruct (stat fs base) as [n|] eqn:Hs.
  - apply rglob_node_NoDup. exact (wf_stat fs base n Hw Hs).
  - constructor.
Qed.

(** *** Generators *)

Lemma yield_if_Some (cond : path -> option bool) (ps l : list path) :
  yield_if cond ps = Some l ->
  (forall p, In p ps -> cond p <> None) /\
  l = filter (fun p => match cond p with Some true => true | _ => false end) ps.
Proof.
  revert l; induction ps as [|p ps IH]; simpl; intros l.
  - intros [= <-]. split; [contradiction | reflexivity].
  - destruct (cond p) as [b|] eqn:E; [|discriminate].
    destruct (yield_if cond ps) as [r|]; [|discriminate].
    destruct (IH r eq_refl) as [Hall ->]. intros [= <-]. split.
    + intros q [<-|Hq]; [congruence | auto].
    + now destruct b.
Qed.

Lemma yield_if_total (cond : path -> option bool) (ps : list path) :
  (forall p, In p ps -> cond p <> None) -> yield_if cond ps <> None.
Proof.
  induction ps as [|p ps IH]; simpl; intros H; [discriminate|].
  destruct (cond p) as [b|] eqn:E; [|exfalso; apply (H p); auto].
  destruct (yield_if cond ps); [discriminate|].
  apply IH. intros q Hq. apply H. now right.
Qed.

Lemma filter_StronglySorted (R : path -> path -> Prop) (f : path -> bool)
      (l : list path) :
  StronglySorted R l -> StronglySorted R (filter f l).
Proof.
  induction 1 as [|p l Hs IH Hall]; simpl; [constructor|].
  destruct (f p); [|exact IH]. constructor; [exact IH|].
  rewrite Forall_forall in *. intros q Hq. apply filter_In in Hq.
  now apply Hall.
Qed.

(** *** Stripping slashes *)

Lemma lstrip_char_keep (c x : ascii) (a b : text) :
  x <> c -> lstrip_char c (a ++ x :: b) = lstrip_char c a ++ x :: b.
Proof.
  intros Hx. induction a as [|y a IH]; simpl.
  - apply Ascii.eqb_neq in Hx. now rewrite Hx.
  - destruct (Ascii.eqb y c); [exact IH | reflexivity].
Qed.

Lemma lstrip_char_suffix (c : ascii) (s : text) :
  exists pre, s = pre ++ lstrip_char c s.
Proof.
  induction s as [|x s [pre IH]]; simpl; [now exists []|].
  destruct (Ascii.eqb x c).
  - exists (x :: pre). simpl. now rewrite <- IH.
  - now exists [].
Qed.

Lemma strip_char_snoc (c x : ascii) (a : text) :
  x <> c -> strip_char c (a ++ [x]) = lstrip_char c a ++ [x].
Proof.
  intros Hx. unfold strip_char. rewrite (lstrip_char_keep c x a [] Hx).
  rewrite rev_app_distr. simpl.
  apply Ascii.eqb_neq in Hx. rewrite Hx. simpl.
  now rewrite rev_involutive.
Qed.

Lemma no_trailing_slash (r : text) :
  endswith r [slash] = false ->
  r = [] \/ exists a x, r = a ++ [x] /\ x <> slash.
Proof.
  intros H. destruct (rev r) as [|x ra] eqn:E.
  - left. rewrite <- (rev_involutive r), E. reflexivity.
  - right. exists (rev ra), x. split.
    + rewrite <- (rev_involutive r), E. reflexivity.
    + intros ->. unfold endswith in H. rewrite E in H. simpl in H.
      discriminate.
Qed.

Lemma strip_char_keep (c x y : ascii) (a b : text) :
  x <> c -> y <> c ->
  strip_char c (a ++ x :: b ++ [y]) = lstrip_char c a ++ x :: b ++ [y].
Proof.
  intros Hx Hy. unfold strip_char. rewrite (lstrip_char_keep c x a _ Hx).
  replace (lstrip_char c a ++ x :: b ++ [y])
    with ((lstrip_char c a ++ x :: b) ++ [y])
    by (now rewrite <- app_assoc).
  rewrite rev_app_distr. simpl rev at 2. simpl app at 1.
  simpl lstrip_char. apply Ascii.eqb_neq in Hy. rewrite Hy.
  simpl rev at 1. now rewrite rev_involutive.
Qed.

Lemma strip_char_app_md (r : text) :
  endswith r [slash] = false ->
  strip_char slash (r ++ md) = strip_char slash r ++ md /\
  (endswith r md = false -> endswith (strip_char slash r) md = false).
Proof.
  intros H. destruct (no_trailing_slash r H) as [->|(a & x & -> & Hx)].
  - split; reflexivity.
  - rewrite (strip_char_snoc slash x a Hx). split.
    + rewrite <- !app_assoc.
      change ([x] ++ md) with (x :: T ".m" ++ ["d"%char]).
      rewrite (strip_char_keep slash x "d" a (T ".m") Hx); [reflexivity|].
      discriminate.
    + intros Hmd. destruct (endswith (lstrip_char slash a ++ [x]) md) eqn:E;
        [|reflexivity].
      apply endswith_iff in E. destruct E as [q E].
      destruct (lstrip_char_suffix slash a) as [pre Hpre].
      assert (endswith (a ++ [x]) md = true) as Hc.
      { apply endswith_iff. exists (pre ++ q).
        rewrite <- app_assoc, <- E, app_assoc, <- Hpre. reflexivity. }
      congruence.
Qed.

(** *** Listings *)

Lemma glob_star_all (s : text) : glob_match (T "*") s = true.
Proof.
  change (glob_match (T "*") s)
    with ((fix star (s : text) : bool :=
             items_match [] s ||
             match s with [] => false | _ :: s' => star s' end) s).
  induction s as [|c s IH]; [reflexivity|].
  rewrite IH. apply orb_true_r.
Qed.

(** The pattern of the notes asks for the extension. *)
Lemma glob_md (s : text) : glob_match (T "*.md") s = endswith s md.
Proof.
  change (glob_match (T "*.md") s)
    with ((fix star (s : text) : bool :=
             items_match [GLit "."%char; GLit "m"%char; GLit "d"%char] s ||
             match s with [] => false | _ :: s' => star s' end) s).
  assert (forall t, items_match [GLit "."%char; GLit "m"%char; GLit "d"%char] t
                    = Text.eqb t md) as Hlit.
  { intros [|a [|b [|c [|d t]]]]; reflexivity. }
  induction s as [|c s IH].
  - reflexivity.
  - rewrite Hlit, IH.
    destruct (endswith (c :: s) md) eqn:E.
    + apply endswith_iff in E. destruct E as [[|x r] E].
      * rewrite E. reflexivity.
      * injection E as -> ->.
        assert (endswith (r ++ md) md = true) as ->
            by (apply endswith_iff; now exists r).
        apply orb_true_r.
    + apply orb_false_iff. split.
      * apply text_eqb_neq. intros H. rewrite H in E. discriminate.
      * destruct (endswith s md) eqn:E2; [|reflexivity].
        apply endswith_iff in E2. destruct E2 as [r ->].
        assert (endswith (c :: r ++ md) md = true) as H
            by (apply endswith_iff; now exists (c :: r)).
        congruence.
Qed.

Lemma and_then_true (a b : option bool) :
  and_then a b = Some true <-> a = Some true /\ b = Some true.
Proof.
  destruct a as [[]|]; simpl; split; try tauto; try (intros [? ?]; congruence);
    try congruence; intros [_ H]; exact H.
Qed.

Lemma within_depth_below (base rel : path) (d : Z) :
  anchored rel = false ->
  _within_depth (base ++ rel) base d
  = Some (Z.of_nat (List.length rel) <=? d)%Z.
Proof. intros H. unfold _within_depth. now rewrite relative_to_app. Qed.

Lemma should_include_true (v : Vault.t) (p : path) :
  _should_include v p = Some true <->
  exists r, relative_to p (root v) = Some r /\
            forall part, In part r -> excluded part = false.
Proof.
  unfold _should_include. destruct (relative_to p (root v)) as [r|].
  - split.
    + intros [= H]. exists r. split; [reflexivity|].
      apply negb_true_iff in H. intros part Hp.
      destruct (excluded part) eqn:E; [|reflexivity].
      assert (existsb excluded r = true) as C
          by (apply existsb_exists; now exists part).
      congruence.
    + intros (r' & [= <-] & H). f_equal. apply negb_true_iff.
      destruct (existsb excluded r) eqn:E; [|reflexivity].
      apply existsb_exists in E. destruct E as (part & Hp & Hx).
      rewrite (H part Hp) in Hx. discriminate.
  - split; [discriminate | intros (r & H & _); discriminate].
Qed.

(** The recursive branch of [iter_notes] and [iter_entries]. *)
Lemma deep_listing (fs : node) (v : Vault.t) (base : path) (pat : text)
      (max_depth : Z) (l : list path) :
  wf fs = true ->
  yield_if (fun p => and_then (_should_include v p)
                              (_within_depth p base max_depth))
           (sorted (select_from fs base pat)) = Some l ->
  StronglySorted lt_path l /\
  forall p,
    In p l <->
    exists rel, entry_below fs base rel p /\
                _should_include v p = Some true /\
                glob_match pat (name p) = true /\
                (Z.of_nat (List.length rel) <= max_depth)%Z.
Proof.
  intros Hw Hy. apply yield_if_Some in Hy. destruct Hy as [_ ->]. split.
  - apply filter_StronglySorted, sorted_strict, select_from_NoDup, Hw.
  - intros p. rewrite filter_In, sorted_In, (select_from_In fs base pat p Hw).
    split.
    + intros [(rel & Hrel & Hglob) Hc]. exists rel.
      destruct (and_then (_should_include v p)
                         (_within_depth p base max_depth))
        as [[]|] eqn:E; try discriminate.
      apply and_then_true in E. destruct E as [Hinc Hd].
      destruct Hrel as (Hne & -> & Hv & He).
      rewrite (within_depth_below _ _ _ (valid_names_unanchored _ Hv)) in Hd.
      injection Hd as Hd.
      apply Z.leb_le in Hd. repeat split; auto.
    + intros (rel & Hrel & Hinc & Hglob & Hd). split; [now exists rel|].
      destruct Hrel as (Hne & -> & Hv & He).
      rewrite Hinc, (within_depth_below _ _ _ (valid_names_unanchored _ Hv)).
      simpl. apply Z.leb_le in Hd. now rewrite Hd.
Qed.

Lemma iterdir_In (fs : node) (base p : path) :
  wf fs = true ->
  (In p (iterdir fs base) <->
   is_dir fs base = true /\
   exists rel, entry_below fs base rel p /\ List.length rel = 1).
Proof.
  intros Hw. unfold iterdir, is_dir, entry_below.
  destruct (stat fs base) as [[d|es]|] eqn:Hs.
  - split; [contradiction | intros [H _]; discriminate].
  - pose proof (wf_stat fs base _ Hw Hs) as Hn. rewrite wf_Dir in Hn.
    rewrite children_In. split.
    + intros (k & ch & Hin & ->). split; [reflexivity|].
      destruct (wf_entries_In k es ch Hn Hin) as [Hk _].
      exists [k]. split; [|reflexivity].
      split; [discriminate|]. split; [reflexivity|].
      split; [simpl; now rewrite Hk|].
      unfold exists_.
      rewrite (stat_below fs base [k] _ Hs); simpl.
      * now rewrite (In_find_entry k es ch Hn Hin).
      * constructor; [now apply valid_name_plain | constructor].
    + intros (_ & [|k [|k2 rel]] & (Hne & -> & Hv & He) & Hlen);
        try discriminate.
      unfold exists_ in He.
      rewrite (stat_below fs base [k] _ Hs (valid_names_plain _ Hv)) in He.
      simpl in He. destruct (find_entry k es) as [ch|] eqn:E; [|discriminate].
      exists k, ch. split; [now apply find_entry_In | reflexivity].
  - split; [contradiction | intros [H _]; discriminate].
Qed.

Lemma iterdir_NoDup (fs : node) (base : path) :
  wf fs = true -> NoDup (iterdir fs base).
Proof.
  intros Hw. unfold iterdir. destruct (stat fs base) as [[d|es]|] eqn:Hs;
    try constructor.
  apply children_NoDup. rewrite <- wf_Dir. exact (wf_stat fs base _ Hw Hs).
Qed.

Lemma parts_relative (s : text) :
  startswith s [slash] = false ->
  Forall (fun w => w <> []) (parts s).
Proof.
  intros H. unfold parts.
  replace (startswith s [slash; slash]) with false.
  - apply Forall_forall. intros w Hw. apply filter_In in Hw.
    destruct Hw as [_ Hw]. apply andb_true_iff in Hw. destruct Hw as [Hw _].
    apply negb_true_iff, text_eqb_neq in Hw. exact Hw.
  - destruct s as [|c s]; [reflexivity|]. simpl in *.
    destruct (Ascii.eqb c slash); [discriminate | reflexivity].
Qed.



Lemma should_include_below (v : Vault.t) (sub : path) :
  anchored sub = false -> _should_include v (root v ++ sub) <> None.
Proof. intros H. unfold _should_include. now rewrite relative_to_app. Qed.

Lemma entry_below_is_dir (fs : node) (base rel p : path) :
  entry_below fs base rel p -> is_dir fs base = true.
Proof.
  intros (Hne & -> & Hv & He). unfold exists_, is_dir, stat in *.
  rewrite walk_app in He. destruct (walk fs [] base) as [e|c]; [discriminate|].
  rewrite (walk_plain fs rel (valid_names_plain _ Hv) c), lookup_app in He.
  destruct (lookup fs c) as [[d|es]|]; try discriminate; [|reflexivity].
  destruct rel; [congruence | discriminate].
Qed.

Lemma select_from_below (fs : node) (base : path) (pat : text) (p : path) :
  wf fs = true ->
  In p (select_from fs base pat) ->
  exists rel, p = base ++ rel /\ forallb valid_name rel = true.
Proof.
  intros Hw H. apply (select_from_In fs base pat p Hw) in H.
  destruct H as (rel & (_ & -> & Hv & _) & _). now exists rel.
Qed.


(** The non-recursive branches. *)
Lemma shallow_listing (fs : node) (v : Vault.t) (base : path)
      (keep : path -> bool) (l : list path) :
  wf fs = true ->
  yield_if (fun p => if keep p then _should_include v p else Some false)
           (sorted (iterdir fs base)) = Some l ->
  StronglySorted lt_path l /\
  forall p, In p l <-> shallow_entry fs v base p /\ keep p = true.
Proof.
  intros Hw Hy. apply yield_if_Some in Hy. destruct Hy as [_ ->]. split.
  - apply filter_StronglySorted, sorted_strict, iterdir_NoDup, Hw.
  - intros p. rewrite filter_In, sorted_In, (iterdir_In fs base p Hw).
    unfold shallow_entry, included. split.
    + intros [[_ (rel & Hrel & Hlen)] Hc]. destruct (keep p); [|discriminate].
      split; [|reflexivity]. exists rel.
      destruct (_should_include v p) as [[]|] eqn:E; try discriminate.
      apply (proj1 (should_include_true v p)) in E. auto.
    + intros [(rel & Hrel & Hinc & Hlen) Hk]. rewrite Hk.
      apply (proj2 (should_include_true v p)) in Hinc. rewrite Hinc.
      split; [|reflexivity].
      split; [exact (entry_below_is_dir fs base rel p Hrel)|]. now exists rel.
Qed.

(** ** Backlinks *)

Lemma ok_iter_notes (fs : node) (v : Vault.t) (max_depth : Z) :
  Vault.ok fs v = true ->
  exists notes,
    iter_notes fs v [] true max_depth = Some notes /\
    NoDup notes /\
    forall note, In note notes ->
                 exists rel, note = root v ++ rel /\ rel <> [] /\
                             forallb valid_name rel = true /\
                             exists_ fs note = true /\
                             included v note /\
                             (Z.of_nat (List.length rel) <= max_depth)%Z.
Proof.
  intros Hok. pose proof (ok_wf fs v Hok) as Hw.
  unfold iter_notes. simpl base_of. rewrite (ok_is_dir fs v Hok). simpl.
  destruct (yield_if
              (fun p => and_then (_should_include v p)
                                 (_within_depth p (root v) max_depth))
              (sorted (select_from fs (root v) (T "*.md")))) as [notes|] eqn:E.
  - exists notes. split; [exact E|].
    destruct (deep_listing fs v (root v) (T "*.md") max_depth notes Hw E)
      as [_ Hin].
    apply yield_if_Some in E. destruct E as [_ E]. split.
    + rewrite E. apply NoDup_filter, sorted_NoDup, select_from_NoDup, Hw.
    + intros note Hn. apply Hin in Hn.
      destruct Hn as (rel & (Hne & -> & Hv & He) & Hinc & _ & Hd).
      exists rel. apply (proj1 (should_include_true v _)) in Hinc.
      repeat split; auto.
  - exfalso. revert E. apply yield_if_total. intros p Hp.
    apply (proj1 (sorted_In _ _)) in Hp.
    apply (select_from_below fs _ _ p Hw) in Hp.
    destruct Hp as (rel & -> & Hv).
    pose proof (valid_names_unanchored _ Hv) as Ha.
    rewrite (within_depth_below _ _ _ Ha).
    pose proof (should_include_below v rel Ha) as Hs.
    destruct (_should_include v (root v ++ rel)) as [[]|]; simpl; congruence.
Qed.

Lemma scan_backlinks_spec (fs : node) (v : Vault.t) (resolved : path)
      (target_name : text) (notes : list path) (results : list backlink) :
  scan_backlinks fs v resolved target_name notes = Ok results ->
  forall b,
    In b results <->
    exists note content t,
      In note notes /\ note <> resolved /\
      read_text fs note = Some content /\
      find (links_to target_name) (parse_wikilinks content) = Some t /\
      relative_to note (root v) = Some (note_rel b) /\
      context b = context_line content t.
Proof.
  revert results; induction notes as [|note rest IH]; simpl; intros results.
  - intros [= <-] b. split; [contradiction|].
    intros (? & ? & ? & [] & _).
  - destruct (PurePath.eqb note resolved) eqn:Eq.
    + apply path_eqb_eq in Eq. subst note. intros H b.
      rewrite (IH results H b). split.
      * intros (n & c & t & Hin & Hrest). exists n, c, t. auto.
      * intros (n & c & t & [<-|Hin] & Hne & Hrest); [congruence|].
        exists n, c, t. auto.
    + apply path_eqb_neq in Eq.
      destruct (read_text fs note) as [content|] eqn:Er.
      * unfold backlink_of.
        destruct (find (links_to target_name) (parse_wikilinks content))
          as [t|] eqn:Ef.
        -- destruct (relative_to note (root v)) as [rel|] eqn:Erel;
             [|discriminate].
           destruct (scan_backlinks fs v resolved target_name rest)
             as [rs|]; [|discriminate].
           intros [= <-] b. simpl. rewrite (IH rs eq_refl b). split.
           ++ intros [<-|(n & c & t' & Hin & Hrest)].
              ** exists note, content, t. simpl. auto 10.
              ** exists n, c, t'. auto.
           ++ intros (n & c & t' & [<-|Hin] & Hne & Hr & Hf & Hrel & Hc).
              ** left. rewrite Er in Hr. injection Hr as <-.
                 rewrite Ef in Hf. injection Hf as <-.
                 rewrite Erel in Hrel. injection Hrel as Hrel.
                 destruct b as [nr ctx]. simpl in *. congruence.
              ** right. exists n, c, t'. auto 10.
        -- destruct (scan_backlinks fs v resolved target_name rest)
             as [rs|]; [|discriminate].
           intros [= <-] b. rewrite (IH rs eq_refl b). split.
           ++ intros (n & c & t' & Hin & Hrest). exists n, c, t'. auto.
           ++ intros (n & c & t' & [<-|Hin] & Hne & Hr & Hf & Hrest).
              ** rewrite Er in Hr. injection Hr as <-. congruence.
              ** exists n, c, t'. auto 10.
      * intros H b. rewrite (IH results H b). split.
        -- intros (n & c & t & Hin & Hrest). exists n, c, t. auto.
        -- intros (n & c & t & [<-|Hin] & Hne & Hr & Hrest); [congruence|].
           exists n, c, t. auto.
Qed.

Lemma scan_backlinks_NoDup (fs : node) (v : Vault.t) (resolved : path)
      (target_name : text) (notes : list path) (results : list backlink) :
  NoDup notes ->
  scan_backlinks fs v resolved target_name notes = Ok results ->
  NoDup (map note_rel results).
Proof.
  intros Hnd. revert results.
  induction Hnd as [|note rest Hnotin Hnd IH]; simpl; intros results.
  - intros [= <-]. constructor.
  - destruct (PurePath.eqb note resolved); [apply IH|].
    destruct (read_text fs note) as [content|]; [|apply IH].
    unfold backlink_of.
    destruct (find (links_to target_name) (parse_wikilinks content)) as [t|].
    + destruct (relative_to note (root v)) as [rel|] eqn:Erel; [|discriminate].
      destruct (scan_backlinks fs v resolved target_name rest) as [rs|] eqn:Es;
        [|discriminate].
      intros [= <-]. simpl. constructor; [|now apply IH].
      intros Hin. apply in_map_iff in Hin. destruct Hin as (b & Hb & Hin).
      apply (scan_backlinks_spec fs v resolved target_name rest rs Es) in Hin.
      destruct Hin as (n & _ & _ & Hn & _ & _ & _ & Hrel & _).
      rewrite Hb in Hrel. apply relative_to_Some in Hrel, Erel.
      apply Hnotin. congruence.
    + destruct (scan_backlinks fs v resolved target_name rest) as [rs|];
        [|discriminate].
      intros [= <-]. now apply IH.
Qed.

(** ** References that spell a path of the vault *)

Lemma split_nonempty (c : ascii) (s : text) : Text.split c s <> [].
Proof.
  induction s as [|x s IH]; simpl; [discriminate|].
  destruct (Ascii.eqb x c); [discriminate|].
  destruct (Text.split c s); [congruence | discriminate].
Qed.

Lemma split_no_sep (c : ascii) (w : text) :
  existsb (Ascii.eqb c) w = false -> Text.split c w = [w].
Proof.
  induction w as [|x w IH]; simpl; [reflexivity|].
  rewrite orb_false_iff. intros [Hx Hw].
  rewrite Ascii.eqb_sym, Hx, (IH Hw). reflexivity.
Qed.

Lemma split_app_sep (c : ascii) (w rest : text) :
  existsb (Ascii.eqb c) w = false ->
  Text.split c (w ++ c :: rest) = w :: Text.split c rest.
Proof.
  induction w as [|x w IH]; simpl.
  - intros _. now rewrite Ascii.eqb_refl.
  - rewrite orb_false_iff. intros [Hx Hw].
    rewrite Ascii.eqb_sym, Hx, (IH Hw). reflexivity.
Qed.

Lemma valid_name_no_slash (k : text) :
  valid_name k = true ->
  existsb (Ascii.eqb slash) k = false /\ k <> [] /\ k <> dot.
Proof.
  unfold valid_name. rewrite !andb_true_iff, !negb_true_iff.
  intros [[[[H1 H2] _] H4] _]. repeat split; [exact H4 | |].
  - intros ->. discriminate.
  - intros ->. discriminate.
Qed.

Lemma split_join (rel : path) :
  rel <> [] -> forallb valid_name rel = true ->
  Text.split slash (Text.join [slash] rel) = rel.
Proof.
  induction rel as [|w rel IH]; [congruence|]. intros _ Hv.
  simpl in Hv. apply andb_true_iff in Hv. destruct Hv as [Hw Hv].
  destruct (valid_name_no_slash w Hw) as [Hs _].
  destruct rel as [|w2 rel].
  - simpl. now apply split_no_sep.
  - change (Text.join [slash] (w :: w2 :: rel))
      with (w ++ slash :: Text.join [slash] (w2 :: rel)).
    rewrite (split_app_sep slash w _ Hs), IH; [reflexivity | discriminate|exact Hv].
Qed.

Lemma lstrip_char_id (c : ascii) (s : text) :
  startswith s [c] = false -> lstrip_char c s = s.
Proof.
  destruct s as [|x s]; simpl; [reflexivity|].
  rewrite andb_true_r. now intros ->.
Qed.

Lemma strip_char_id (c : ascii) (s : text) :
  startswith s [c] = false -> endswith s [c] = false -> strip_char c s = s.
Proof.
  intros Hs He. unfold strip_char. rewrite (lstrip_char_id c s Hs).
  unfold endswith in He. simpl in He.
  rewrite (lstrip_char_id c (rev s) He). apply rev_involutive.
Qed.

Lemma join_no_leading_slash (rel : path) :
  forallb valid_name rel = true ->
  startswith (Text.join [slash] rel) [slash] = false.
Proof.
  destruct rel as [|w rel]; [reflexivity|]. simpl forallb.
  rewrite andb_true_iff. intros [Hw _].
  destruct (valid_name_no_slash w Hw) as (Hs & Hne & _).
  destruct w as [|x w]; [congruence|]. simpl in Hs.
  apply orb_false_iff in Hs. destruct Hs as [Hx _].
  destruct rel; simpl; now rewrite Ascii.eqb_sym, Hx.
Qed.

Lemma parts_join (rel : path) :
  forallb valid_name rel = true -> parts (Text.join [slash] rel) = rel.
Proof.
  intros Hv. pose proof (join_no_leading_slash rel Hv) as Hs.
  destruct rel as [|w rel]; [reflexivity|].
  unfold parts.
  replace (startswith (Text.join [slash] (w :: rel)) [slash; slash])
    with false.
  - cbv beta iota delta [andb]. rewrite split_join; [|discriminate | exact Hv].
    apply forallb_filter_id. rewrite forallb_forall in *. intros k Hk.
    destruct (valid_name_no_slash k (Hv k Hk)) as (_ & Hne & Hdot).
    apply text_eqb_neq in Hne, Hdot. now rewrite Hne, Hdot.
  - destruct (Text.join [slash] (w :: rel)) as [|c s]; [reflexivity|].
    simpl in *. destruct (Ascii.eqb c slash); [discriminate | reflexivity].
Qed.

Lemma endswith_app_r (a b p : text) :
  List.length p <= List.length b -> endswith (a ++ b) p = endswith b p.
Proof.
  intros Hlen. unfold endswith. rewrite rev_app_distr.
  assert (List.length (rev p) <= List.length (rev b)) as H
      by now rewrite !length_rev.
  revert H. generalize (rev b) as rb, (rev p) as rp, (rev a) as ra.
  intros rb rp. revert rb. induction rp as [|y rp IH]; intros rb ra H.
  - reflexivity.
  - destruct rb as [|x rb]; simpl in *; [lia|].
    rewrite IH; [reflexivity | lia].
Qed.

Lemma join_no_trailing_slash (rel : path) :
  forallb valid_name rel = true ->
  endswith (Text.join [slash] rel) [slash] = false.
Proof.
  induction rel as [|w rel IH]; [reflexivity|]. simpl forallb.
  rewrite andb_true_iff. intros [Hw Hv].
  destruct (valid_name_no_slash w Hw) as (Hs & Hne & _).
  assert (endswith w [slash] = false) as Hend.
  { destruct (endswith w [slash]) eqn:E; [|reflexivity].
    apply endswith_iff in E. destruct E as [q ->].
    rewrite existsb_app in Hs. apply orb_false_iff in Hs.
    destruct Hs as [_ Hs]. cbn [existsb] in Hs.
    rewrite Ascii.eqb_refl in Hs. discriminate. }
  destruct rel as [|w2 rel]; [exact Hend|].
  change (Text.join [slash] (w :: w2 :: rel))
    with (w ++ [slash] ++ Text.join [slash] (w2 :: rel)).
  rewrite app_assoc, endswith_app_r; [now apply IH|].
  simpl in Hv. apply andb_true_iff in Hv. destruct Hv as [Hw2 _].
  destruct (valid_name_no_slash w2 Hw2) as (_ & Hne2 & _).
  destruct w2; [congruence|]. destruct rel; simpl; lia.
Qed.

Lemma strip_join (rel : path) :
  forallb valid_name rel = true ->
  strip_char slash (Text.join [slash] rel) = Text.join [slash] rel.
Proof.
  intros Hv. apply strip_char_id.
  - now apply join_no_leading_slash.
  - now apply join_no_trailing_slash.
Qed.

Lemma read_text_is_file (fs : node) (p : path) (c : text) :
  read_text fs p = Some c -> is_file fs p = true.
Proof.
  unfold read_text, is_file. destruct (stat fs p) as [[[d|]|es]|];
    try discriminate; reflexivity.
Qed.

(** A file of the vault is found under the string of its relative path. *)
Lemma resolve_path_of_file (fs : node) (v : Vault.t) (rel : path) :
  Vault.ok fs v = true ->
  rel <> [] -> forallb valid_name rel = true ->
  is_file fs (root v ++ rel) = true ->
  resolve_path fs v (str_rel rel) = Ok (Some (root v ++ rel)).
Proof.
  intros Hok Hne Hv Hf. unfold resolve_path, str_rel.
  destruct rel as [|w rel]; [congruence|].
  rewrite (strip_join _ Hv). unfold exact_match, joinpath.
  rewrite (join_no_leading_slash _ Hv), (parts_join _ Hv), Hf.
  rewrite within_vault_plain; [reflexivity|].
  rewrite forallb_app, Hv, (ok_root_valid fs v Hok). reflexivity.
Qed.

(** *** Every resolved path lies, as a list of components, below the root *)

Lemma lstrip_char_head (c : ascii) (s : text) :
  startswith (lstrip_char c s) [c] = false.
Proof.
  induction s as [|x s IH]; simpl; [reflexivity|].
  destruct (Ascii.eqb x c) eqn:E; [exact IH|].
  simpl. now rewrite E.
Qed.

Lemma strip_char_head (c : ascii) (s : text) :
  startswith (strip_char c s) [c] = false.
Proof.
  unfold strip_char. pose proof (lstrip_char_head c s) as H.
  destruct (lstrip_char c s) as [|x t]; [reflexivity|].
  simpl in H. rewrite andb_true_r in H.
  assert (x <> c) as Hx by (now apply Ascii.eqb_neq).
  simpl rev at 2. rewrite (lstrip_char_keep c x (rev t) [] Hx).
  rewrite rev_app_distr. simpl. now rewrite H.
Qed.

Lemma startswith_app_l (a b : text) (c : ascii) :
  startswith a [c] = false -> startswith b [c] = false ->
  startswith (a ++ b) [c] = false.
Proof. destruct a; simpl; auto. Qed.


Lemma rglob_md (fs : node) (base : path) :
  rglob fs base (T "*.md") = Some (select_from fs base (T "*.md")).
Proof. reflexivity. Qed.

Lemma rglob_star (fs : node) (base : path) :
  rglob fs base (T "*") = Some (select_from fs base (T "*")).
Proof. reflexivity. Qed.








(** *** Deduplication keeps a representative of every target *)

Lemma dedup_from_covers (seen targets : list text) (t : text) :
  In t targets ->
  In (lower t) seen \/
  exists t', In t' (dedup_from seen targets) /\ lower t' = lower t.
Proof.
  revert seen; induction targets as [|x ts IH]; intros seen; [contradiction|].
  simpl. intros [->|Hin].
  - destruct (existsb (Text.eqb (lower t)) seen) eqn:E.
    + left. apply existsb_exists in E. destruct E as (s & Hs & Heq).
      apply text_eqb_eq in Heq. now subst.
    + right. exists t. split; [now left | reflexivity].
  - destruct (existsb (Text.eqb (lower x)) seen) eqn:E.
    + exact (IH seen Hin).
    + destruct (IH (lower x :: seen) Hin) as [[Hx|Hs]|(t' & Ht' & Hl)].
      * right. exists x. split; [now left | exact Hx].
      * now left.
      * right. exists t'. split; [now right | exact Hl].
Qed.

Lemma dedup_covers (targets : list text) (t : text) :
  In t targets -> exists t', In t' (dedup targets) /\ lower t' = lower t.
Proof.
  intros H. destruct (dedup_from_covers [] targets t H) as [[]|H']. exact H'.
Qed.


(** ** The wikilink pattern *)




Lemma drop_while_head (f : ascii -> bool) (s : text) :
  match drop_while f s with c :: _ => f c = false | [] => True end.
Proof.
  induction s as [|c s IH]; simpl; [exact I|].
  destruct (f c) eqn:E; [exact IH | exact E].
Qed.




(** The equations of the matcher. *)






Lemma run_Eps (R : Type) (s : text) (caps : captures)
      (k : text -> captures -> option R) :
  run Eps s caps k = k s caps.
Proof. reflexivity. Qed.













(** *** [read_token] reads the tokens of the description *)


Lemma read_close_complete (rest : text) :
  read_close (T "]]" ++ rest) = Some rest.
Proof. reflexivity. Qed.


Lemma read_alias_close (rest : text) :
  read_alias (T "]]" ++ rest) = Some rest.
Proof. reflexivity. Qed.











(** *** The scan of [findall] *)


Lemma parse_wikilinks_nil : parse_wikilinks [] = [].
Proof. reflexivity. Qed.








(** ** The pattern of a link to a renamed note *)


Lemma strip_prefix_i_length (p s rest : text) :
  strip_prefix_i p s = Some rest ->
  List.length s = List.length p + List.length rest.
Proof.
  revert s; induction p as [|y p IH]; intros s; simpl.
  - now intros [= ->].
  - destruct s as [|x s]; [discriminate|].
    destruct (Ascii.eqb (lower_char x) (lower_char y)); [|discriminate].
    intros H. apply IH in H. simpl. lia.
Qed.


Lemma read_delim_length (s d rest : text) :
  read_delim s = Some (d, rest) ->
  s = d ++ rest /\ 0 < List.length d.
Proof.
  unfold read_delim. destruct s as [|c s']; [discriminate|].
  destruct (Ascii.eqb (lower_char c) (lower_char "]")).
  - destruct s' as [|c2 s'']; [discriminate|].
    destruct (Ascii.eqb (lower_char c2) (lower_char "]")); [|discriminate].
    intros [= <- <-]. simpl. split; [reflexivity | lia].
  - destruct (Ascii.eqb (lower_char c) (lower_char "|")).
    + intros [= <- <-]. simpl. split; [reflexivity | lia].
    + destruct (Ascii.eqb (lower_char c) (lower_char "#")); [|discriminate].
      intros [= <- <-]. simpl. split; [reflexivity | lia].
Qed.








(** *** The scan of [sub] *)






Lemma read_link_nil (old_name : text) : read_link old_name [] = None.
Proof. reflexivity. Qed.






(** *** Names without marks *)




Lemma spells_length (old_name o : text) :
  spells old_name o -> List.length o = List.length old_name.
Proof.
  unfold spells. intros H. apply (f_equal (@List.length ascii)) in H.
  now rewrite !lower_length in H.
Qed.








(** *** What the substitution does to a text *)





(** *** No link to the old name is left *)




(** ** Writing a note *)

Lemma find_entry_set_same (k : text) (v : node) (es : list (text * node)) :
  find_entry k (set_entry k v es) = Some v.
Proof.
  induction es as [|[k' x] es IH]; simpl.
  - now rewrite text_eqb_refl.
  - destruct (Text.eqb k' k) eqn:E; simpl; rewrite E; [reflexivity | exact IH].
Qed.

Lemma find_entry_set_other (k k2 : text) (v : node) (es : list (text * node)) :
  k2 <> k -> find_entry k2 (set_entry k v es) = find_entry k2 es.
Proof.
  intros Hne. induction es as [|[k' x] es IH]; simpl.
  - apply not_eq_sym in Hne. apply text_eqb_neq in Hne. now rewrite Hne.
  - destruct (Text.eqb k' k) eqn:E; simpl.
    + apply text_eqb_eq in E. subst k'.
      apply not_eq_sym in Hne. apply text_eqb_neq in Hne. now rewrite Hne.
    + destruct (Text.eqb k' k2); [reflexivity | exact IH].
Qed.


Lemma file_text_put_other (p : path) (d d' : option text) :
  forall n q,
    lookup n p = Some (File d) -> q <> p ->
    file_text (lookup (put p (File d') n) q) = file_text (lookup n q).
Proof.
  induction p as [|c p IH]; intros n q Hl Hne.
  - simpl in Hl. injection Hl as ->. simpl.
    destruct q as [|c q]; [congruence | reflexivity].
  - simpl in Hl. destruct n as [dn|es]; [discriminate|].
    destruct (find_entry c es) as [ch|] eqn:E; [|discriminate].
    destruct q as [|c2 q].
    + destruct p; cbn [put]; [reflexivity | now rewrite E].
    + destruct (Text.eqb c2 c) eqn:Ec.
      * apply text_eqb_eq in Ec. subst c2.
        assert (q <> p) as Hqp by congruence.
        destruct p as [|c3 p].
        -- cbn [put lookup]. rewrite find_entry_set_same, E.
           simpl in Hl. injection Hl as ->.
           destruct q; [congruence | reflexivity].
        -- cbn [put]. rewrite E. cbn [lookup].
           rewrite find_entry_set_same, E. now apply IH.
      * apply text_eqb_neq in Ec.
        destruct p as [|c3 p]; cbn [put]; [|rewrite E]; cbn [lookup];
          now rewrite (find_entry_set_other c c2 _ es Ec).
Qed.

Lemma lookup_parent (n : node) (p : path) (m : node) :
  lookup n p = Some m -> p <> [] ->
  exists es, lookup n (removelast p) = Some (Dir es).
Proof.
  intros H Hne. rewrite (app_removelast_last [] Hne), lookup_app in H.
  destruct (lookup n (@removelast (list ascii) p)) as [[d|es]|] eqn:E.
  - simpl in H. discriminate H.
  - exists es. exact E.
  - discriminate H.
Qed.

Lemma plain_removelast (p : path) : plain p -> plain (removelast p).
Proof.
  intros H. destruct p as [|c p]; [constructor|].
  assert (c :: p <> []) as Hne by discriminate.
  rewrite (app_removelast_last [] Hne) in H. now apply plain_app in H.
Qed.

Lemma plain_last (p : path) : plain p -> p <> [] -> last p [] <> dotdot.
Proof.
  intros H Hne. rewrite (app_removelast_last [] Hne) in H.
  apply plain_app in H. destruct H as [_ H]. now inversion H.
Qed.

Lemma read_text_plain (fs : node) (p : path) :
  plain p -> read_text fs p = file_text (lookup fs p).
Proof. intros H. unfold read_text. now rewrite stat_plain. Qed.

Lemma walk_plain_exists (fs : node) (q : path) :
  plain q -> lookup fs q <> None -> walk fs [] q = inr q.
Proof.
  intros Hq Hl. pose proof (walk_plain fs q Hq []) as Hw.
  destruct (walk fs [] q) as [e|c] eqn:Ew.
  - simpl in Hw. congruence.
  - apply (walk_plain_inr fs q Hq) in Ew. now subst c.
Qed.

Lemma locate_new_plain (fs : node) (p : path) (m : node) :
  plain p -> p <> [] -> lookup fs p = Some m -> locate_new fs p = inr p.
Proof.
  intros Hp Hne Hl. destruct (lookup_parent fs p m Hl Hne) as [es Hes].
  assert (walk fs [] (removelast p) = inr (removelast p)) as Hw.
  { apply walk_plain_exists; [now apply plain_removelast|]. now rewrite Hes. }
  pose proof (plain_last p Hp Hne) as Hlast. apply text_eqb_neq in Hlast.
  pose proof (app_removelast_last [] Hne) as Hsplit.
  unfold locate_new. destruct p as [|x p']; [congruence|].
  unfold text, path in *. rewrite Hw, Hes, Hlast. now rewrite <- Hsplit.
Qed.


(** ** The rewrite loops *)



(* ================================================================= *)
(** * The claims of the specification *)

Import Samples.

(** ** C1: containment of resolved paths *)

(** C1.  The containment check compares strings: with the vault at
    [/srv/vault], the reference [../vault-backup/secret] resolves to a
    file whose canonical location [/srv/vault-backup/secret.md] is not
    below the root, and [ensure_path] returns the path
    [../vault-backup/new.md] in the same place, although the reference
    [../../etc/passwd] of the test suite is refused by both. *)
Theorem C1_prefix_check_lets_sibling_through :
  let escaped := [T "srv"; T "vault"; T ".."; T "vault-backup"; T "secret.md"] in
  let created := [T "srv"; T "vault"; T ".."; T "vault-backup"; T "new.md"] in
  Vault.ok fs_sibling vault_srv = true /\
  resolve_path fs_sibling vault_srv (T "../vault-backup/secret")
  = Ok (Some escaped) /\
  PurePath.resolve escaped = [T "srv"; T "vault-backup"; T "secret.md"] /\
  relative_to (PurePath.resolve escaped) (root vault_srv) = None /\
  snd (ensure_path fs_sibling vault_srv (T "../vault-backup/new")) = inr created /\
  relative_to (PurePath.resolve created) (root vault_srv) = None /\
  resolve_path tmp_vault vault (T "../../etc/passwd") = Ok None /\
  snd (ensure_path tmp_vault vault (T "../../escape"))
  = inl (PathEscape (T "../../escape.md")).
Proof. vm_compute. repeat split; reflexivity. Qed.

(** ** C7: unreadable notes during a scan *)

(** C7.  In a vault with a note that does not decode, [update_wikilinks]
    skips the note and returns its count, but [move_note] raises from its
    own rewrite loop: the note is already moved, [a.md] is already
    rewritten, and [z.md] still carries the old link. *)
Theorem C7_move_note_aborts_on_unreadable_note :
  let after_update := fst (update_wikilinks fs_undecodable vault (T "ideas") (T "brainstorm")) in
  let after_move := fst (move_note fs_undecodable vault (T "ideas") (T "brainstorm")) in
  Vault.ok fs_undecodable vault = true /\
  read_text fs_undecodable [T "vault"; T "broken.md"] = None /\
  snd (update_wikilinks fs_undecodable vault (T "ideas") (T "brainstorm")) = Ok 2 /\
  read_text after_update [T "vault"; T "z.md"] = Some (T "Also [[brainstorm|the ideas]].") /\
  snd (move_note fs_undecodable vault (T "ideas") (T "brainstorm"))
  = Raise UnicodeDecodeError /\
  read_text after_move [T "vault"; T "brainstorm.md"] = Some (T "# Ideas") /\
  read_text after_move [T "vault"; T "a.md"] = Some (T "See [[brainstorm]].") /\
  read_text after_move [T "vault"; T "z.md"] = Some (T "Also [[ideas|the ideas]].").
Proof. vm_compute. repeat split; reflexivity. Qed.

(** ** C9: a reference with and without the extension *)

(** C9, as stated, fails when the reference without extension names a
    file itself: with both [notes] and [notes.md] in the vault, [notes]
    resolves to the plain file and [notes.md] to the note. *)
Lemma C9_counterexample :
  let r := T "notes" in
  endswith r md = false /\
  is_file fs_plain (joinpath (root vault) r) = true /\
  is_file fs_plain (joinpath (root vault) (r ++ md)) = true /\
  resolve_path fs_plain vault r = Ok (Some [T "vault"; T "notes"]) /\
  resolve_path fs_plain vault (r ++ md)
  = Ok (Some [T "vault"; T "notes.md"]) /\
  resolve_path fs_plain vault r <> resolve_path fs_plain vault (r ++ md).
Proof. vm_compute. repeat split; try reflexivity. discriminate. Qed.

(** C9, amended.  For a reference [r] that lacks the extension and does
    not end in a slash: when [r] itself is not a file of the vault and
    [r] followed by [.md] is, both references resolve to that file. *)
Theorem C9_extension_is_appended (fs : node) (v : Vault.t) (r : text) :
  let plain_form := joinpath (root v) (strip_char slash r) in
  let extensioned := joinpath (root v) (strip_char slash (r ++ md)) in
  endswith r md = false ->
  endswith r [slash] = false ->
  is_file fs plain_form && _is_within_vault v plain_form = false ->
  is_file fs extensioned && _is_within_vault v extensioned = true ->
  resolve_path fs v r = Ok (Some extensioned) /\
  resolve_path fs v (r ++ md) = Ok (Some extensioned).
Proof.
  intros plain_form extensioned Hmd Hslash Hplain Hext.
  subst plain_form extensioned.
  destruct (strip_char_app_md r Hslash) as [E Hend].
  specialize (Hend Hmd). unfold resolve_path, exact_match. split.
  - rewrite Hplain, Hend. rewrite E in Hext. simpl negb. cbv iota.
    rewrite Hext. simpl. now rewrite E.
  - now rewrite Hext.
Qed.

Lemma C9_extension_is_appended_witness :
  resolve_path tmp_vault vault (T "Projects/spec")
  = Ok (Some [T "vault"; T "Projects"; T "spec.md"]) /\
  resolve_path tmp_vault vault (T "Projects/spec" ++ md)
  = Ok (Some [T "vault"; T "Projects"; T "spec.md"]).
Proof.
  apply (C9_extension_is_appended tmp_vault vault (T "Projects/spec"));
    reflexivity.
Defined.

(** ** C4: repeatable resolution and the tie-break *)




(** ** C3: excluded directories and resolution by name *)




(** ** C6: backlinks and outgoing links *)


(** ** C8: the listing of a folder *)


(** ** C2: renaming and the links to the renamed note *)




(** ** C10: one backlink line per note *)

(** C10.  In the report of [get_backlinks] no note appears twice, and a
    note is reported exactly when it is listed, is not the target, can be
    read, and has a link target that names the target note; its line is
    built from the first such target in the order of the text, whatever
    targets follow. *)
Theorem C10_one_backlink_per_note
        (fs : node) (v : Vault.t) (p : text) (target_rel : path)
        (results : list backlink) :
  Vault.ok fs v = true ->
  get_backlinks fs v p = Ok (BackLinks target_rel results) ->
  exists resolved notes,
    resolve_path fs v p = Ok (Some resolved) /\
    iter_notes fs v [] true 100 = Some notes /\
    NoDup (map note_rel results) /\
    forall b,
      In b results <->
      exists note content t,
        In note notes /\ note <> resolved /\
        read_text fs note = Some content /\
        find (links_to (stem resolved)) (parse_wikilinks content) = Some t /\
        relative_to note (root v) = Some (note_rel b) /\
        context b = context_line content t.
Proof.
  intros Hok. unfold get_backlinks.
  destruct (resolve_path fs v p) as [[resolved|]|e]; try discriminate.
  destruct (relative_to resolved (root v)) as [rel|]; [|discriminate].
  destruct (ok_iter_notes fs v 100 Hok) as (notes & Hnotes & Hnd & _).
  rewrite Hnotes.
  destruct (scan_backlinks fs v resolved (stem resolved) notes)
    as [rs|] eqn:Es; [|discriminate].
  intros H. assert (rs = results) as -> by (destruct rs; congruence).
  exists resolved, notes. split; [reflexivity|]. split; [reflexivity|]. split.
  - exact (scan_backlinks_NoDup fs v resolved _ notes results Hnd Es).
  - exact (scan_backlinks_spec fs v resolved _ notes results Es).
Qed.

Lemma C10_one_backlink_per_note_witness :
  exists resolved notes,
    resolve_path tmp_vault vault (T "Projects/ideas") = Ok (Some resolved) /\
    iter_notes tmp_vault vault [] true 100 = Some notes /\
    NoDup (map note_rel [{| note_rel := [T "Projects"; T "spec.md"];
                            context := Some (T "See also [[ideas]].") |}]) /\
    forall b,
      In b [{| note_rel := [T "Projects"; T "spec.md"];
               context := Some (T "See also [[ideas]].") |}] <->
      exists note content t,
        In note notes /\ note <> resolved /\
        read_text tmp_vault note = Some content /\
        find (links_to (stem resolved)) (parse_wikilinks content) = Some t /\
        relative_to note (root vault) = Some (note_rel b) /\
        context b = context_line content t.
Proof.
  apply (C10_one_backlink_per_note tmp_vault vault (T "Projects/ideas")
                                   [T "Projects"; T "ideas.md"]);
    reflexivity.
Defined.



(** ** C5: extraction of wikilink targets *)





(* ================================================================= *)
(** * Properties of the further operations *)

(** ** The file system under a change *)

Lemma extends_refl (fs : node) : extends fs fs.
Proof. intros x n H. now exists n. Qed.

Lemma extends_trans (a b c : node) : extends a b -> extends b c -> extends a c.
Proof.
  intros Hab Hbc x n H. destruct (Hab x n H) as (n1 & H1 & E1).
  destruct (Hbc x n1 H1) as (n2 & H2 & E2). exists n2. split; [exact H2|congruence].
Qed.

Lemma walk_extends (fs fs' : node) :
  extends fs fs' ->
  forall p cur d, walk fs cur p = inr d -> walk fs' cur p = inr d.
Proof.
  intros Hx. induction p as [|c p IH]; intros cur d; simpl; [auto|].
  destruct (lookup fs cur) as [[f|es]|] eqn:E; try discriminate.
  destruct (Hx cur _ E) as ([f'|es'] & -> & Hk); [discriminate|].
  destruct (Text.eqb c []); [apply IH|].
  destruct (Text.eqb c dotdot); [apply IH|].
  destruct (lookup fs (cur ++ [c])) as [m|] eqn:E2; [|discriminate].
  destruct (Hx _ _ E2) as (m' & -> & _). apply IH.
Qed.

Lemma stat_extends (fs fs' : node) (p : path) (n : node) :
  extends fs fs' -> stat fs p = Some n ->
  exists n', stat fs' p = Some n' /\ is_Dir n' = is_Dir n.
Proof.
  intros Hx. unfold stat. destruct (walk fs [] p) as [e|d] eqn:E; [discriminate|].
  rewrite (walk_extends fs fs' Hx p [] d E). apply Hx.
Qed.

Lemma is_dir_extends (fs fs' : node) (p : path) :
  extends fs fs' -> is_dir fs p = true -> is_dir fs' p = true.
Proof.
  intros Hx. unfold is_dir. destruct (stat fs p) as [[f|es]|] eqn:E; try discriminate.
  destruct (stat_extends fs fs' p _ Hx E) as ([f'|es'] & -> & Hk); [discriminate|reflexivity].
Qed.

Lemma is_file_extends (fs fs' : node) (p : path) :
  extends fs fs' -> is_file fs p = true -> is_file fs' p = true.
Proof.
  intros Hx. unfold is_file. destruct (stat fs p) as [[f|es]|] eqn:E; try discriminate.
  destruct (stat_extends fs fs' p _ Hx E) as ([f'|es'] & -> & Hk); [reflexivity|discriminate].
Qed.

(** Storing [v] at [q] keeps every path when [v] has what was below
    [q]. *)
Lemma put_extends (q : path) (v : node) :
  forall fs,
    (forall x n, lookup fs (q ++ x) = Some n ->
                 exists n', lookup v x = Some n' /\ is_Dir n' = is_Dir n) ->
    extends fs (put q v fs).
Proof.
  induction q as [|c q IH]; intros fs H; [exact H|].
  destruct fs as [f|es]; [apply extends_refl|].
  intros x n Hl. destruct q as [|c' q].
  - cbn [put]. destruct x as [|c2 x].
    + simpl in Hl. injection Hl as <-. eexists. split; reflexivity.
    + cbn [lookup] in *. destruct (Text.eqb c2 c) eqn:Ec.
      * apply text_eqb_eq in Ec. subst c2. rewrite find_entry_set_same.
        apply (H x n). simpl. exact Hl.
      * apply text_eqb_neq in Ec. rewrite (find_entry_set_other c c2 v es Ec).
        now exists n.
  - cbn [put]. destruct (find_entry c es) as [ch|] eqn:E; [|now exists n].
    destruct x as [|c2 x].
    + simpl in Hl. injection Hl as <-. eexists. split; reflexivity.
    + cbn [lookup] in *. destruct (Text.eqb c2 c) eqn:Ec.
      * apply text_eqb_eq in Ec. subst c2. rewrite find_entry_set_same.
        rewrite E in Hl. apply (IH ch); [|exact Hl].
        intros y m Hy. apply (H y m). cbn [app lookup]. rewrite E. exact Hy.
      * apply text_eqb_neq in Ec.
        rewrite (find_entry_set_other c c2 _ es Ec). now exists n.
Qed.

Lemma lookup_below_file (fs : node) (q x : path) (n : node) :
  (forall es, lookup fs q <> Some (Dir es)) ->
  lookup fs (q ++ x) = Some n -> x = [] /\ exists d, n = File d.
Proof.
  intros Hq. rewrite lookup_app. destruct (lookup fs q) as [[d|es]|] eqn:E.
  - destruct x; simpl; [|discriminate]. intros [= <-]. split; [reflexivity|now exists d].
  - now destruct (Hq es).
  - discriminate.
Qed.

Lemma put_file_extends (fs : node) (q : path) (d : option text) :
  (forall es, lookup fs q <> Some (Dir es)) ->
  extends fs (put q (File d) fs).
Proof.
  intros Hq. apply put_extends. intros x n H.
  destruct (lookup_below_file fs q x n Hq H) as [-> [d0 ->]].
  eexists. split; reflexivity.
Qed.

Lemma put_dir_extends (fs : node) (q : path) :
  lookup fs q = None -> extends fs (put q (Dir []) fs).
Proof.
  intros Hq. apply put_extends. intros x n H.
  rewrite lookup_app, Hq in H. discriminate.
Qed.

(** What is stored at a path whose parent is a directory is found
    there. *)
Lemma lookup_put_new (q : path) (v : node) :
  forall fs es, q <> [] -> lookup fs (removelast q) = Some (Dir es) ->
                lookup (put q v fs) q = Some v.
Proof.
  induction q as [|c q IH]; intros fs es Hne Hp; [congruence|].
  destruct q as [|c' q].
  - simpl in Hp. injection Hp as ->. simpl. now rewrite find_entry_set_same.
  - change (removelast (c :: c' :: q)) with (c :: removelast (c' :: q)) in Hp.
    cbn [lookup] in Hp. destruct fs as [f|es0]; [discriminate|].
    destruct (find_entry c es0) as [ch|] eqn:E; [|discriminate].
    cbn [put]. rewrite E. cbn [lookup]. rewrite find_entry_set_same.
    apply (IH ch es); [discriminate | exact Hp].
Qed.

(** Storing a file where no directory is leaves the text of every other
    file as it was. *)
Lemma file_text_put_file (q : path) (d : option text) :
  forall fs x,
    (forall es, lookup fs q <> Some (Dir es)) -> x <> q ->
    file_text (lookup (put q (File d) fs) x) = file_text (lookup fs x).
Proof.
  induction q as [|c q IH]; intros fs x Hq Hne.
  - simpl in *. destruct fs as [f|es]; [|now destruct (Hq es)].
    destruct x; [congruence | reflexivity].
  - destruct fs as [f|es]; [reflexivity|].
    destruct q as [|c' q].
    + cbn [put]. destruct x as [|c2 x]; [reflexivity|].
      cbn [lookup]. destruct (Text.eqb c2 c) eqn:Ec.
      * apply text_eqb_eq in Ec. subst c2. rewrite find_entry_set_same.
        destruct x as [|y x]; [congruence|].
        simpl in Hq. destruct (find_entry c es) as [[f|es']|]; try reflexivity.
        now destruct (Hq es').
      * apply text_eqb_neq in Ec. now rewrite (find_entry_set_other c c2 _ es Ec).
    + cbn [put]. destruct (find_entry c es) as [ch|] eqn:E; [|reflexivity].
      destruct x as [|c2 x]; [reflexivity|].
      cbn [lookup]. destruct (Text.eqb c2 c) eqn:Ec.
      * apply text_eqb_eq in Ec. subst c2. rewrite find_entry_set_same, E.
        apply IH; [|congruence].
        intros es' H. apply (Hq es'). cbn [lookup]. now rewrite E.
      * apply text_eqb_neq in Ec. now rewrite (find_entry_set_other c c2 _ es Ec).
Qed.

(** The place that [write_text] writes to. *)
Lemma write_text_inv (fs fs' : node) (p : path) (c : text) :
  write_text fs p c = Some fs' ->
  exists d es,
    p <> [] /\ walk fs [] (removelast p) = inr d /\
    lookup fs d = Some (Dir es) /\ last p [] <> dotdot /\
    (forall es', lookup fs (d ++ [last p []]) <> Some (Dir es')) /\
    fs' = put (d ++ [last p []]) (File (Some c)) fs.
Proof.
  unfold write_text, locate_new. destruct p as [|x p]; [discriminate|].
  destruct (walk fs [] (removelast (x :: p))) as [e|d] eqn:Ew; [discriminate|].
  destruct (lookup fs d) as [[f|es]|] eqn:Ed; try discriminate.
  destruct (Text.eqb (last (x :: p) []) dotdot) eqn:El; [discriminate|].
  apply text_eqb_neq in El.
  destruct (lookup fs (d ++ [last (x :: p) []])) as [[f|es']|] eqn:Eq;
    try discriminate; intros [= <-]; exists d, es;
    repeat split; auto; try discriminate; intros es''; congruence.
Qed.

Lemma removelast_snoc {A : Type} (l : list A) (a : A) : removelast (l ++ [a]) = l.
Proof. apply removelast_last. Qed.


(** ** Lines and replacement *)



Lemma contains_iff (s p : text) :
  contains s p = true <-> exists pre post, s = pre ++ p ++ post.
Proof.
  induction s as [|c s IH].
  - simpl. rewrite orb_false_r, startswith_iff. split.
    + intros [r H]. now exists [], r.
    + intros (pre & post & H). destruct pre; [now exists post|discriminate].
  - cbn [contains]. rewrite orb_true_iff, startswith_iff, IH. split.
    + intros [[r H]|(pre & post & H)].
      * now exists [], r.
      * exists (c :: pre), post. now rewrite H.
    + intros (pre & post & H). destruct pre as [|x pre].
      * left. now exists post.
      * right. injection H as _ H. now exists pre, post.
Qed.



Lemma replace_first_absent (old new s : text) :
  contains s old = false -> replace_first old new s = s.
Proof.
  induction s as [|c s IH]; cbn [contains replace_first]; intros H.
  - apply orb_false_iff in H. destruct H as [H _]. now rewrite H.
  - apply orb_false_iff in H. destruct H as [H H']. rewrite H. f_equal. now apply IH.
Qed.


Lemma In_firstn {A : Type} (n : nat) (l : list A) (x : A) :
  In x (firstn n l) -> In x l.
Proof.
  intros H. rewrite <- (firstn_skipn n l). apply in_or_app. now left.
Qed.

(** ** Writing a note *)

Lemma split_app_last (c : ascii) (a b : text) :
  existsb (Ascii.eqb c) b = false ->
  Text.split c (a ++ b)
  = removelast (Text.split c a) ++ [last (Text.split c a) [] ++ b].
Proof.
  intros Hb. induction a as [|x a IH].
  - simpl. induction b as [|y b IHb]; [reflexivity|].
    simpl in Hb. apply orb_false_iff in Hb. destruct Hb as [Hy Hb].
    simpl. rewrite Ascii.eqb_sym, Hy. simpl in IHb. now rewrite (IHb Hb).
  - cbn [app Text.split]. destruct (Ascii.eqb x c).
    + rewrite IH. pose proof (split_nonempty c a) as Hne.
      destruct (Text.split c a) as [|w ws]; [congruence|]. reflexivity.
    + rewrite IH. pose proof (split_nonempty c a) as Hne.
      destruct (Text.split c a) as [|w ws]; [congruence|].
      destruct ws as [|w2 ws]; reflexivity.
Qed.

Lemma last_filter_snoc {A : Type} (f : A -> bool) (l : list A) (a d : A) :
  f a = true -> last (filter f (l ++ [a])) d = a.
Proof.
  intros H. rewrite filter_app. simpl. rewrite H.
  apply last_last.
Qed.

(** The last component of a path read from a string that ends in
    [.md] ends in [.md]. *)
Lemma parts_md_last (s : text) :
  endswith s md = true ->
  exists w, last (parts s) [] = w ++ md /\ parts s <> [].
Proof.
  intros H. apply endswith_iff in H. destruct H as [r ->].
  assert (exists w, last (filter (fun w => negb (Text.eqb w []) && negb (Text.eqb w dot))
                                 (Text.split slash (r ++ md))) [] = w ++ md /\
                    filter (fun w => negb (Text.eqb w []) && negb (Text.eqb w dot))
                           (Text.split slash (r ++ md)) <> []) as (w & Hw & Hne).
  { rewrite (split_app_last slash r md eq_refl).
    exists (last (Text.split slash r) []). split.
    - apply last_filter_snoc.
      destruct (last (Text.split slash r) []) as [|x [|y l]]; try reflexivity;
        simpl; destruct (Ascii.eqb x "."); reflexivity.
    - rewrite filter_app. intros C. apply app_eq_nil in C. destruct C as [_ C].
      simpl in C.
      destruct (last (Text.split slash r) []) as [|x [|y l]]; try discriminate;
        simpl in C; destruct (Ascii.eqb x "."); discriminate. }
  exists w. unfold parts.
  destruct (startswith (r ++ md) [slash; slash] &&
            negb (startswith (r ++ md) [slash; slash; slash])).
  - split; [|discriminate].
    destruct (filter _ _) as [|a l] eqn:E; [congruence|]. exact Hw.
  - split; assumption.
Qed.


(** What [ensure_path] returns, when it returns a path. *)
Lemma ensure_path_inv (fs fs1 : node) (v : Vault.t) (p : text) (full : path) :
  ensure_path fs v p = (fs1, inr full) ->
  exists vr,
    vr = (if endswith (strip_char slash p) md then strip_char slash p
          else strip_char slash p ++ md) /\
    endswith vr md = true /\
    full = root v ++ parts vr /\
    parts vr <> [] /\
    _is_within_vault v full = true /\
    mkdir_parents fs (parent full) = (fs1, None).
Proof.
  unfold ensure_path.
  set (vr := if endswith (strip_char slash p) md then strip_char slash p
             else strip_char slash p ++ md).
  assert (endswith vr md = true) as Hmd.
  { unfold vr. destruct (endswith (strip_char slash p) md) eqn:E; [exact E|].
    apply endswith_iff. now exists (strip_char slash p). }
  assert (startswith vr [slash] = false) as Hs.
  { unfold vr. destruct (endswith (strip_char slash p) md).
    - apply strip_char_head.
    - apply startswith_app_l; [apply strip_char_head | reflexivity]. }
  unfold joinpath. rewrite Hs.
  destruct (_is_within_vault v (root v ++ parts vr)) eqn:Ew; [|discriminate].
  simpl. destruct (mkdir_parents fs (parent (root v ++ parts vr))) as [fs' [e|]] eqn:Em;
    [discriminate|].
  intros [= <- <-]. exists vr. repeat split; auto.
  destruct (parts_md_last vr Hmd) as (w & _ & Hne). exact Hne.
Qed.


(** ** A note of the vault, named by its path *)

Lemma note_plain (fs : node) (v : Vault.t) (rel : path) :
  Vault.ok fs v = true -> forallb valid_name rel = true ->
  plain (root v ++ rel).
Proof.
  intros Hok Hv. apply valid_names_plain.
  now rewrite forallb_app, (ok_root_valid fs v Hok), Hv.
Qed.

Lemma note_relative (v : Vault.t) (rel : path) :
  forallb valid_name rel = true ->
  relative_to (root v ++ rel) (root v) = Some rel.
Proof. intros Hv. apply relative_to_app. now apply valid_names_unanchored. Qed.

Lemma note_nonempty (v : Vault.t) (rel : path) : rel <> [] -> root v ++ rel <> [].
Proof. intros H C. apply app_eq_nil in C. tauto. Qed.

Lemma note_resolves (fs : node) (v : Vault.t) (rel : path) (c : text) :
  Vault.ok fs v = true -> rel <> [] -> forallb valid_name rel = true ->
  read_text fs (root v ++ rel) = Some c ->
  resolve_path fs v (str_rel rel) = Ok (Some (root v ++ rel)).
Proof.
  intros Hok Hne Hv Hr. apply resolve_path_of_file; auto.
  exact (read_text_is_file _ _ _ Hr).
Qed.


Lemma fresh_set_entry (k c : text) (v ch : node) (es : list (text * node)) :
  find_entry c es = Some ch -> fresh k (set_entry c v es) = fresh k es.
Proof.
  induction es as [|[k' x] es IH]; simpl; [discriminate|].
  destruct (Text.eqb k' c) eqn:E; simpl; [reflexivity|].
  intros H. now rewrite (IH H).
Qed.

Lemma wf_entries_set (c : text) (v ch : node) (es : list (text * node)) :
  wf_entries es = true -> find_entry c es = Some ch -> wf v = true ->
  wf_entries (set_entry c v es) = true.
Proof.
  induction es as [|[k' x] es IH]; simpl; [discriminate|].
  rewrite !andb_true_iff. intros [[[Hk Hf] Hx] Hes].
  destruct (Text.eqb k' c) eqn:E; simpl.
  - intros _ Hv. now rewrite Hk, Hf, Hv, Hes.
  - intros Hc Hv. now rewrite Hk, (fresh_set_entry k' c v ch es Hc), Hf, Hx, IH.
Qed.



(** ** Editing *)




(** ** Appending *)






Lemma find_section_none (heading : text) (lines : list text) :
  Forall (fun l => is_heading heading (strip l) = false) lines ->
  forall i, find_section heading i lines = None.
Proof.
  induction 1 as [|l lines Hl _ IH]; intros i; cbn [find_section];
    [reflexivity|].
  now rewrite Hl.
Qed.

Lemma find_section_bound (heading : text) (lines : list text) :
  forall i idx, find_section heading i lines = Some idx ->
                i < idx <= i + List.length lines.
Proof.
  induction lines as [|l lines IH]; intros i idx; cbn [find_section];
    [discriminate|].
  destruct (is_heading heading (strip l)).
  - intros [= <-]. clear IH.
    assert (forall j, j <= section_end (level (strip l)) j lines
                      <= j + List.length lines) as H.
    { induction lines as [|l2 lines IH2]; intros j; cbn [section_end];
        [simpl; lia|].
      destruct (_ && _); [simpl; lia|]. specialize (IH2 (S j)). simpl. lia. }
    specialize (H (S i)). simpl. lia.
  - intros H. apply IH in H. simpl. lia.
Qed.









(** ** Search *)

Lemma matching_lines_In (ql : text) (lines : list text) :
  forall k i t,
    In (i, t) (matching_lines ql k lines) <->
    exists line, k <= i /\ nth_error lines (i - k) = Some line /\
                 t = strip line /\ contains (lower line) ql = true.
Proof.
  induction lines as [|l lines IH]; intros k i t; cbn [matching_lines].
  - split; [contradiction|]. intros (line & _ & H & _).
    destruct (i - k); discriminate.
  - assert (In (i, t) (matching_lines ql (S k) lines) <->
            exists line, k <= i /\ i <> k /\
                         nth_error (l :: lines) (i - k) = Some line /\
                         t = strip line /\ contains (lower line) ql = true) as Hrest.
    { rewrite IH. split.
      - intros (line & Hk & Hn & Ht & Hc). exists line.
        replace (i - k) with (S (i - S k)) by lia. repeat split; auto; lia.
      - intros (line & Hk & Hne & Hn & Ht & Hc). exists line.
        replace (i - k) with (S (i - S k)) in Hn by lia.
        repeat split; auto; lia. }
    destruct (contains (lower l) ql) eqn:E.
    + cbn [In]. rewrite Hrest. split.
      * intros [[= <- <-]|(line & Hk & _ & H)].
        -- exists l. rewrite Nat.sub_diag. auto.
        -- exists line. auto.
      * intros (line & Hk & Hn & Ht & Hc).
        destruct (Nat.eq_dec i k) as [->|Hne].
        -- left. rewrite Nat.sub_diag in Hn. injection Hn as <-. now subst t.
        -- right. exists line. auto.
    + rewrite Hrest. split.
      * intros (line & Hk & _ & H). exists line. auto.
      * intros (line & Hk & Hn & Ht & Hc).
        destruct (Nat.eq_dec i k) as [->|Hne].
        -- rewrite Nat.sub_diag in Hn. injection Hn as <-. congruence.
        -- exists line. auto.
Qed.

(** What one run of the loop adds to [results]. *)
Lemma search_loop_spec (fs : node) (v : Vault.t) (ql : text) (base : path)
      (max_results : Z) (candidates : list path) :
  forall acc res,
    search_loop fs v ql base max_results candidates acc = Ok res ->
    exists new,
      res = acc ++ new /\
      (Z.of_nat (List.length res)
       <= Z.max (Z.of_nat (List.length acc) + 1) max_results)%Z /\
      (forall R : path -> path -> Prop,
          StronglySorted R candidates ->
          StronglySorted R (map (fun e => root v ++ fst e) new)) /\
      (forall e, In e new ->
         In (root v ++ fst e) candidates /\ listed v base (root v ++ fst e) /\
         exists content,
           read_text fs (root v ++ fst e) = Some content /\
           snd e = firstn 3 (matching_lines ql 1 (splitlines content)) /\
           snd e <> []) /\
      ((Z.of_nat (List.length res) < max_results)%Z ->
       forall note content,
         In note candidates -> listed v base note ->
         read_text fs note = Some content ->
         matching_lines ql 1 (splitlines content) <> [] ->
         exists rel, note = root v ++ rel /\
                     In (rel, firstn 3 (matching_lines ql 1 (splitlines content)))
                        new).
Proof.
  induction candidates as [|note rest IH]; intros acc res; cbn [search_loop].
  - intros [= <-]. exists []. rewrite app_nil_r. split; [reflexivity|].
    split; [lia|]. split; [intros; constructor|]. split; [contradiction|].
    intros _ note content [].
  - (* a step that adds nothing goes on with the rest *)
    assert (forall (Hskip : forall content,
                       listed v base note -> read_text fs note = Some content ->
                       matching_lines ql 1 (splitlines content) = []),
               search_loop fs v ql base max_results rest acc = Ok res ->
               exists new,
                 res = acc ++ new /\
                 (Z.of_nat (List.length res)
                  <= Z.max (Z.of_nat (List.length acc) + 1) max_results)%Z /\
                 (forall R : path -> path -> Prop,
                     StronglySorted R (note :: rest) ->
                     StronglySorted R (map (fun e => root v ++ fst e) new)) /\
                 (forall e, In e new ->
                    In (root v ++ fst e) (note :: rest) /\
                    listed v base (root v ++ fst e) /\
                    exists content,
                      read_text fs (root v ++ fst e) = Some content /\
                      snd e = firstn 3 (matching_lines ql 1 (splitlines content)) /\
                      snd e <> []) /\
                 ((Z.of_nat (List.length res) < max_results)%Z ->
                  forall note' content,
                    In note' (note :: rest) -> listed v base note' ->
                    read_text fs note' = Some content ->
                    matching_lines ql 1 (splitlines content) <> [] ->
                    exists rel, note' = root v ++ rel /\
                                In (rel, firstn 3 (matching_lines ql 1
                                                     (splitlines content)))
                                   new)) as Hgo.
    { intros Hskip Hrun.
      destruct (IH acc res Hrun) as (new & Hres & Hb & Hsort & Hsound & Hall).
      exists new. split; [exact Hres|]. split; [exact Hb|]. split; [|split].
      - intros R HR. apply Hsort. now apply StronglySorted_inv in HR.
      - intros e He. destruct (Hsound e He) as (Hin & Hrest). split; [now right|].
        exact Hrest.
      - intros Hlt note' content [<-|Hin] Hl Hr Hm.
        + now rewrite (Hskip content Hl Hr) in Hm.
        + exact (Hall Hlt note' content Hin Hl Hr Hm). }
    destruct (and_then (_should_include v note) (_within_depth note base 100))
      as [[|]|] eqn:Ec; [| |discriminate].
    + destruct (read_text fs note) as [content|] eqn:Er.
      * destruct (matching_lines ql 1 (splitlines content)) as [|m ms] eqn:Em.
        -- destruct (Z.of_nat (List.length acc) >=? max_results)%Z eqn:Eg.
           ++ intros [= <-]. exists []. rewrite app_nil_r.
              split; [reflexivity|]. split; [lia|].
              split; [intros; constructor|]. split; [contradiction|].
              intros Hlt. apply Z.geb_le in Eg. lia.
           ++ apply Hgo. intros content' _ Hr'. congruence.
        -- destruct (relative_to note (root v)) as [rel|] eqn:Erel;
             [|discriminate].
           apply relative_to_Some in Erel.
           set (e := (rel, firstn 3 (m :: ms))).
           assert (In (root v ++ fst e) (note :: rest) /\
                   listed v base (root v ++ fst e) /\
                   exists content0,
                     read_text fs (root v ++ fst e) = Some content0 /\
                     snd e = firstn 3 (matching_lines ql 1 (splitlines content0)) /\
                     snd e <> []) as He.
           { simpl fst. rewrite <- Erel. split; [now left|]. split; [exact Ec|].
             exists content. split; [exact Er|]. rewrite Em. split; [reflexivity|].
             discriminate. }
           destruct (Z.of_nat (List.length (acc ++ [e])) >=? max_results)%Z eqn:Eg.
           ++ intros [= <-]. exists [e]. split; [reflexivity|].
              split; [rewrite length_app; simpl; lia|].
              split; [intros; repeat constructor|].
              split; [intros e' [<-|[]]; exact He|].
              intros Hlt. apply Z.geb_le in Eg. lia.
           ++ intros Hrun.
              destruct (IH (acc ++ [e]) res Hrun)
                as (new & Hres & Hb & Hsort & Hsound & Hall).
              exists (e :: new). split; [now rewrite Hres, <- app_assoc|].
              assert (~ (Z.of_nat (List.length (acc ++ [e])) >= max_results)%Z) as Hlt.
              { intros C. apply Z.ge_le, Z.geb_le in C. congruence. }
              rewrite length_app in Hb, Hlt. simpl in Hb, Hlt.
              split; [lia|]. split; [|split].
              ** intros R HR. apply StronglySorted_inv in HR.
                 destruct HR as [Hs Hf]. cbn [map]. constructor; [now apply Hsort|].
                 apply Forall_forall. intros q Hq. apply in_map_iff in Hq.
                 destruct Hq as (e' & <- & He').
                 destruct (Hsound e' He') as (Hin & _).
                 simpl fst. rewrite <- Erel.
                 rewrite Forall_forall in Hf. now apply Hf.
              ** intros e' [<-|He']; [exact He|].
                 destruct (Hsound e' He') as (Hin & Hrest).
                 split; [now right | exact Hrest].
              ** intros Hlt' note' content' [<-|Hin] Hl Hr Hm.
                 --- exists rel. split; [exact Erel|]. left.
                     unfold e. rewrite Hr in Er. injection Er as ->.
                     now rewrite Em.
                 --- destruct (Hall Hlt' note' content' Hin Hl Hr Hm)
                       as (rel' & Hn & Hin').
                     exists rel'. split; [exact Hn | now right].
      * apply Hgo. intros content' _ Hr'. congruence.
    + apply Hgo. intros content' Hl _. unfold listed in Hl. congruence.
Qed.

Lemma search_notes_inv (fs : node) (v : Vault.t) (query folder : text)
      (max_results : Z) (out : found) :
  query <> [] ->
  search_notes fs v query folder max_results = Ok out ->
  out = match results_of out with
        | [] => NoResults query
        | _ :: _ => Results query (results_of out)
        end /\
  (is_dir fs (base_of v folder) = false /\ results_of out = [] \/
   is_dir fs (base_of v folder) = true /\
   search_loop fs v (lower query) (base_of v folder) max_results
               (sorted (select_from fs (base_of v folder) (T "*.md"))) []
   = Ok (results_of out)).
Proof.
  intros Hq. unfold search_notes. destruct query as [|c q]; [congruence|].
  destruct (is_dir fs (base_of v folder)) eqn:Ed; cbn [negb].
  - rewrite rglob_md.
    destruct (search_loop _ _ _ _ _ _ _) as [[|e res]|err]; try discriminate;
      intros [= <-]; split; try reflexivity; right; split; reflexivity.
  - intros [= <-]. split; [reflexivity|]. left. split; reflexivity.
Qed.

Lemma iter_notes_deep_In (fs : node) (v : Vault.t) (folder : text)
      (notes : list path) (note : path) :
  iter_notes fs v folder true 100 = Some notes ->
  (In note notes <->
   is_dir fs (base_of v folder) = true /\
   In note (sorted (select_from fs (base_of v folder) (T "*.md"))) /\
   listed v (base_of v folder) note).
Proof.
  unfold iter_notes, listed. destruct (is_dir fs (base_of v folder)); cbn [negb].
  - rewrite rglob_md. intros H. apply yield_if_Some in H. destruct H as [_ ->].
    rewrite filter_In. split.
    + intros [Hin Hc]. split; [reflexivity|]. split; [exact Hin|].
      now destruct (and_then _ _) as [[]|].
    + intros (_ & Hin & Hc). split; [exact Hin|]. now rewrite Hc.
  - intros [= <-]. split; [contradiction | intros [C _]; discriminate].
Qed.

Lemma existsb_rev {A : Type} (f : A -> bool) (l : list A) :
  existsb f (rev l) = existsb f l.
Proof.
  induction l as [|a l IH]; simpl; [reflexivity|].
  rewrite existsb_app, IH. simpl. rewrite orb_false_r. apply orb_comm.
Qed.

Lemma splitlines_from_no_break (n : nat) :
  forall s cur, List.length s <= n ->
    existsb is_linebreak cur = false ->
    Forall (fun l => existsb is_linebreak l = false) (splitlines_from cur s).
Proof.
  induction n as [|n IH]; intros s cur Hlen Hcur.
  - destruct s; [|simpl in Hlen; lia]. simpl.
    destruct cur; constructor; [|constructor].
    now rewrite existsb_rev.
  - destruct s as [|x s]; cbn [splitlines_from].
    + destruct cur; constructor; [|constructor]. now rewrite existsb_rev.
    + simpl in Hlen. destruct (is_linebreak x) eqn:Ex.
      * constructor; [now rewrite existsb_rev|].
        destruct s as [|y s]; [constructor|].
        destruct (Ascii.eqb x "013" && Ascii.eqb y "010").
        -- apply IH; [simpl in Hlen; lia | reflexivity].
        -- apply IH; [lia | reflexivity].
      * apply IH; [lia|]. simpl. now rewrite Ex.
Qed.

(** No line of [splitlines] holds a line boundary. *)
Lemma splitlines_no_break (s l : text) :
  In l (splitlines s) -> existsb is_linebreak l = false.
Proof.
  intros H.
  pose proof (splitlines_from_no_break (List.length s) s [] (le_n _) eq_refl) as F.
  rewrite Forall_forall in F. now apply F.
Qed.

Lemma is_linebreak_lower (c : ascii) :
  is_linebreak (lower_char c) = is_linebreak c.
Proof.
  destruct c as [[] [] [] [] [] [] [] []]; reflexivity.
Qed.

Lemma existsb_linebreak_lower (s : text) :
  existsb is_linebreak (lower s) = existsb is_linebreak s.
Proof.
  induction s as [|c s IH]; simpl; [reflexivity|].
  now rewrite is_linebreak_lower, IH.
Qed.

Lemma existsb_app_mid {A : Type} (f : A -> bool) (a b c : list A) :
  existsb f b = true -> existsb f (a ++ b ++ c) = true.
Proof.
  intros H. rewrite !existsb_app, H. now rewrite orb_true_r.
Qed.

(** A query with a line boundary in it is in no line. *)
Lemma matching_lines_multiline (query content : text) (k : nat) :
  existsb is_linebreak query = true ->
  matching_lines (lower query) k (splitlines content) = [].
Proof.
  intros Hq.
  assert (forall lines, (forall l, In l lines -> existsb is_linebreak l = false) ->
                        forall k, matching_lines (lower query) k lines = []) as H.
  { induction lines as [|l lines IH]; intros Hl k'; cbn [matching_lines];
      [reflexivity|].
    destruct (contains (lower l) (lower query)) eqn:E.
    - exfalso. apply contains_iff in E. destruct E as (pre & post & E).
      assert (existsb is_linebreak (lower l) = true) as C.
      { rewrite E. apply existsb_app_mid. now rewrite existsb_linebreak_lower. }
      rewrite existsb_linebreak_lower, (Hl l (or_introl eq_refl)) in C.
      discriminate.
    - apply IH. intros l' Hl'. apply Hl. now right. }
  apply H. intros l. apply splitlines_no_break.
Qed.

(** ** The vault *)

Lemma plain_snoc (p : path) (c : text) :
  plain p -> c <> dotdot -> c <> [] -> plain (p ++ [c]).
Proof. intros Hp H1 H2. apply plain_app. split; [exact Hp|]. now repeat constructor. Qed.

Lemma resolve_step_plain (acc : path) (c : text) :
  plain acc -> plain (resolve_step acc c).
Proof.
  intros H. unfold resolve_step. destruct (Text.eqb c []) eqn:E1; [exact H|].
  destruct (Text.eqb c dotdot) eqn:E2; [now apply plain_removelast|].
  apply text_eqb_neq in E1, E2. now apply plain_snoc.
Qed.

(** [resolve] leaves no [..] behind. *)
Lemma resolve_is_plain (p : path) : plain (PurePath.resolve p).
Proof.
  unfold PurePath.resolve.
  assert (forall acc, plain acc -> plain (fold_left resolve_step p acc)) as H.
  { induction p as [|c p IH]; intros acc Ha; simpl; [exact Ha|].
    apply IH. now apply resolve_step_plain. }
  apply H. constructor.
Qed.

Lemma init_gives_vault (fs : node) (s : text) (v : Vault.t) :
  wf fs = true -> init fs s = Some v ->
  Vault.ok fs v = true /\ root v = PurePath.resolve (parts s).
Proof.
  intros Hw. unfold init.
  destruct (is_dir fs (PurePath.resolve (parts s))) eqn:Ed; [|discriminate].
  intros [= <-]. split; [|reflexivity]. unfold Vault.ok. cbn [root].
  rewrite Hw, Ed, !andb_true_r.
  unfold is_dir in Ed. rewrite (stat_plain fs _ (resolve_is_plain (parts s))) in Ed.
  destruct (lookup fs (PurePath.resolve (parts s))) as [n|] eqn:El; [|discriminate].
  now destruct (wf_lookup fs _ n Hw El).
Qed.

(** ** Outgoing links *)

Lemma dedup_from_In (seen targets : list text) (t : text) :
  In t (dedup_from seen targets) -> In t targets /\ ~ In (lower t) seen.
Proof.
  revert seen. induction targets as [|x ts IH]; intros seen; simpl; [contradiction|].
  destruct (existsb (Text.eqb (lower x)) seen) eqn:E.
  - intros H. destruct (IH seen H). auto.
  - intros [<-|H].
    + split; [now left|]. intros C.
      assert (existsb (Text.eqb (lower x)) seen = true) as C'.
      { apply existsb_exists. exists (lower x). split; [exact C|apply text_eqb_refl]. }
      congruence.
    + destruct (IH _ H) as [H1 H2]. split; [now right|].
      intros C. apply H2. now right.
Qed.

Lemma dedup_from_NoDup (seen targets : list text) :
  NoDup (map lower (dedup_from seen targets)).
Proof.
  revert seen. induction targets as [|x ts IH]; intros seen; simpl; [constructor|].
  destruct (existsb (Text.eqb (lower x)) seen); [apply IH|].
  simpl. constructor; [|apply IH].
  intros C. apply in_map_iff in C. destruct C as (t & Ht & Hin).
  apply dedup_from_In in Hin. destruct Hin as [_ Hn]. apply Hn. left. now rewrite Ht.
Qed.

Lemma resolve_targets_Ok (fs : node) (v : Vault.t) (unique : list text)
      (ls : list (text * option path)) :
  resolve_targets fs v unique = Ok ls ->
  map fst ls = unique /\
  forall l, In l ls -> snd l = resolve_path_rel fs v (fst l).
Proof.
  revert ls. induction unique as [|t ts IH]; intros ls; simpl.
  - intros [= <-]. split; [reflexivity | contradiction].
  - unfold resolve_path_rel in *.
    destruct (resolve_path fs v t) as [[q|]|e] eqn:Er; [| |discriminate].
    + destruct (relative_to q (root v)) as [rel|] eqn:Erel; [|discriminate].
      destruct (resolve_targets fs v ts) as [ls'|]; [|discriminate].
      intros [= <-]. destruct (IH ls' eq_refl) as [Hm Hs]. split.
      * simpl. now rewrite Hm.
      * intros l [<-|Hl]; [simpl; now rewrite Er | now apply Hs].
    + destruct (resolve_targets fs v ts) as [ls'|]; [|discriminate].
      intros [= <-]. destruct (IH ls' eq_refl) as [Hm Hs]. split.
      * simpl. now rewrite Hm.
      * intros l [<-|Hl]; [simpl; now rewrite Er | now apply Hs].
Qed.

(** ** Removing and moving *)

Lemma find_entry_fresh (k : text) (es : list (text * node)) :
  fresh k es = true -> find_entry k es = None.
Proof.
  induction es as [|[k' x] es IH]; simpl; [reflexivity|].
  rewrite andb_true_iff, negb_true_iff. intros [-> H]. now apply IH.
Qed.

Lemma find_entry_remove_same (c : text) (es : list (text * node)) :
  wf_entries es = true -> find_entry c (remove_entry c es) = None.
Proof.
  induction es as [|[k x] es IH]; simpl; [reflexivity|].
  rewrite !andb_true_iff. intros [[[Hk Hf] Hx] Hes].
  destruct (Text.eqb k c) eqn:E.
  - apply text_eqb_eq in E. subst k. now apply find_entry_fresh.
  - simpl. rewrite E. now apply IH.
Qed.

Lemma find_entry_remove_other (c c2 : text) (es : list (text * node)) :
  c2 <> c -> find_entry c2 (remove_entry c es) = find_entry c2 es.
Proof.
  intros Hne. induction es as [|[k x] es IH]; simpl; [reflexivity|].
  destruct (Text.eqb k c) eqn:E.
  - apply text_eqb_eq in E. subst k.
    apply not_eq_sym, text_eqb_neq in Hne. now rewrite Hne.
  - simpl. now rewrite IH.
Qed.

(** The entry removed is gone. *)
Lemma lookup_remove_same (s : path) :
  forall fs, wf fs = true -> s <> [] -> lookup (remove s fs) s = None.
Proof.
  induction s as [|c s IH]; intros fs Hw Hne; [congruence|].
  destruct fs as [f|es]; [reflexivity|]. rewrite wf_Dir in Hw.
  destruct s as [|c' s].
  - simpl. now rewrite find_entry_remove_same.
  - cbn [remove]. destruct (find_entry c es) as [ch|] eqn:E.
    + cbn [lookup]. rewrite find_entry_set_same. apply IH; [|discriminate].
      apply find_entry_In in E. now destruct (wf_entries_In c es ch Hw E).
    + cbn [lookup]. now rewrite E.
Qed.

(** Removing a file leaves the text of every other file as it was. *)
Lemma file_text_remove (s : path) (d : option text) :
  forall fs x,
    wf fs = true -> lookup fs s = Some (File d) -> x <> s ->
    file_text (lookup (remove s fs) x) = file_text (lookup fs x).
Proof.
  induction s as [|c s IH]; intros fs x Hw Hl Hne; [reflexivity|].
  destruct fs as [f|es]; [reflexivity|]. rewrite wf_Dir in Hw.
  cbn [lookup] in Hl. destruct (find_entry c es) as [ch|] eqn:E; [|discriminate].
  destruct s as [|c' s].
  - cbn [remove]. destruct x as [|c2 x]; [reflexivity|].
    cbn [lookup]. destruct (Text.eqb c2 c) eqn:Ec.
    + apply text_eqb_eq in Ec. subst c2.
      rewrite (find_entry_remove_same c es Hw), E.
      simpl in Hl. injection Hl as ->.
      destruct x; [congruence | reflexivity].
    + apply text_eqb_neq in Ec. now rewrite (find_entry_remove_other c c2 es Ec).
  - cbn [remove]. rewrite E. destruct x as [|c2 x]; [reflexivity|].
    cbn [lookup]. destruct (Text.eqb c2 c) eqn:Ec.
    + apply text_eqb_eq in Ec. subst c2. rewrite find_entry_set_same, E.
      apply IH; [|exact Hl|congruence].
      apply find_entry_In in E. now destruct (wf_entries_In c es ch Hw E).
    + apply text_eqb_neq in Ec. now rewrite (find_entry_set_other c c2 _ es Ec).
Qed.

(** Removing a file keeps every other path, to a node of its kind. *)
Lemma lookup_remove_kind (s : path) (d : option text) :
  forall fs x n,
    lookup fs s = Some (File d) -> x <> s ->
    lookup fs x = Some n ->
    exists n', lookup (remove s fs) x = Some n' /\ is_Dir n' = is_Dir n.
Proof.
  induction s as [|c s IH]; intros fs x n Hl Hne Hx; [now exists n|].
  destruct fs as [f|es]; [now exists n|].
  cbn [lookup] in Hl. destruct (find_entry c es) as [ch|] eqn:E; [|discriminate].
  destruct s as [|c' s].
  - cbn [remove]. destruct x as [|c2 x].
    + simpl in Hx. injection Hx as <-. eexists. split; reflexivity.
    + cbn [lookup] in *. destruct (Text.eqb c2 c) eqn:Ec.
      * apply text_eqb_eq in Ec. subst c2. rewrite E in Hx.
        simpl in Hl. injection Hl as ->.
        destruct x; [congruence | discriminate].
      * apply text_eqb_neq in Ec. rewrite (find_entry_remove_other c c2 es Ec).
        now exists n.
  - cbn [remove]. rewrite E. destruct x as [|c2 x].
    + simpl in Hx. injection Hx as <-. eexists. split; reflexivity.
    + cbn [lookup] in *. destruct (Text.eqb c2 c) eqn:Ec.
      * apply text_eqb_eq in Ec. subst c2. rewrite find_entry_set_same.
        rewrite E in Hx. apply (IH ch x n Hl); [congruence | exact Hx].
      * apply text_eqb_neq in Ec. rewrite (find_entry_set_other c c2 _ es Ec).
        now exists n.
Qed.

(** Nothing appears where something is removed. *)
Lemma lookup_remove_none (s : path) :
  forall fs x, wf fs = true -> lookup fs x = None ->
               lookup (remove s fs) x = None.
Proof.
  induction s as [|c s IH]; intros fs x Hw Hx; [exact Hx|].
  destruct fs as [f|es]; [exact Hx|]. rewrite wf_Dir in Hw.
  destruct s as [|c' s].
  - cbn [remove]. destruct x as [|c2 x]; [discriminate|].
    cbn [lookup] in *. destruct (Text.eqb c2 c) eqn:Ec.
    + apply text_eqb_eq in Ec. subst c2.
      now rewrite (find_entry_remove_same c es Hw).
    + apply text_eqb_neq in Ec. now rewrite (find_entry_remove_other c c2 es Ec).
  - cbn [remove]. destruct (find_entry c es) as [ch|] eqn:E; [|exact Hx].
    destruct x as [|c2 x]; [discriminate|].
    cbn [lookup] in *. destruct (Text.eqb c2 c) eqn:Ec.
    + apply text_eqb_eq in Ec. subst c2. rewrite find_entry_set_same.
      rewrite E in Hx. apply IH; [|exact Hx].
      apply find_entry_In in E. now destruct (wf_entries_In c es ch Hw E).
    + apply text_eqb_neq in Ec. now rewrite (find_entry_set_other c c2 _ es Ec).
Qed.

(** What is found after a file is stored was there before, or is the
    file. *)
Lemma lookup_put_file_inv (q : path) (d : option text) :
  forall fs x n,
    lookup (put q (File d) fs) x = Some n ->
    x = q \/ lookup fs x <> None.
Proof.
  induction q as [|c q IH]; intros fs x n H.
  - simpl in H. destruct x; [now left | discriminate].
  - destruct fs as [f|es]; [right; simpl in H; congruence|].
    destruct q as [|c' q].
    + cbn [put] in H. destruct x as [|c2 x]; [right; discriminate|].
      cbn [lookup] in *. destruct (Text.eqb c2 c) eqn:Ec.
      * apply text_eqb_eq in Ec. subst c2. rewrite find_entry_set_same in H.
        destruct x; [now left | discriminate].
      * apply text_eqb_neq in Ec.
        rewrite (find_entry_set_other c c2 _ es Ec) in H. right. congruence.
    + cbn [put] in H. destruct (find_entry c es) as [ch|] eqn:E;
        [|right; congruence].
      destruct x as [|c2 x]; [right; discriminate|].
      cbn [lookup] in *. destruct (Text.eqb c2 c) eqn:Ec.
      * apply text_eqb_eq in Ec. subst c2. rewrite find_entry_set_same in H.
        rewrite E. destruct (IH ch x n H) as [->|Hx]; [now left | now right].
      * apply text_eqb_neq in Ec.
        rewrite (find_entry_set_other c c2 _ es Ec) in H. right. congruence.
Qed.

Lemma locate_new_plain_new (fs : node) (p : path) (es : list (text * node)) :
  plain p -> p <> [] -> lookup fs (removelast p) = Some (Dir es) ->
  locate_new fs p = inr p.
Proof.
  intros Hp Hne Hes.
  assert (walk fs [] (removelast p) = inr (removelast p)) as Hw.
  { apply walk_plain_exists; [now apply plain_removelast|]. now rewrite Hes. }
  pose proof (plain_last p Hp Hne) as Hlast. apply text_eqb_neq in Hlast.
  pose proof (app_removelast_last [] Hne) as Hsplit.
  unfold locate_new. destruct p as [|x p']; [congruence|].
  unfold text, path in *. rewrite Hw, Hes, Hlast. now rewrite <- Hsplit.
Qed.

Lemma removelast_app_ne {A : Type} (a b : list A) :
  b <> [] -> removelast (a ++ b) = a ++ removelast b.
Proof. intros H. now apply removelast_app. Qed.

(** Moving a file to a free place in a directory. *)
Lemma move_file_eq (fs : node) (src dst : path) (d : option text)
      (es : list (text * node)) :
  plain src -> src <> [] -> plain dst -> dst <> [] ->
  lookup fs src = Some (File d) ->
  lookup fs (removelast dst) = Some (Dir es) ->
  lookup fs dst = None ->
  move fs src dst = Some (put dst (File d) (remove src fs)).
Proof.
  intros Hps Hns Hpd Hnd Hs Hparent Hd.
  assert (PurePath.eqb (firstn (List.length src) dst) src = false) as Hpre.
  { apply path_eqb_neq. intros C.
    pose proof (firstn_skipn (List.length src) dst) as E. rewrite C in E.
    destruct (skipn (List.length src) dst) as [|y ys] eqn:Ey.
    - rewrite app_nil_r in E. congruence.
    - rewrite <- E in Hparent.
      rewrite removelast_app_ne, lookup_app, Hs in Hparent by discriminate.
      destruct (removelast (y :: ys)); discriminate. }
  unfold move.
  rewrite (walk_plain_exists fs src Hps) by (rewrite Hs; discriminate).
  rewrite (locate_new_plain_new fs dst es Hpd Hnd Hparent).
  destruct src as [|s0 src']; [congruence|].
  unfold text, path in *. now rewrite Hs, Hd, Hpre.
Qed.

Lemma move_file_spec (fs : node) (src dst : path) (d : option text)
      (es : list (text * node)) :
  wf fs = true ->
  plain src -> src <> [] -> plain dst -> dst <> [] ->
  lookup fs src = Some (File d) ->
  lookup fs (removelast dst) = Some (Dir es) ->
  lookup fs dst = None ->
  exists fs',
    move fs src dst = Some fs' /\
    lookup fs' dst = Some (File d) /\
    lookup fs' src = None /\
    forall x, x <> src -> x <> dst ->
              file_text (lookup fs' x) = file_text (lookup fs x).
Proof.
  intros Hw Hps Hns Hpd Hnd Hs Hparent Hd.
  assert (src <> dst) as Hsd by congruence.
  exists (put dst (File d) (remove src fs)).
  assert (lookup (remove src fs) dst = None) as Hd'
      by (now apply lookup_remove_none).
  split; [|split; [|split]].
  - now apply (move_file_eq fs src dst d es).
  - assert (removelast dst <> src) as Hne by (intros C; congruence).
    destruct (lookup_remove_kind src d fs (removelast dst) _ Hs Hne Hparent)
      as ([f|es'] & Hl & Hk); [discriminate|].
    exact (lookup_put_new dst _ _ es' Hnd Hl).
  - destruct (lookup (put dst (File d) (remove src fs)) src) as [n|] eqn:E;
      [|reflexivity].
    apply lookup_put_file_inv in E. destruct E as [E|E]; [congruence|].
    now rewrite (lookup_remove_same src fs Hw Hns) in E.
  - intros x Hxs Hxd. rewrite file_text_put_file.
    + now apply (file_text_remove src d).
    + intros es'. congruence.
    + exact Hxd.
Qed.

(** Unlinking a file. *)
Lemma unlink_file_spec (fs : node) (src : path) (d : option text) :
  wf fs = true -> plain src -> src <> [] ->
  lookup fs src = Some (File d) ->
  exists fs',
    unlink fs src = Some fs' /\
    lookup fs' src = None /\
    forall x, x <> src -> file_text (lookup fs' x) = file_text (lookup fs x).
Proof.
  intros Hw Hp Hne Hs. exists (remove src fs). split; [|split].
  - unfold unlink. rewrite (locate_new_plain fs src _ Hp Hne Hs). now rewrite Hs.
  - now apply lookup_remove_same.
  - intros x Hx. now apply (file_text_remove src d).
Qed.

(** ** Names tried in the trash *)









Lemma joinpath_name (base : path) (w : text) :
  valid_name w = true -> joinpath base w = base ++ [w].
Proof.
  intros Hv. assert (forallb valid_name [w] = true) as Hl
      by (simpl; now rewrite Hv).
  pose proof (join_no_leading_slash [w] Hl) as Hs.
  pose proof (parts_join [w] Hl) as Hp. cbn [Text.join] in Hs, Hp.
  unfold joinpath. now rewrite Hs, Hp.
Qed.

(** ** Deleting *)





(** ** Making directories *)

Lemma os_mkdir_inv (fs fs' : node) (p : path) :
  os_mkdir fs p = inr fs' ->
  exists d es,
    p <> [] /\ walk fs [] (removelast p) = inr d /\
    lookup fs d = Some (Dir es) /\ last p [] <> dotdot /\
    lookup fs (d ++ [last p []]) = None /\
    fs' = put (d ++ [last p []]) (Dir []) fs.
Proof.
  unfold os_mkdir, locate_new. destruct p as [|x p]; [discriminate|].
  destruct (walk fs [] (removelast (x :: p))) as [e|d] eqn:Ew; [discriminate|].
  destruct (lookup fs d) as [[f|es]|] eqn:Ed; try discriminate.
  destruct (Text.eqb (last (x :: p) []) dotdot) eqn:El; [discriminate|].
  apply text_eqb_neq in El.
  destruct (lookup fs (d ++ [last (x :: p) []])) as [m|] eqn:Eq; [discriminate|].
  intros [= <-]. exists d, es. repeat split; auto. discriminate.
Qed.

(** Storing an empty directory at a free place leaves the files as they
    were. *)
Lemma lookup_put_dir_file (q : path) :
  forall fs x d,
    lookup fs q = None ->
    (lookup (put q (Dir []) fs) x = Some (File d) <->
     lookup fs x = Some (File d)).
Proof.
  induction q as [|c q IH]; intros fs x d Hq; [discriminate|].
  destruct fs as [f|es]; [reflexivity|].
  destruct q as [|c' q].
  - cbn [put]. destruct x as [|c2 x]; [split; discriminate|].
    cbn [lookup] in *. destruct (Text.eqb c2 c) eqn:Ec.
    + apply text_eqb_eq in Ec. subst c2. rewrite find_entry_set_same.
      destruct (find_entry c es); [discriminate|].
      destruct x; split; discriminate.
    + apply text_eqb_neq in Ec. now rewrite (find_entry_set_other c c2 _ es Ec).
  - cbn [put]. cbn [lookup] in Hq.
    destruct (find_entry c es) as [ch|] eqn:E; [|reflexivity].
    destruct x as [|c2 x]; [split; discriminate|].
    cbn [lookup]. destruct (Text.eqb c2 c) eqn:Ec.
    + apply text_eqb_eq in Ec. subst c2. rewrite find_entry_set_same, E.
      now apply IH.
    + apply text_eqb_neq in Ec. now rewrite (find_entry_set_other c c2 _ es Ec).
Qed.

Lemma dirs_added_refl (fs : node) : dirs_added fs fs.
Proof. split; [apply extends_refl | reflexivity]. Qed.

Lemma dirs_added_trans (a b c : node) :
  dirs_added a b -> dirs_added b c -> dirs_added a c.
Proof.
  intros [H1 H2] [H3 H4]. split; [exact (extends_trans a b c H1 H3)|].
  intros x d. now rewrite H4, H2.
Qed.


(** What [os.mkdir] leaves when it succeeds. *)
Lemma os_mkdir_spec (fs fs' : node) (p : path) :
  os_mkdir fs p = inr fs' ->
  is_dir fs' p = true /\ dirs_added fs fs'.
Proof.
  intros H. destruct (os_mkdir_inv fs fs' p H)
    as (d & es & Hne & Hw & Hd & Hdd & Hq & ->).
  pose proof (put_dir_extends fs _ Hq) as Hx.
  split; [|split; [exact Hx | intros x f; now apply lookup_put_dir_file]].
  assert (lookup (put (d ++ [last p []]) (Dir []) fs) (d ++ [last p []])
          = Some (Dir [])) as Hnew.
  { apply (lookup_put_new _ _ fs es).
    - now destruct d.
    - now rewrite removelast_snoc. }
  pose proof (walk_extends _ _ Hx _ _ _ Hw) as Hw'.
  destruct (Hx d _ Hd) as ([f|es'] & Hd' & Hk); [discriminate|].
  apply text_eqb_neq in Hdd.
  remember (put (d ++ [last p []]) (Dir []) fs) as fs' eqn:Efs.
  remember (last p []) as c eqn:Ec.
  assert (p = removelast p ++ [c]) as Hsplit
      by (rewrite Ec; now apply app_removelast_last).
  unfold is_dir, stat. rewrite Hsplit, walk_app.
  unfold text, path in *. rewrite Hw'. cbn [walk].
  rewrite Hd', Hdd.
  destruct (Text.eqb c []).
  - now rewrite Hd'.
  - unfold text, path in *. now rewrite Hnew, Hnew.
Qed.

Lemma mkdir_exist_ok_spec (fs fs' : node) (p : path) :
  mkdir_exist_ok fs p = (fs', None) ->
  is_dir fs' p = true /\ dirs_added fs fs'.
Proof.
  unfold mkdir_exist_ok. destruct (os_mkdir fs p) as [e|fs1] eqn:E.
  - destruct e; try discriminate;
      (destruct (is_dir fs p) eqn:Ed; [|discriminate]);
      intros [= <-]; split; auto using dirs_added_refl.
  - intros [= <-]. now apply os_mkdir_spec.
Qed.

(** What [mkdir(parents=True, exist_ok=True)] leaves when it
    succeeds. *)
Lemma mkdir_parents_spec (fs fs' : node) (p : path) :
  mkdir_parents fs p = (fs', None) ->
  is_dir fs' p = true /\ dirs_added fs fs'.
Proof.
  unfold mkdir_parents. rewrite <- (rev_involutive p) at 2.
  generalize (rev p) as rp. clear p. intros rp. revert fs fs'.
  induction rp as [|c rp IH]; intros fs fs'; cbn [mkdir_parents_rev].
  - destruct (os_mkdir fs (rev [])) as [e|fs1] eqn:E.
    + destruct e; try discriminate;
        (destruct (is_dir fs (rev [])) eqn:Ed; [|discriminate]);
        intros [= <-]; split; auto using dirs_added_refl.
    + intros [= <-]. now apply os_mkdir_spec.
  - destruct (os_mkdir fs (rev (c :: rp))) as [e|fs1] eqn:E.
    + destruct e;
        try (destruct (is_dir fs (rev (c :: rp))) eqn:Ed; [|discriminate];
             intros [= <-]; split; auto using dirs_added_refl).
      destruct (mkdir_parents_rev fs rp) as [fs1 [e|]] eqn:Er; [discriminate|].
      intros H. apply mkdir_exist_ok_spec in H. destruct H as [Hd Ha].
      split; [exact Hd|].
      destruct (IH fs fs1 Er) as [_ Ha']. exact (dirs_added_trans _ _ _ Ha' Ha).
    + intros [= <-]. now apply os_mkdir_spec.
Qed.

Lemma locate_new_cons (fs : node) (p : path) :
  p <> [] ->
  locate_new fs p
  = match walk fs [] (removelast p) with
    | inl e => inl e
    | inr d =>
        match lookup fs d with
        | Some (Dir _) =>
            if Text.eqb (last p []) dotdot then inl EEXIST
            else inr (d ++ [last p []])
        | Some (File _) => inl ENOTDIR
        | None => inl ENOENT
        end
    end.
Proof. destruct p; [congruence | reflexivity]. Qed.

Lemma is_dir_last (fs : node) (p : path) :
  p <> [] -> last p [] <> [] -> is_dir fs p = true ->
  exists d es,
    walk fs [] (removelast p) = inr d /\ lookup fs d = Some (Dir es) /\
    (last p [] = dotdot \/ lookup fs (d ++ [last p []]) <> None).
Proof.
  intros Hne Hl Hd. remember (last p []) as c eqn:Ec.
  assert (p = removelast p ++ [c]) as Hsplit
      by (rewrite Ec; now apply app_removelast_last).
  unfold is_dir, stat in Hd. rewrite Hsplit, walk_app in Hd.
  destruct (walk fs [] (removelast p)) as [e|d] eqn:Ew; [discriminate|].
  cbn [walk] in Hd.
  destruct (lookup fs d) as [[f|es]|] eqn:Ed; try discriminate.
  exists d, es. split; [reflexivity|]. split; [exact Ed|].
  apply text_eqb_neq in Hl. rewrite Hl in Hd.
  destruct (Text.eqb c dotdot) eqn:Edd.
  - left. now apply text_eqb_eq.
  - right.
    match goal with |- ?t <> None => destruct t end;
      [discriminate | discriminate Hd].
Qed.

(** A directory that exists is left alone. *)
Lemma mkdir_parents_exists (fs : node) (p : path) :
  Forall (fun c => c <> []) p -> is_dir fs p = true ->
  mkdir_parents fs p = (fs, None).
Proof.
  intros Hp Hd. unfold mkdir_parents.
  assert (exists e, os_mkdir fs p = inl e /\ e <> ENOENT) as (e & He & Hne).
  { unfold os_mkdir. destruct (list_eq_dec (list_eq_dec Ascii.ascii_dec) p [])
      as [->|Hnil].
    - exists EEXIST. split; [reflexivity | discriminate].
    - assert (last p [] <> []) as Hl.
      { rewrite Forall_forall in Hp. apply Hp.
        rewrite (app_removelast_last [] Hnil) at 2. apply in_or_app. right. now left. }
      destruct (is_dir_last fs p Hnil Hl Hd) as (d & es & Hw & Hld & Hlast).
      rewrite (locate_new_cons fs p Hnil), Hw, Hld.
      destruct Hlast as [->|Hsome].
      + exists EEXIST. split; [reflexivity | discriminate].
      + destruct (Text.eqb (last p []) dotdot).
        * exists EEXIST. split; [reflexivity | discriminate].
        * destruct (lookup fs (d ++ [last p []])); [|congruence].
          exists EEXIST. split; [reflexivity | discriminate]. }
  destruct (rev p) as [|c rp] eqn:Er; cbn [mkdir_parents_rev];
    rewrite <- Er, rev_involutive, He, Hd; now destruct e.
Qed.

(** ** Writing twice *)

Lemma set_entry_twice (c : text) (v w : node) (es : list (text * node)) :
  set_entry c v (set_entry c w es) = set_entry c v es.
Proof.
  induction es as [|[k x] es IH]; simpl.
  - now rewrite text_eqb_refl.
  - destruct (Text.eqb k c) eqn:E; simpl; rewrite E; [reflexivity|].
    now rewrite IH.
Qed.

Lemma put_twice (q : path) (v : node) :
  forall fs, put q v (put q v fs) = put q v fs.
Proof.
  induction q as [|c q IH]; intros fs; [reflexivity|].
  destruct fs as [f|es]; [reflexivity|].
  destruct q as [|c' q].
  - cbn [put]. now rewrite set_entry_twice.
  - destruct (find_entry c es) as [ch|] eqn:E.
    + assert (put (c :: c' :: q) v (Dir es)
              = Dir (set_entry c (put (c' :: q) v ch) es)) as E1
          by (cbn [put]; now rewrite E).
      rewrite E1. remember (put (c' :: q) v ch) as X eqn:EX.
      assert (put (c :: c' :: q) v (Dir (set_entry c X es))
              = Dir (set_entry c (put (c' :: q) v X) (set_entry c X es))) as E2
          by (cbn [put]; now rewrite find_entry_set_same).
      rewrite E2, EX, IH. now rewrite set_entry_twice.
    + cbn [put]. rewrite E. cbn [put]. now rewrite E.
Qed.

(** Writing again what was written changes nothing. *)
Lemma write_text_twice (fs fs' : node) (p : path) (c : text) :
  write_text fs p c = Some fs' -> write_text fs' p c = Some fs'.
Proof.
  intros H. destruct (write_text_inv fs fs' p c H)
    as (d & es & Hne & Hw & Hd & Hdd & Hq & ->).
  pose proof (put_file_extends fs _ (Some c) Hq) as Hx.
  assert (lookup (put (d ++ [last p []]) (File (Some c)) fs) (d ++ [last p []])
          = Some (File (Some c))) as Hnew.
  { apply (lookup_put_new _ _ fs es).
    - now destruct d.
    - now rewrite removelast_snoc. }
  pose proof (walk_extends _ _ Hx _ _ _ Hw) as Hw'.
  destruct (Hx d _ Hd) as ([f|es'] & Hd' & Hk); [discriminate|].
  apply text_eqb_neq in Hdd.
  unfold write_text. rewrite (locate_new_cons _ p Hne), Hw', Hd', Hdd, Hnew.
  now rewrite put_twice.
Qed.

Lemma Forall_removelast {A : Type} (P : A -> Prop) (l : list A) :
  Forall P l -> Forall P (removelast l).
Proof.
  induction 1 as [|a l Ha Hl IH]; [constructor|].
  destruct l; [constructor|]. simpl. constructor; assumption.
Qed.

Lemma valid_names_nonempty (p : path) :
  forallb valid_name p = true -> Forall (fun c => c <> []) p.
Proof.
  intros H. apply valid_names_plain in H. unfold plain in H.
  eapply Forall_impl; [|exact H]. now intros c [_ Hc].
Qed.

(** The path that [ensure_path] returns has no empty component below a
    root that has none. *)
Lemma ensure_path_nonempty (fs fs1 : node) (v : Vault.t) (p : text)
      (full : path) :
  Forall (fun c => c <> []) (root v) ->
  ensure_path fs v p = (fs1, inr full) ->
  Forall (fun c => c <> []) full.
Proof.
  intros Hr H. unfold ensure_path in H.
  set (vr := if endswith (strip_char slash p) md then strip_char slash p
             else strip_char slash p ++ md) in *.
  assert (startswith vr [slash] = false) as Hs.
  { unfold vr. destruct (endswith (strip_char slash p) md).
    - apply strip_char_head.
    - apply startswith_app_l; [apply strip_char_head | reflexivity]. }
  unfold joinpath in H. rewrite Hs in H.
  destruct (negb _); [discriminate|].
  destruct (mkdir_parents _ _) as [fs' [e|]]; [discriminate|].
  injection H as _ <-. apply Forall_app. split; [exact Hr|].
  now apply parts_relative.
Qed.

Lemma ensure_path_again (fs fs1 : node) (v : Vault.t) (p : text)
      (full : path) :
  Forall (fun c => c <> []) (root v) ->
  ensure_path fs v p = (fs1, inr full) ->
  forall fs2, extends fs1 fs2 -> ensure_path fs2 v p = (fs2, inr full).
Proof.
  intros Hr H fs2 Hx.
  pose proof (ensure_path_nonempty fs fs1 v p full Hr H) as Hne.
  destruct (ensure_path_inv fs fs1 v p full H)
    as (vr & Hvr & Hmd & Hfull & _ & Hin & Hmk).
  apply mkdir_parents_spec in Hmk. destruct Hmk as [Hd _].
  unfold ensure_path in *. rewrite <- Hvr in *.
  assert (startswith vr [slash] = false) as Hs.
  { rewrite Hvr. destruct (endswith (strip_char slash p) md).
    - apply strip_char_head.
    - apply startswith_app_l; [apply strip_char_head | reflexivity]. }
  unfold joinpath in *. rewrite Hs in *. rewrite <- Hfull in *.
  rewrite Hin. cbn [negb].
  rewrite (mkdir_parents_exists fs2 (parent full)); [reflexivity| |].
  - now apply Forall_removelast.
  - exact (is_dir_extends fs1 fs2 _ Hx Hd).
Qed.

(** ** Making the folders of a new note *)







(** ** The listing under a change of text *)






(** ** Rewriting twice *)




(** ** Well-formed trees under a change *)

Lemma fresh_remove_entry (k c : text) (es : list (text * node)) :
  fresh k es = true -> fresh k (remove_entry c es) = true.
Proof.
  induction es as [|[k' x] es IH]; simpl; [reflexivity|].
  rewrite andb_true_iff. intros [Hk Hf].
  destruct (Text.eqb k' c); [exact Hf|]. simpl. now rewrite Hk, IH.
Qed.

Lemma wf_entries_remove (c : text) (es : list (text * node)) :
  wf_entries es = true -> wf_entries (remove_entry c es) = true.
Proof.
  induction es as [|[k x] es IH]; simpl; [reflexivity|].
  rewrite !andb_true_iff. intros [[[Hk Hf] Hx] Hes].
  destruct (Text.eqb k c); [exact Hes|]. simpl.
  now rewrite Hk, (fresh_remove_entry k c es Hf), Hx, IH.
Qed.

Lemma wf_remove (s : path) : forall fs, wf fs = true -> wf (remove s fs) = true.
Proof.
  induction s as [|c s IH]; intros fs Hw; [exact Hw|].
  destruct fs as [f|es]; [exact Hw|]. rewrite wf_Dir in Hw.
  destruct s as [|c' s].
  - cbn [remove]. rewrite wf_Dir. now apply wf_entries_remove.
  - cbn [remove]. destruct (find_entry c es) as [ch|] eqn:E;
      [|now rewrite wf_Dir].
    rewrite wf_Dir. apply (wf_entries_set c _ ch); auto.
    apply IH. apply find_entry_In in E.
    now destruct (wf_entries_In c es ch Hw E).
Qed.

Lemma fresh_set_entry_new (k c : text) (v : node) (es : list (text * node)) :
  fresh k es = true -> c <> k -> fresh k (set_entry c v es) = true.
Proof.
  intros Hf Hc. induction es as [|[k' x] es IH]; simpl.
  - apply text_eqb_neq in Hc. now rewrite Hc.
  - simpl in Hf. apply andb_true_iff in Hf. destruct Hf as [Hk Hf].
    destruct (Text.eqb k' c); simpl; rewrite Hk; [exact Hf | now apply IH].
Qed.

Lemma wf_entries_set_new (c : text) (v : node) (es : list (text * node)) :
  wf_entries es = true -> find_entry c es = None ->
  valid_name c = true -> wf v = true ->
  wf_entries (set_entry c v es) = true.
Proof.
  intros Hw Hc Hv Hwv. induction es as [|[k x] es IH]; simpl.
  - now rewrite Hv, Hwv.
  - simpl in Hw, Hc. rewrite !andb_true_iff in Hw.
    destruct Hw as [[[Hk Hf] Hx] Hes].
    destruct (Text.eqb k c) eqn:E; [discriminate|]. simpl.
    apply text_eqb_neq in E.
    rewrite Hk, Hx, (IH Hes Hc), fresh_set_entry_new; auto.
Qed.

(** A new entry with a valid name keeps the tree well formed. *)
Lemma wf_put_new (q : path) (v : node) :
  forall fs es,
    wf fs = true -> q <> [] ->
    lookup fs (removelast q) = Some (Dir es) -> lookup fs q = None ->
    valid_name (last q []) = true -> wf v = true ->
    wf (put q v fs) = true.
Proof.
  induction q as [|c q IH]; intros fs es Hw Hne Hp Hq Hv Hwv; [congruence|].
  destruct fs as [f|es0]; [exact Hw|]. rewrite wf_Dir in Hw.
  destruct q as [|c' q].
  - cbn [put]. rewrite wf_Dir. cbn [lookup] in Hq.
    destruct (find_entry c es0) as [ch|] eqn:E; [discriminate|].
    now apply wf_entries_set_new.
  - cbn [put]. change (removelast (c :: c' :: q)) with (c :: removelast (c' :: q)) in Hp.
    cbn [lookup] in Hp, Hq.
    destruct (find_entry c es0) as [ch|] eqn:E; [|discriminate].
    rewrite wf_Dir. apply (wf_entries_set c _ ch); auto.
    apply (IH ch es); auto; try discriminate.
    apply find_entry_In in E. now destruct (wf_entries_In c es0 ch Hw E).
Qed.

Lemma os_mkdir_wf (fs fs' : node) (p : path) :
  wf fs = true -> forallb valid_name p = true ->
  os_mkdir fs p = inr fs' -> wf fs' = true.
Proof.
  intros Hw Hv H.
  destruct (os_mkdir_inv fs fs' p H) as (d & es & Hne & _ & Hd & _ & Hq & ->).
  apply (wf_put_new _ _ fs es); auto.
  - now destruct d.
  - now rewrite removelast_snoc.
  - rewrite last_last. rewrite forallb_forall in Hv. apply Hv.
    rewrite (app_removelast_last [] Hne) at 2. apply in_or_app. right. now left.
Qed.

Lemma mkdir_parents_wf (fs fs' : node) (p : path) :
  wf fs = true -> forallb valid_name p = true ->
  mkdir_parents fs p = (fs', None) -> wf fs' = true.
Proof.
  unfold mkdir_parents. intros Hw Hv.
  assert (forallb valid_name (rev (rev p)) = true) as Hv'
      by now rewrite rev_involutive.
  revert Hv'. clear Hv. generalize (rev p) as rp. clear p. intros rp.
  revert fs fs' Hw.
  induction rp as [|c rp IH]; intros fs fs' Hw Hv; cbn [mkdir_parents_rev].
  - destruct (os_mkdir fs (rev [])) as [e|fs1] eqn:E.
    + destruct e; try discriminate;
        (destruct (is_dir fs (rev [])); [|discriminate]); now intros [= <-].
    + intros [= <-]. now apply (os_mkdir_wf fs _ (rev [])).
  - destruct (os_mkdir fs (rev (c :: rp))) as [e|fs1] eqn:E.
    + destruct e;
        try (destruct (is_dir fs (rev (c :: rp))); [|discriminate];
             now intros [= <-]).
      destruct (mkdir_parents_rev fs rp) as [fs1 [e|]] eqn:Em; [discriminate|].
      assert (wf fs1 = true) as Hw1.
      { apply (IH fs fs1 Hw); [|exact Em].
        cbn [rev] in Hv. rewrite forallb_app in Hv.
        now apply andb_true_iff in Hv. }
      unfold mkdir_exist_ok.
      destruct (os_mkdir fs1 (rev (c :: rp))) as [e|fs2] eqn:E2.
      * destruct e; try discriminate;
          (destruct (is_dir fs1 (rev (c :: rp))); [|discriminate]);
          now intros [= <-].
      * intros [= <-]. now apply (os_mkdir_wf fs1 _ (rev (c :: rp))).
    + intros [= <-]. now apply (os_mkdir_wf fs _ (rev (c :: rp))).
Qed.

(** ** Moving a note *)

(** A file moved to a free place with a valid name: the tree stays well
    formed and every other path keeps its kind. *)
Lemma move_file_wf (fs : node) (src dst : path) (d : option text)
      (es : list (text * node)) :
  wf fs = true -> src <> [] -> dst <> [] ->
  lookup fs src = Some (File d) ->
  lookup fs (removelast dst) = Some (Dir es) ->
  lookup fs dst = None ->
  valid_name (last dst []) = true ->
  wf (put dst (File d) (remove src fs)) = true /\
  forall x n, x <> src -> lookup fs x = Some n ->
              exists n', lookup (put dst (File d) (remove src fs)) x = Some n' /\
                         is_Dir n' = is_Dir n.
Proof.
  intros Hw Hns Hnd Hs Hparent Hd Hv.
  assert (lookup (remove src fs) dst = None) as Hd'
      by (now apply lookup_remove_none).
  assert (removelast dst <> src) as Hne by (intros C; congruence).
  destruct (lookup_remove_kind src d fs (removelast dst) _ Hs Hne Hparent)
    as ([f|es'] & Hl & Hk); [discriminate|].
  split.
  - apply (wf_put_new dst _ _ es'); auto. now apply wf_remove.
  - intros x n Hx Hn.
    destruct (lookup_remove_kind src d fs x n Hs Hx Hn) as (n1 & Hn1 & Hk1).
    assert (extends (remove src fs) (put dst (File d) (remove src fs))) as Hext.
    { apply put_file_extends. intros es0. congruence. }
    destruct (Hext x n1 Hn1) as (n2 & Hn2 & Hk2).
    exists n2. split; [exact Hn2 | congruence].
Qed.

(** The rewriting loop of [move_note] leaves the moved note with its
    text and makes no new entry. *)
Lemma move_loop_keeps (old_name new_name : text) (dst : path)
      (notes : list path) :
  (forall q, In q notes -> plain q /\ q <> []) ->
  forall fs n fs' r,
    move_loop old_name new_name dst notes fs n = (fs', r) ->
    file_text (lookup fs' dst) = file_text (lookup fs dst) /\
    forall x, lookup fs x = None -> lookup fs' x = None.
Proof.
  induction notes as [|note rest IH]; intros Hall fs n fs' r.
  - intros [= <- _]. auto.
  - assert (forall q, In q rest -> plain q /\ q <> []) as Hall'
        by (intros q Hq; apply Hall; now right).
    destruct (Hall note (or_introl eq_refl)) as [Hplain Hne].
    cbn [move_loop]. destruct (PurePath.eqb note dst) eqn:Ed; [now apply IH|].
    apply path_eqb_neq in Ed.
    destruct (read_text fs note) as [content|] eqn:Er; [|intros [= <- _]; auto].
    destruct (rewrite_links old_name new_name content) as [new_content|e];
      [|intros [= <- _]; auto].
    destruct (Text.eqb new_content content); [now apply IH|].
    destruct (write_text fs note new_content) as [fs1|] eqn:Ew;
      [|intros [= <- _]; auto].
    intros Hrun. destruct (IH Hall' fs1 (S n) fs' r Hrun) as [Hd Hnone].
    rewrite (read_text_plain fs note Hplain) in Er.
    destruct (lookup fs note) as [[[c1|]|es]|] eqn:El; try discriminate.
    unfold write_text in Ew.
    rewrite (locate_new_plain fs note _ Hplain Hne El), El in Ew.
    injection Ew as <-. split.
    + rewrite Hd. apply (file_text_put_other note (Some c1)); auto.
    + intros x Hx. apply Hnone.
      destruct (lookup (put note (File (Some new_content)) fs) x) as [m|] eqn:E;
        [|reflexivity].
      apply lookup_put_file_inv in E. destruct E as [->|E]; congruence.
Qed.

Lemma endswith_join_last (rel : path) :
  rel <> [] -> endswith (last rel []) md = true ->
  endswith (Text.join [slash] rel) md = true.
Proof.
  intros Hne H. apply endswith_iff in H. destruct H as [w H].
  apply endswith_iff.
  induction rel as [|a rel IH]; [congruence|].
  destruct rel as [|b rel].
  - simpl in *. now exists w.
  - destruct IH as [w' E]; [discriminate | exact H|].
    exists (a ++ [slash] ++ w').
    change (Text.join [slash] (a :: b :: rel))
      with (a ++ [slash] ++ Text.join [slash] (b :: rel)).
    now rewrite E, <- !app_assoc.
Qed.

(** [ensure_path] on the path of a note, spelled by valid names. *)
Lemma ensure_path_note (fs : node) (v : Vault.t) (rel : path) :
  Vault.ok fs v = true ->
  rel <> [] -> forallb valid_name rel = true ->
  endswith (last rel []) md = true ->
  ensure_path fs v (str_rel rel)
  = match mkdir_parents fs (root v ++ removelast rel) with
    | (fs', None) => (fs', inr (root v ++ rel))
    | (fs', Some e) => (fs', inl (MkdirFailed e))
    end.
Proof.
  intros Hok Hne Hv Hmd.
  assert (parent (root v ++ rel) = root v ++ removelast rel) as Hparent
      by (unfold parent; now apply removelast_app).
  unfold ensure_path, str_rel. destruct rel as [|w rel']; [congruence|].
  rewrite (strip_join _ Hv), (endswith_join_last _ Hne Hmd).
  unfold joinpath.
  rewrite (join_no_leading_slash _ Hv), (parts_join _ Hv).
  rewrite within_vault_plain
    by (now rewrite forallb_app, (ok_root_valid fs v Hok), Hv).
  cbn [negb]. now rewrite Hparent.
Qed.

(* ================================================================= *)
(** * Further properties of the code *)

(** ** vault.py *)

Lemma parts_str (r : path) :
  forallb valid_name r = true -> parts (str r) = r.
Proof.
  intros Hv. pose proof (join_no_leading_slash r Hv) as Hs.
  unfold parts, str.
  assert (startswith (slash :: Text.join [slash] r) [slash; slash] &&
          negb (startswith (slash :: Text.join [slash] r) [slash; slash; slash])
          = false) as ->.
  { cbn [startswith]. rewrite Ascii.eqb_refl.
    destruct (Text.join [slash] r) as [|c s]; [reflexivity|].
    cbn [startswith] in Hs. rewrite andb_true_r in Hs. now rewrite Hs. }
  cbn [Text.split]. rewrite Ascii.eqb_refl. cbn [filter Text.eqb negb andb].
  destruct r as [|w r]; [reflexivity|].
  rewrite split_join; [|discriminate | exact Hv].
  apply forallb_filter_id. rewrite forallb_forall in *. intros k Hk.
  destruct (valid_name_no_slash k (Hv k Hk)) as (_ & Hne & Hdot).
  apply text_eqb_neq in Hne, Hdot. now rewrite Hne, Hdot.
Qed.

(** X1.  The constructor of [Vault] leaves what the operations rely on.
    For an absolute path without NUL, in a well-formed file system: the
    root it stores is an existing directory named by valid components,
    without [..], and constructing a vault from the string of that root
    gives the same vault again. *)
Theorem X1_init_is_canonical (fs : node) (s : text) (v : Vault.t) :
  wf fs = true ->
  startswith s [slash] = true ->
  existsb (Ascii.eqb nul) s = false ->
  init fs s = Some v ->
  Vault.ok fs v = true /\ init fs (str (root v)) = Some v.
Proof.
  intros Hw _ _ Hi. destruct (init_gives_vault fs s v Hw Hi) as [Hok _].
  split; [exact Hok|]. unfold init.
  rewrite (parts_str _ (ok_root_valid fs v Hok)).
  rewrite (resolve_plain _ (ok_root_plain fs v Hok)).
  rewrite (ok_is_dir fs v Hok). now destruct v.
Qed.

Lemma X1_init_is_canonical_witness :
  Vault.ok tmp_vault vault = true /\
  init tmp_vault (str (root vault)) = Some vault.
Proof.
  apply (X1_init_is_canonical tmp_vault (T "/etc/../vault/./") vault);
    reflexivity.
Defined.

(** X2.  [folder_count] counts, each once, the directories below the
    root none of whose components, taken relative to the root, is an
    excluded name; unlike [note_count] it has no bound on the depth. *)
Theorem X2_folder_count_counts_included_directories
        (fs : node) (v : Vault.t) :
  Vault.ok fs v = true ->
  exists folders,
    folder_count fs v = Some (List.length folders) /\
    NoDup folders /\
    forall p, In p folders <->
              (exists rel, entry_below fs (root v) rel p) /\
              is_dir fs p = true /\ included v p.
Proof.
  intros Hok. pose proof (ok_wf fs v Hok) as Hw.
  unfold folder_count. rewrite rglob_star.
  set (cond := fun p => if is_dir fs p then _should_include v p else Some false).
  destruct (yield_if cond (select_from fs (root v) (T "*"))) as [l|] eqn:E.
  - exists l. split; [reflexivity|].
    apply yield_if_Some in E. destruct E as [_ ->]. split.
    + apply NoDup_filter, select_from_NoDup, Hw.
    + intros p. rewrite filter_In, (select_from_In fs (root v) (T "*") p Hw).
      unfold cond. split.
      * intros [(rel & Hrel & _) Hc]. split; [now exists rel|].
        destruct (is_dir fs p); [|discriminate]. split; [reflexivity|].
        destruct (_should_include v p) as [[]|] eqn:Es; try discriminate.
        now apply should_include_true.
      * intros ((rel & Hrel) & Hd & Hinc). split.
        -- exists rel. split; [exact Hrel | apply glob_star_all].
        -- rewrite Hd. apply should_include_true in Hinc. now rewrite Hinc.
  - exfalso. revert E. apply yield_if_total. intros p Hp.
    apply (select_from_below fs _ _ p Hw) in Hp. destruct Hp as (rel & -> & Hv).
    unfold cond. destruct (is_dir fs (root v ++ rel)); [|discriminate].
    apply should_include_below. now apply valid_names_unanchored.
Qed.

Lemma X2_folder_count_counts_included_directories_witness :
  exists folders,
    folder_count tmp_vault vault = Some (List.length folders) /\
    NoDup folders /\
    forall p, In p folders <->
              (exists rel, entry_below tmp_vault (root vault) rel p) /\
              is_dir tmp_vault p = true /\ included vault p.
Proof.
  apply (X2_folder_count_counts_included_directories tmp_vault vault).
  reflexivity.
Defined.

(** X3.  What [iter_notes] lists is among what [iter_entries] lists with
    the same arguments: in the recursive mode it is the entries whose
    name ends in [.md], directories included; in the other mode the
    regular files with the suffix [.md]. *)
Theorem X3_notes_are_entries (fs : node) (v : Vault.t) (folder : text)
        (recursive : bool) (max_depth : Z) (notes entries : list path) :
  wf fs = true ->
  iter_notes fs v folder recursive max_depth = Some notes ->
  iter_entries fs v folder recursive max_depth = Some entries ->
  forall p,
    In p notes <->
    In p entries /\
    (if recursive then endswith (name p) md = true
     else is_file fs p && Text.eqb (suffix p) md = true).
Proof.
  intros Hw. unfold iter_notes, iter_entries.
  destruct (is_dir fs (base_of v folder)); cbn [negb].
  - destruct recursive.
    + rewrite rglob_md, rglob_star. intros Hn He p.
      destruct (deep_listing fs v _ _ _ _ Hw Hn) as [_ Hn'].
      destruct (deep_listing fs v _ _ _ _ Hw He) as [_ He'].
      rewrite Hn', He'. split.
      * intros (rel & Hrel & Hinc & Hg & Hd). rewrite glob_md in Hg. split; [|exact Hg].
        exists rel. split; [exact Hrel|]. split; [exact Hinc|].
        split; [apply glob_star_all | exact Hd].
      * intros [(rel & Hrel & Hinc & _ & Hd) Hmd]. exists rel.
        split; [exact Hrel|]. split; [exact Hinc|].
        split; [now rewrite glob_md | exact Hd].
    + intros Hn He p.
      destruct (shallow_listing fs v _ _ _ Hw Hn) as [_ Hn'].
      destruct (shallow_listing fs v _ (fun _ => true) _ Hw He) as [_ He'].
      rewrite Hn', He'. tauto.
  - intros [= <-] [= <-] p. simpl. tauto.
Qed.

Lemma X3_notes_are_entries_witness :
  let p := [T "vault"; T "Projects"; T "spec.md"] in
    In p [[T "vault"; T "Archive"; T "old-stuff.md"];
          [T "vault"; T "Projects"; T "ideas.md"];
          [T "vault"; T "Projects"; T "spec.md"];
          [T "vault"; T "README.md"];
          [T "vault"; T "Templates"; T "Daily Note.md"]] <->
    In p [[T "vault"; T "Archive"];
          [T "vault"; T "Archive"; T "old-stuff.md"];
          [T "vault"; T "Daily Notes"];
          [T "vault"; T "Projects"];
          [T "vault"; T "Projects"; T "ideas.md"];
          [T "vault"; T "Projects"; T "spec.md"];
          [T "vault"; T "README.md"];
          [T "vault"; T "Templates"];
          [T "vault"; T "Templates"; T "Daily Note.md"]] /\
    endswith (name p) md = true.
Proof.
  intros p.
  apply (X3_notes_are_entries tmp_vault vault [] true 2); reflexivity.
Defined.

(** X4.  When [ensure_path] returns a path, the parent of that path is
    a directory; what it made on the way is directories only, every
    file being left with its text; and asking again changes nothing and
    gives the same path. *)
Theorem X4_ensure_path_is_idempotent (fs fs1 : node) (v : Vault.t)
        (p : text) (full : path) :
  Vault.ok fs v = true ->
  ensure_path fs v p = (fs1, inr full) ->
  is_dir fs1 (parent full) = true /\
  dirs_added fs fs1 /\
  ensure_path fs1 v p = (fs1, inr full).
Proof.
  intros Hok H.
  destruct (ensure_path_inv fs fs1 v p full H) as (vr & _ & _ & _ & _ & _ & Hmk).
  apply mkdir_parents_spec in Hmk. destruct Hmk as [Hd Ha].
  split; [exact Hd|]. split; [exact Ha|].
  apply (ensure_path_again fs fs1 v p full); [|exact H|apply extends_refl].
  exact (valid_names_nonempty _ (ok_root_valid fs v Hok)).
Qed.

Lemma X4_ensure_path_is_idempotent_witness :
  let fs1 := fst (ensure_path tmp_vault vault (T "Deep/Nested/note")) in
  let full := [T "vault"; T "Deep"; T "Nested"; T "note.md"] in
  is_dir fs1 (parent full) = true /\
  dirs_added tmp_vault fs1 /\
  ensure_path fs1 vault (T "Deep/Nested/note") = (fs1, inr full).
Proof.
  apply (X4_ensure_path_is_idempotent tmp_vault _ vault (T "Deep/Nested/note"));
    reflexivity.
Defined.

(** ** notes.py: writing *)



(** X6.  [write_note] is idempotent: called again with the same
    arguments on the file system it left, it leaves that file system as
    it is and gives the same answer. *)
Theorem X6_write_note_is_idempotent (fs fs' : node) (v : Vault.t)
        (p c : text) (r : written) :
  Vault.ok fs v = true ->
  write_note fs v p c = (fs', Ok r) ->
  write_note fs' v p c = (fs', Ok r).
Proof.
  intros Hok. unfold write_note.
  destruct (ensure_path fs v p) as [fs1 [[vr|e]|full]] eqn:Ee; try discriminate.
  - intros [= <- <-].
    assert (fs1 = fs) as ->.
    { unfold ensure_path in Ee. destruct (negb _); [congruence|].
      destruct (mkdir_parents _ _) as [? [?|]]; discriminate. }
    now rewrite Ee.
  - destruct (write_text fs1 full c) as [fs2|] eqn:Ew; [|discriminate].
    destruct (relative_to full (root v)) as [rel|] eqn:Er; [|discriminate].
    intros [= <- <-].
    assert (extends fs1 fs2) as Hx.
    { destruct (write_text_inv fs1 fs2 full c Ew)
        as (d & es & _ & _ & _ & _ & Hq & ->).
      now apply put_file_extends. }
    rewrite (ensure_path_again fs fs1 v p full
               (valid_names_nonempty _ (ok_root_valid fs v Hok)) Ee fs2 Hx).
    now rewrite (write_text_twice fs1 fs2 full c Ew), Er.
Qed.

Lemma X6_write_note_is_idempotent_witness :
  let fs' := fst (write_note tmp_vault vault (T "new-note")
                             (T "# New Note")) in
  write_note fs' vault (T "new-note") (T "# New Note")
  = (fs', Ok (Wrote [T "new-note.md"])).
Proof.
  apply (X6_write_note_is_idempotent tmp_vault _ vault); reflexivity.
Defined.



(** ** notes.py: editing *)









(** ** notes.py: appending *)









(** ** notes.py: deleting *)

Lemma trash_path (v : Vault.t) :
  joinpath (root v) (T ".trash") = root v ++ [T ".trash"].
Proof. now apply joinpath_name. Qed.




(** X17.  Without a [.trash] directory the note is unlinked: for a
    readable note of the vault [delete_note] with [confirm] answers
    [Deleted], the note is gone, and every other file reads as before. *)
Theorem X17_delete_note_without_trash_unlinks (fs : node) (v : Vault.t)
        (rel : path) (c : text) :
  Vault.ok fs v = true ->
  rel <> [] -> forallb valid_name rel = true ->
  read_text fs (root v ++ rel) = Some c ->
  is_dir fs (root v ++ [T ".trash"]) = false ->
  exists fs',
    delete_note fs v (str_rel rel) true = (fs', Ok (Deleted rel)) /\
    exists_ fs' (root v ++ rel) = false /\
    forall q, plain q -> q <> root v ++ rel ->
              read_text fs' q = read_text fs q.
Proof.
  intros Hok Hne Hv Hr Htrash.
  pose proof (note_plain fs v rel Hok Hv) as Hplain.
  pose proof Hr as Hr'. rewrite (read_text_plain fs _ Hplain) in Hr'.
  destruct (lookup fs (root v ++ rel)) as [[[c0|]|es0]|] eqn:Hl;
    try discriminate.
  destruct (unlink_file_spec fs (root v ++ rel) (Some c0) (ok_wf fs v Hok)
                             Hplain (note_nonempty v rel Hne) Hl)
    as (fs' & Hun & Hgone & Hframe).
  exists fs'. split; [|split].
  - unfold delete_note. cbn [negb].
    rewrite (note_resolves fs v rel c Hok Hne Hv Hr), (note_relative v rel Hv).
    rewrite trash_path, Htrash, Hun. reflexivity.
  - unfold exists_. now rewrite (stat_plain fs' _ Hplain), Hgone.
  - intros q Hq H1. rewrite !(read_text_plain _ q Hq). now apply Hframe.
Qed.

Lemma X17_delete_note_without_trash_unlinks_witness :
  exists fs',
    delete_note fs_plain vault (str_rel [T "notes.md"]) true
    = (fs', Ok (Deleted [T "notes.md"])) /\
    exists_ fs' (root vault ++ [T "notes.md"]) = false /\
    forall q, plain q -> q <> root vault ++ [T "notes.md"] ->
              read_text fs' q = read_text fs_plain q.
Proof.
  apply (X17_delete_note_without_trash_unlinks
           fs_plain vault [T "notes.md"] (T "the note"));
    try reflexivity. discriminate.
Defined.

(** ** search.py *)

(** X18.  What [search_notes] reports is there.  Every result names a
    note that the recursive listing of the folder yields and that can be
    read, with the first three of its lines that contain the query, case
    ignored; each match gives the number of the line, counted from one,
    and the line without the white space around it. *)
Theorem X18_search_reports_real_matches (fs : node) (v : Vault.t)
        (query folder : text) (max_results : Z) (q : text)
        (results : list result_entry) (rel : path)
        (matches : list (nat * text)) :
  search_notes fs v query folder max_results = Ok (Results q results) ->
  In (rel, matches) results ->
  q = query /\
  (forall notes, iter_notes fs v folder true 100 = Some notes ->
                 In (root v ++ rel) notes) /\
  exists content,
    read_text fs (root v ++ rel) = Some content /\
    matches = note_matches query content /\ matches <> [] /\
    forall i t,
      In (i, t) matches ->
      exists line,
        1 <= i /\ nth_error (splitlines content) (i - 1) = Some line /\
        t = strip line /\ contains (lower line) (lower query) = true.
Proof.
  intros Hs Hin.
  assert (query <> []) as Hq by (intros ->; discriminate).
  destruct (search_notes_inv fs v query folder max_results _ Hq Hs)
    as [Hout [[_ Hnil]|[Hd Hloop]]]; cbn [results_of] in *.
  - now rewrite Hnil in Hin.
  - assert (q = query) as ->.
    { destruct results; [contradiction | now injection Hout]. }
    split; [reflexivity|].
    destruct (search_loop_spec _ _ _ _ _ _ _ _ Hloop)
      as (new & Hres & _ & _ & Hsound & _).
    simpl in Hres. subst new.
    destruct (Hsound _ Hin) as (Hc & Hl & content & Hr & Hm & Hne).
    cbn [fst snd] in *. split.
    + intros notes Hn. apply (iter_notes_deep_In fs v folder notes _ Hn). auto.
    + exists content. repeat split; auto.
      intros i t Hit. unfold note_matches in *. rewrite Hm in Hit.
      apply In_firstn, matching_lines_In in Hit. exact Hit.
Qed.

Lemma X18_search_reports_real_matches_witness :
  T "PROJECT SPEC" = T "PROJECT SPEC" /\
  (forall notes, iter_notes tmp_vault vault [] true 100 = Some notes ->
                 In (root vault ++ [T "Projects"; T "spec.md"]) notes) /\
  exists content,
    read_text tmp_vault (root vault ++ [T "Projects"; T "spec.md"])
    = Some content /\
    [(2, T "title: Project Spec"); (9, T "This is a project spec.")]
    = note_matches (T "PROJECT SPEC") content /\
    [(2, T "title: Project Spec"); (9, T "This is a project spec.")] <> [] /\
    forall i t,
      In (i, t) [(2, T "title: Project Spec"); (9, T "This is a project spec.")] ->
      exists line,
        1 <= i /\ nth_error (splitlines content) (i - 1) = Some line /\
        t = strip line /\ contains (lower line) (lower (T "PROJECT SPEC")) = true.
Proof.
  apply (X18_search_reports_real_matches
           tmp_vault vault (T "PROJECT SPEC") [] 20 (T "PROJECT SPEC")
           [([T "Projects"; T "spec.md"],
             [(2, T "title: Project Spec"); (9, T "This is a project spec.")])]).
  - reflexivity.
  - left. reflexivity.
Defined.

(** X19.  The bound of [search_notes].  The results are never more than
    [max_results], except that a bound below one still lets one result
    through, because the bound is tested after a note is added; in a
    well-formed file system they come in the order of their paths, no
    note twice. *)
Theorem X19_search_bound_and_order (fs : node) (v : Vault.t)
        (query folder : text) (max_results : Z) (q : text)
        (results : list result_entry) :
  wf fs = true ->
  search_notes fs v query folder max_results = Ok (Results q results) ->
  (1 <= Z.of_nat (List.length results) <= Z.max 1 max_results)%Z /\
  StronglySorted lt_path (map (fun e => root v ++ fst e) results).
Proof.
  intros Hw Hs.
  assert (query <> []) as Hq by (intros ->; discriminate).
  destruct (search_notes_inv fs v query folder max_results _ Hq Hs)
    as [Hout [[_ Hnil]|[Hd Hloop]]]; cbn [results_of] in *.
  - rewrite Hnil in Hout. discriminate.
  - destruct (search_loop_spec _ _ _ _ _ _ _ _ Hloop)
      as (new & Hres & Hb & Hsort & _).
    simpl in Hres. subst new. simpl in Hb. split.
    + split; [|exact Hb]. destruct results; [discriminate Hout | simpl; lia].
    + apply Hsort. apply sorted_strict, select_from_NoDup, Hw.
Qed.

Lemma X19_search_bound_and_order_witness :
  let results : list result_entry :=
    [([T "Archive"; T "old-stuff.md"],
      [(2, T "tags:"); (5, T "# Old Stuff");
       (7, T "This is archived. #legacy")])] in
  (1 <= Z.of_nat (List.length results) <= Z.max 1 0)%Z /\
  StronglySorted lt_path (map (fun e => root vault ++ fst e) results).
Proof.
  apply (X19_search_bound_and_order tmp_vault vault (T "s") [] 0 (T "s"));
    reflexivity.
Defined.

(** X20.  Below the bound nothing is missed.  When [search_notes]
    returns fewer than [max_results] results, every note that the
    recursive listing of the folder yields, that can be read and that has
    a line containing the query is among them, with its matches. *)
Theorem X20_search_is_complete_below_the_bound (fs : node) (v : Vault.t)
        (query folder : text) (max_results : Z) (out : found)
        (notes : list path) (note : path) (content : text) :
  query <> [] ->
  search_notes fs v query folder max_results = Ok out ->
  (Z.of_nat (List.length (results_of out)) < max_results)%Z ->
  iter_notes fs v folder true 100 = Some notes ->
  In note notes ->
  read_text fs note = Some content ->
  note_matches query content <> [] ->
  exists rel,
    note = root v ++ rel /\
    In (rel, note_matches query content) (results_of out).
Proof.
  intros Hq Hs Hlt Hn Hin Hr Hm.
  destruct (search_notes_inv fs v query folder max_results _ Hq Hs)
    as [_ [[Hd _]|[Hd Hloop]]].
  - apply (iter_notes_deep_In fs v folder notes note Hn) in Hin.
    destruct Hin as [C _]. congruence.
  - destruct (search_loop_spec _ _ _ _ _ _ _ _ Hloop)
      as (new & Hres & _ & _ & _ & Hall).
    simpl in Hres. subst new.
    apply (iter_notes_deep_In fs v folder notes note Hn) in Hin.
    destruct Hin as (_ & Hc & Hl).
    apply (Hall Hlt note content Hc Hl Hr).
    intros C. apply Hm. unfold note_matches. now rewrite C.
Qed.

Lemma X20_search_is_complete_below_the_bound_witness :
  exists rel,
    [T "vault"; T "Projects"; T "ideas.md"] = root vault ++ rel /\
    In (rel, note_matches (T "project") ideas_md)
       (results_of
          (Results (T "project")
                   [([T "Projects"; T "ideas.md"],
                     [(3, T "Some ideas for the project.")]);
                    ([T "Projects"; T "spec.md"],
                     [(2, T "title: Project Spec"); (4, T "- project");
                      (9, T "This is a project spec.")])])).
Proof.
  apply (X20_search_is_complete_below_the_bound
           tmp_vault vault (T "project") [] 20 _
           [[T "vault"; T "Archive"; T "old-stuff.md"];
            [T "vault"; T "Projects"; T "ideas.md"];
            [T "vault"; T "Projects"; T "spec.md"];
            [T "vault"; T "README.md"];
            [T "vault"; T "Templates"; T "Daily Note.md"]]);
    try reflexivity; try discriminate.
  right. left. reflexivity.
Defined.

(** X21.  The search goes line by line: a query that holds a line
    boundary matches nothing, whatever the notes hold; when the search
    returns, what it returns is that there are no results. *)
Theorem X21_search_is_line_by_line (fs : node) (v : Vault.t)
        (query folder : text) (max_results : Z) (out : found) :
  existsb is_linebreak query = true ->
  search_notes fs v query folder max_results = Ok out ->
  search_notes fs v query folder max_results = Ok (NoResults query).
Proof.
  intros Hb Hs. rewrite Hs. f_equal.
  assert (query <> []) as Hq by (intros ->; discriminate).
  destruct (search_notes_inv fs v query folder max_results _ Hq Hs)
    as [Hout [[_ Hnil]|[Hd Hloop]]].
  - now rewrite Hnil in Hout.
  - destruct (search_loop_spec _ _ _ _ _ _ _ _ Hloop)
      as (new & Hres & _ & _ & Hsound & _).
    simpl in Hres. subst new.
    destruct (results_of out) as [|e res] eqn:E; [exact Hout|].
    exfalso. destruct (Hsound e (or_introl eq_refl))
      as (_ & _ & content & _ & Hm & Hne).
    apply Hne. rewrite Hm.
    now rewrite (matching_lines_multiline query content 1 Hb).
Qed.

Lemma X21_search_is_line_by_line_witness :
  search_notes tmp_vault vault (T "# Spec

This") [] 20 = Ok (NoResults (T "# Spec

This")).
Proof.
  apply (X21_search_is_line_by_line tmp_vault vault (T "# Spec

This") [] 20 (NoResults (T "# Spec

This"))); reflexivity.
Defined.

(** ** links.py *)

(** X22.  [get_outgoing_links] lists every link of a note once.  The
    targets listed are targets that the note holds, no two of them are
    equal when case is ignored, every target of the note has its
    lower-cased spelling among them, and beside each one stands what
    [resolve_path] gives for it, relative to the root. *)
Theorem X22_outgoing_links_listed_once (fs : node) (v : Vault.t) (p : text)
        (rel : path) (links : list (text * option path)) :
  get_outgoing_links fs v p = Ok (OutLinks rel links) ->
  exists content,
    read_text fs (root v ++ rel) = Some content /\
    NoDup (map (fun l => lower (fst l)) links) /\
    (forall l, In l links ->
               In (fst l) (parse_wikilinks content) /\
               snd l = resolve_path_rel fs v (fst l)) /\
    (forall t, In t (parse_wikilinks content) ->
               exists l, In l links /\ lower (fst l) = lower t).
Proof.
  unfold get_outgoing_links.
  destruct (resolve_path fs v p) as [[resolved|]|e]; try discriminate.
  destruct (read_text fs resolved) as [content|] eqn:Er; [|discriminate].
  destruct (relative_to resolved (root v)) as [rel'|] eqn:Erel; [|discriminate].
  destruct (parse_wikilinks content) as [|t0 ts] eqn:Ep; [discriminate|].
  destruct (resolve_targets fs v (dedup (t0 :: ts))) as [ls|] eqn:Els;
    [|discriminate].
  intros [= <- <-]. apply relative_to_Some in Erel. subst resolved.
  destruct (resolve_targets_Ok fs v _ ls Els) as [Hm Hs].
  exists content. rewrite Ep. split; [exact Er|]. split; [|split].
  - rewrite <- (map_map fst lower), Hm. apply dedup_from_NoDup.
  - intros l Hl. split; [|now apply Hs].
    assert (In (fst l) (dedup (t0 :: ts))) as Hin
        by (rewrite <- Hm; now apply in_map).
    now apply dedup_from_In in Hin.
  - intros t Ht. destruct (dedup_covers _ t Ht) as (t' & Ht' & Hl).
    rewrite <- Hm in Ht'. apply in_map_iff in Ht'.
    destruct Ht' as (l & <- & Hin). now exists l.
Qed.

Lemma X22_outgoing_links_listed_once_witness :
  exists content,
    read_text fs_repeat (root vault ++ [T "hub.md"]) = Some content /\
    NoDup (map (fun l => lower (fst l))
               [(T "Ideas", Some [T "ideas.md"]); (T "missing", None)]) /\
    (forall l, In l [(T "Ideas", Some [T "ideas.md"]); (T "missing", None)] ->
               In (fst l) (parse_wikilinks content) /\
               snd l = resolve_path_rel fs_repeat vault (fst l)) /\
    (forall t, In t (parse_wikilinks content) ->
               exists l, In l [(T "Ideas", Some [T "ideas.md"]);
                               (T "missing", None)] /\
                         lower (fst l) = lower t).
Proof.
  apply (X22_outgoing_links_listed_once fs_repeat vault (T "hub")).
  reflexivity.
Defined.



(** ** notes.py: moving a note *)

(** X24.  [move_note] takes the text of the note to its new place.  For
    a readable note of the vault and a destination spelled by valid
    names, the last one ending in [.md]: when the call answers [Moved],
    the destination did not exist before, it now holds the text of the
    note as it was, whatever links the text has, and the note is gone
    from its old place. *)
Theorem X24_move_note_takes_the_text (fs fs' : node) (v : Vault.t)
        (rel drel : path) (c : text) (src_rel dst_rel : path) (n : nat) :
  Vault.ok fs v = true ->
  rel <> [] -> forallb valid_name rel = true ->
  read_text fs (root v ++ rel) = Some c ->
  drel <> [] -> forallb valid_name drel = true ->
  endswith (last drel []) md = true ->
  move_note fs v (str_rel rel) (str_rel drel)
  = (fs', Ok (Moved src_rel dst_rel n)) ->
  src_rel = rel /\ dst_rel = drel /\
  exists_ fs (root v ++ drel) = false /\
  read_text fs' (root v ++ drel) = Some c /\
  exists_ fs' (root v ++ rel) = false.
Proof.
  intros Hok Hne Hv Hr Hdne Hdv Hmd.
  pose proof (note_plain fs v rel Hok Hv) as Hps.
  pose proof (note_plain fs v drel Hok Hdv) as Hpd.
  pose proof (note_nonempty v rel Hne) as Hns.
  pose proof (note_nonempty v drel Hdne) as Hnd.
  unfold move_note.
  rewrite (note_resolves fs v rel c Hok Hne Hv Hr).
  rewrite (ensure_path_note fs v drel Hok Hdne Hdv Hmd).
  destruct (mkdir_parents fs (root v ++ removelast drel)) as [fs1 [e|]] eqn:Emk;
    [discriminate|].
  destruct (mkdir_parents_spec _ _ _ Emk) as [Hdir Hadd].
  assert (forallb valid_name (root v ++ removelast drel) = true) as Hvp.
  { rewrite forallb_app, (ok_root_valid fs v Hok). cbn [andb].
    rewrite forallb_forall in *. intros x Hx. apply Hdv.
    rewrite (app_removelast_last [] Hdne). apply in_or_app. now left. }
  pose proof (mkdir_parents_wf _ _ _ (ok_wf fs v Hok) Hvp Emk) as Hw1.
  destruct (exists_ fs1 (root v ++ drel)) eqn:Eex; [discriminate|].
  unfold exists_ in Eex. rewrite (stat_plain fs1 _ Hpd) in Eex.
  destruct (lookup fs1 (root v ++ drel)) as [m|] eqn:Ed1; [discriminate|].
  clear Eex.
  rewrite (read_text_plain fs _ Hps) in Hr.
  destruct (lookup fs (root v ++ rel)) as [[[c0|]|es0]|] eqn:Es; try discriminate.
  injection Hr as ->.
  pose proof (proj2 (proj2 Hadd _ _) Es) as Es1.
  assert (exists es, lookup fs1 (removelast (root v ++ drel)) = Some (Dir es))
    as [es Hes].
  { rewrite removelast_app by exact Hdne.
    unfold is_dir in Hdir.
    rewrite (stat_plain fs1 _ (valid_names_plain _ Hvp)) in Hdir.
    destruct (lookup fs1 (root v ++ removelast drel)) as [[f|es]|];
      try discriminate. now exists es. }
  rewrite (move_file_eq fs1 _ _ (Some c) es Hps Hns Hpd Hnd Es1 Hes Ed1).
  assert (valid_name (last (root v ++ drel) []) = true) as Hvl.
  { rewrite last_app_ne by exact Hdne. rewrite forallb_forall in Hdv. apply Hdv.
    rewrite (app_removelast_last [] Hdne) at 2. apply in_or_app. right. now left. }
  destruct (move_file_wf fs1 _ _ (Some c) es Hw1 Hns Hnd Es1 Hes Ed1 Hvl)
    as [Hw2 Hkind].
  destruct (move_file_spec fs1 _ _ (Some c) es Hw1 Hps Hns Hpd Hnd Es1 Hes Ed1)
    as (fs2' & Hmv & Hdst & Hsrc & _).
  rewrite (move_file_eq fs1 _ _ (Some c) es Hps Hns Hpd Hnd Es1 Hes Ed1) in Hmv.
  injection Hmv as <-.
  set (fs2 := put (root v ++ drel) (File (Some c)) (remove (root v ++ rel) fs1))
    in *.
  assert (Vault.ok fs2 v = true) as Hok2.
  { unfold Vault.ok. rewrite (ok_root_valid fs v Hok), Hw2. cbn [andb].
    pose proof (is_dir_extends fs fs1 (root v) (proj1 Hadd) (ok_is_dir fs v Hok))
      as Hd1.
    unfold is_dir in Hd1 |- *.
    rewrite (stat_plain fs1 _ (ok_root_plain fs v Hok)) in Hd1.
    rewrite (stat_plain fs2 _ (ok_root_plain fs v Hok)).
    destruct (lookup fs1 (root v)) as [[f|esr]|] eqn:Er; try discriminate.
    assert (root v <> root v ++ rel) as Hrs.
    { intros C. apply (f_equal (@List.length text)) in C.
      rewrite length_app in C. destruct rel; [congruence|]. simpl in C.
      unfold text, path in *. lia. }
    destruct (Hkind _ _ Hrs Er) as (n' & Hn' & Hk). fold fs2 in Hn'.
    rewrite Hn'. now destruct n'. }
  assert (forall fs3 r,
             move_rewrite fs2 v (stem (root v ++ rel)) (stem (root v ++ drel))
                          (root v ++ drel) = (fs3, r) ->
             file_text (lookup fs3 (root v ++ drel)) = Some c /\
             lookup fs3 (root v ++ rel) = None) as Hloop.
  { intros fs3 r. unfold move_rewrite.
    destruct (Text.eqb (stem (root v ++ rel)) (stem (root v ++ drel))).
    - intros [= <- _]. now rewrite Hdst.
    - destruct (ok_iter_notes fs2 v 100 Hok2) as (notes & -> & _ & Hall).
      intros Hrun. apply move_loop_keeps in Hrun.
      + destruct Hrun as [H1 H2]. rewrite H1, Hdst. split; [reflexivity|].
        now apply H2.
      + intros q Hq. destruct (Hall q Hq) as (qrel & -> & Hqne & Hqv & _). split.
        * now apply (note_plain fs v).
        * now apply note_nonempty. }
  destruct (move_rewrite fs2 v (stem (root v ++ rel)) (stem (root v ++ drel))
                         (root v ++ drel)) as [fs3 [m|e]] eqn:Erw;
    [|discriminate].
  destruct (Hloop fs3 _ eq_refl) as [Htext Hgone].
  rewrite (note_relative v rel Hv), (note_relative v drel Hdv).
  intros [= <- <- <- _]. split; [reflexivity|]. split; [reflexivity|].
  split; [|split].
  - unfold exists_. rewrite (stat_plain fs _ Hpd).
    destruct (lookup fs (root v ++ drel)) as [m0|] eqn:E0; [|reflexivity].
    destruct (proj1 Hadd _ _ E0) as (m1 & Hm1 & _). congruence.
  - now rewrite (read_text_plain _ _ Hpd).
  - unfold exists_. now rewrite (stat_plain _ _ Hps), Hgone.
Qed.

Lemma X24_move_note_takes_the_text_witness :
  let fs' := fst (move_note tmp_vault vault (str_rel [T "Projects"; T "ideas.md"])
                            (str_rel [T "New"; T "thoughts.md"])) in
  [T "Projects"; T "ideas.md"] = [T "Projects"; T "ideas.md"] /\
  [T "New"; T "thoughts.md"] = [T "New"; T "thoughts.md"] /\
  exists_ tmp_vault (root vault ++ [T "New"; T "thoughts.md"]) = false /\
  read_text fs' (root vault ++ [T "New"; T "thoughts.md"]) = Some ideas_md /\
  exists_ fs' (root vault ++ [T "Projects"; T "ideas.md"]) = false.
Proof.
  apply (X24_move_note_takes_the_text
           tmp_vault _ vault [T "Projects"; T "ideas.md"]
           [T "New"; T "thoughts.md"] ideas_md
           [T "Projects"; T "ideas.md"] [T "New"; T "thoughts.md"] 1);
    try reflexivity; discriminate.
Defined.

(** X25.  A move that is refused changes no file.  When [move_note]
    answers that the source was not found or that the destination
    escapes the vault, the file system is as it was; when it answers that
    the destination exists, the folders of the destination may have been
    made, but the files are the same, with their texts. *)
Theorem X25_refused_move_changes_no_file (fs fs' : node) (v : Vault.t)
        (source destination : text) (r : moved) :
  move_note fs v source destination = (fs', Ok r) ->
  match r with
  | SourceNotFound _ | EscapesVault _ => fs' = fs
  | DestinationExists _ => dirs_added fs fs'
  | Moved _ _ _ => True
  end.
Proof.
  unfold move_note.
  destruct (resolve_path fs v source) as [[resolved_src|]|e];
    [| intros [= <- <-]; reflexivity | discriminate].
  destruct (ensure_path fs v destination) as [fs1 [[vr|e]|resolved_dst]] eqn:Ee;
    [| discriminate |].
  - intros [= <- <-]. unfold ensure_path in Ee.
    destruct (negb (_is_within_vault v _)); [now injection Ee as <- _|].
    destruct (mkdir_parents fs _) as [fs2 [e|]]; discriminate.
  - destruct (ensure_path_inv fs fs1 v destination resolved_dst Ee)
      as (vr & _ & _ & _ & _ & _ & Hmk).
    apply mkdir_parents_spec in Hmk.
    destruct (exists_ fs1 resolved_dst); [intros [= <- <-]; apply Hmk|].
    destruct (move fs1 resolved_src resolved_dst) as [fs2|]; [|discriminate].
    destruct (move_rewrite fs2 v _ _ resolved_dst) as [fs3 [m|e]];
      [|discriminate].
    destruct (relative_to resolved_src (root v)); [|discriminate].
    destruct (relative_to resolved_dst (root v)); [|discriminate].
    now intros [= <- <-].
Qed.

Lemma X25_refused_move_changes_no_file_witness :
  let fs' := fst (move_note tmp_vault vault (T "spec")
                            (T "New/Folder/../../README")) in
  dirs_added tmp_vault fs' /\
  is_dir fs' (root vault ++ [T "New"; T "Folder"]) = true.
Proof.
  split; [|reflexivity].
  apply (X25_refused_move_changes_no_file
           tmp_vault _ vault (T "spec") (T "New/Folder/../../README")
           (DestinationExists (T "New/Folder/../../README"))).
  reflexivity.
Defined.
